(** * Order-preserving k-way merge operator (velox/exec/Merge.cpp)

    A shallow embedding of the merge operator of the query engine and of the
    parts of its environment that it calls, followed by the properties of
    the specification that are stated about it.

    Conventions of the embedding.
    - A [RowVector] is columnar, as in the engine: a size and a list of
      child columns.  Column values are nullable 64-bit integers.
    - Pointers are indices: a [SourceStream] names its [MergeSource] by its
      position in the operator's [sources_], the tournament names its
      cursors by their position in [streams_].
    - A C++ call that throws (a failed VELOX_CHECK, a null dereference, an
      ordinal out of range) is a [Fail] in the [Result] monad.
    - A [std::vector] used as a stack of futures keeps its back at the head
      of the list. *)

From stdpp Require Import base tactics option list numbers sorting strings.

Local Open Scope Z_scope.
Local Open Scope nat_scope.

(** ** Results of calls that may throw *)

Inductive Error :=
  | CheckFailed (msg : string)
  | NullPointer
  | OutOfRange
  | OutOfFuel.

Inductive Result (A : Type) :=
  | Ok (a : A)
  | Fail (e : Error).
Arguments Ok {A} a.
Arguments Fail {A} e.

#[global] Instance Result_ret : MRet Result := λ A a, Ok a.
#[global] Instance Result_bind : MBind Result := λ A B k r,
  match r with
  | Ok a => k a
  | Fail e => Fail e
  end.

Definition isOk {A} (r : Result A) : bool :=
  match r with Ok _ => true | Fail _ => false end.

(** ** Row batches *)

Abbreviation Value := (option Z).
Abbreviation Column := (list Value).
Abbreviation Row := (list Value).

Record RowVector := mkRowVector {
  rvSize : nat;
  rvChildren : list Column
}.

(** The row of a batch at a position: one value of every child. *)
Definition rowAt (v : RowVector) (i : nat) : Row :=
  (λ c : Column, c !!! i) <$> rvChildren v.

Definition rowsOf (v : RowVector) : list Row :=
  rowAt v <$> seq 0 (rvSize v).

(** Modelled from the spec: [RowVector::resize] of the vector library; the
    size and every child are cut (or padded with nulls) to the new size. *)
Definition resizeColumn (n : nat) (c : Column) : Column :=
  take n c ++ replicate (n - length c) None.

Definition rvResize (n : nat) (v : RowVector) : RowVector :=
  mkRowVector n (resizeColumn n <$> rvChildren v).

(** Modelled from the spec: [BaseVector::create<RowVector>(type, size, pool)]
    of the vector library, followed by the resize of every child;
    [numColumns] children of [size] unset values. *)
Definition createRowVector (numColumns size : nat) : RowVector :=
  mkRowVector size (replicate numColumns (replicate size None)).

(** ** Sort keys and the column comparison *)

Record CompareFlags := mkCompareFlags {
  nullsFirst : bool;
  ascending : bool;
  equalsOnly : bool
}.

Record SortOrder := mkSortOrder {
  isAscending : bool;
  isNullsFirst : bool
}.

Abbreviation SortKey := (nat * CompareFlags)%type.

Definition threeWay (x y : Z) : Z :=
  if (x <? y)%Z then (-1)%Z else if (x =? y)%Z then 0%Z else 1%Z.

(** Modelled from the spec: the column comparison of the vector library,
    which is not part of Merge.cpp.  "compare(otherBatch, i, j, flags) →
    {-1,0,+1}" respecting the ascending and nulls-first flags, with nulls
    handled as values. *)
Definition compareValue (flags : CompareFlags) (a b : Value) : Z :=
  match a, b with
  | None, None => 0%Z
  | None, Some _ => if nullsFirst flags then (-1)%Z else 1%Z
  | Some _, None => if nullsFirst flags then 1%Z else (-1)%Z
  | Some x, Some y => if ascending flags then threeWay x y else threeWay y x
  end.

Definition columnCompare (c other : Column) (index otherIndex : nat)
    (flags : CompareFlags) : Z :=
  compareValue flags (c !!! index) (other !!! otherIndex).

(** Comparison of two rows under the sort key list: the result of the first
    key whose comparison is not zero, and zero when there is none. *)
Fixpoint rowCompare (keys : list SortKey) (a b : Row) : Z :=
  match keys with
  | [] => 0%Z
  | (channel, flags) :: rest =>
      let r := compareValue flags (a !!! channel) (b !!! channel) in
      if (r =? 0)%Z then rowCompare rest a b else r
  end.

(** "Strictly less under the sort key list", stated on the keys: some key
    compares below zero and every key before it compares equal. *)
Definition rowLt (keys : list SortKey) (a b : Row) : Prop :=
  ∃ i channel flags,
    keys !! i = Some (channel, flags) ∧
    (compareValue flags (a !!! channel) (b !!! channel) < 0)%Z ∧
    ∀ j c f, j < i → keys !! j = Some (c, f) →
      compareValue f (a !!! c) (b !!! c) = 0%Z.

Definition rowsEqualOnKeys (keys : list SortKey) (a b : Row) : Prop :=
  ∀ i channel flags, keys !! i = Some (channel, flags) →
    compareValue flags (a !!! channel) (b !!! channel) = 0%Z.

Definition rowLess (keys : list SortKey) (a b : Row) : bool :=
  (rowCompare keys a b <? 0)%Z.

(** Non-decreasing order of two rows: the second is not strictly less. *)
Definition rowLe (keys : list SortKey) (a b : Row) : Prop :=
  rowLess keys b a = false.

(** ** Merge sources *)

Definition Future := nat.

Inductive BlockingReason :=
  | kNotBlocked
  | kWaitForProducer
  | kWaitForSplit
  | kWaitForConsumer
  | kWaitForMemory.

#[global] Instance BlockingReason_eq_dec : EqDecision BlockingReason.
Proof. solve_decision. Defined.

(** Modelled from the spec: what one call of [MergeSource::next] finds; the
    producer has nothing yet and hands out a future, or a batch is ready.  A
    source whose events are used up is at its end and returns a null batch,
    not blocked. *)
Inductive SourceEvent :=
  | Blocked (f : Future)
  | Ready (data : RowVector).

(** The arguments of [MergeSource::createMergeExchangeSource]. *)
Record ExchangeParams := mkExchangeParams {
  exTaskId : string;
  exDestination : nat;
  exMaxQueuedBytes : Z;
  exPoolIndex : nat
}.

Record MergeSource := mkMergeSource {
  srcEvents : list SourceEvent;
  srcStarted : bool;
  srcClosed : bool;
  srcExchange : option ExchangeParams
}.

(** Modelled from the spec: the pull interface of a merge source, whose
    implementations are not part of Merge.cpp.  "next(&batch, &future) →
    {ready, blocked, end}; when blocked, the source stores a future".  The
    batch reference is reset when the call blocks. *)
Definition sourceNext (src : MergeSource)
    : MergeSource * BlockingReason * option RowVector * option Future :=
  match srcEvents src with
  | [] => (src, kNotBlocked, None, None)
  | Blocked f :: rest =>
      (mkMergeSource rest (srcStarted src) (srcClosed src) (srcExchange src),
       kWaitForProducer, None, Some f)
  | Ready d :: rest =>
      (mkMergeSource rest (srcStarted src) (srcClosed src) (srcExchange src),
       kNotBlocked, Some d, None)
  end.

Definition sourceStart (src : MergeSource) : MergeSource :=
  mkMergeSource (srcEvents src) true (srcClosed src) (srcExchange src).

Definition sourceClose (src : MergeSource) : MergeSource :=
  mkMergeSource (srcEvents src) (srcStarted src) true (srcExchange src).

(** ** The selection bitmap of a stream *)

(** Modelled from the spec: "a bitset over the active output batch, marking
    slots this source has produced".  The class [SelectivityVector] is part
    of the vector library: besides the bits it caches the range
    [begin_, end_) that holds the selected positions.  [setValid] writes one
    bit and leaves the range alone; [updateBounds] recomputes the range from
    the bits; [clearAll] clears the bits and empties the range;
    [hasSelections] and [applyToSelected] read the cached range. *)
Record SelectivityVector := mkSelectivityVector {
  bits_ : list bool;
  begin_ : nat;
  end_ : nat
}.

(** Modelled from the spec: the constructor call
    [SelectivityVector(size, false)]: no bit set, an empty range. *)
Definition newSelectivityVector (size : nat) : SelectivityVector :=
  mkSelectivityVector (replicate size false) 0 0.

(** Modelled from the spec: the position of the first and of the last set
    bit, counted from [i], as [bits::findFirstBit] and [bits::findLastBit]
    return them; [None] stands for -1. *)
Fixpoint findFirstBit (i : nat) (bits : list bool) : option nat :=
  match bits with
  | [] => None
  | b :: rest => if b then Some i else findFirstBit (S i) rest
  end.

Fixpoint findLastBit (i : nat) (bits : list bool) : option nat :=
  match bits with
  | [] => None
  | b :: rest =>
      match findLastBit (S i) rest with
      | Some j => Some j
      | None => if b then Some i else None
      end
  end.

(** Modelled from the spec: [SelectivityVector::updateBounds]: the range
    from the first set bit to one past the last, empty when no bit is
    set. *)
Definition updateBounds (rows : SelectivityVector) : SelectivityVector :=
  match findFirstBit 0 (bits_ rows), findLastBit 0 (bits_ rows) with
  | Some first, Some last => mkSelectivityVector (bits_ rows) first (S last)
  | _, _ => mkSelectivityVector (bits_ rows) 0 0
  end.

(** Modelled from the spec: [SelectivityVector::hasSelections],
    [begin_ < end_]. *)
Definition hasSelections (rows : SelectivityVector) : bool :=
  begin_ rows <? end_ rows.

(** Modelled from the spec: [SelectivityVector::setValid],
    [SelectivityVector::clearAll] and [SelectivityVector::isValid]. *)
Definition setValid (rows : SelectivityVector) (idx : nat) (valid : bool)
    : SelectivityVector :=
  mkSelectivityVector (<[idx := valid]> (bits_ rows)) (begin_ rows) (end_ rows).

Definition clearAll (rows : SelectivityVector) : SelectivityVector :=
  mkSelectivityVector (replicate (length (bits_ rows)) false) 0 0.

Definition isValid (rows : SelectivityVector) (idx : nat) : bool :=
  bits_ rows !!! idx.

(** Modelled from the spec: [SelectivityVector::applyToSelected]; the
    callback runs on every selected position of the cached range, in
    increasing order. *)
Fixpoint applyFrom {A} (i : nat) (bits : list bool)
    (f : nat → A → A) (acc : A) : A :=
  match bits with
  | [] => acc
  | b :: rest => applyFrom (S i) rest f (if b then f i acc else acc)
  end.

Definition applyToSelected {A} (rows : SelectivityVector)
    (f : nat → A → A) (acc : A) : A :=
  applyFrom (begin_ rows)
    (take (end_ rows - begin_ rows) (drop (begin_ rows) (bits_ rows))) f acc.

(** Modelled from the spec: [BaseVector::copy(source, rows, toSourceRow)] of
    the vector library; every selected position of the target takes the
    value of the source at the mapped row. *)
Definition vectorCopy (target source : Column) (rows : SelectivityVector)
    (toSourceRow : list nat) : Column :=
  applyToSelected rows
    (λ row t, <[row := source !!! (toSourceRow !!! row)]> t) target.

(** ** Source streams *)

Record SourceStream := mkSourceStream {
  source_ : nat;
  needData_ : bool;
  atEnd_ : bool;
  data_ : option RowVector;
  currentSourceRow_ : nat;
  firstSourceRow_ : nat;
  keyColumns_ : list Column;
  outputRows_ : SelectivityVector;
  sourceRows_ : list nat
}.

(** Modelled from the spec: the constructor of [SourceStream], declared in
    Merge.h.  No batch yet, the next call should fetch, an empty selection
    over the slots of one output batch. *)
Definition newSourceStream (source outputBatchSize : nat) : SourceStream :=
  mkSourceStream source true false None 0 0 []
    (newSelectivityVector outputBatchSize) (replicate outputBatchSize 0).

(** Modelled from the spec: [SourceStream::hasData], declared in Merge.h.
    A stream takes part in the tournament until it is permanently drained. *)
Definition hasData (s : SourceStream) : bool := negb (atEnd_ s).

(** [SourceStream::operator<]: the loop over the sort keys, returning at the
    first key whose column comparison is not zero. *)
Fixpoint lessFrom (i : nat) (keys : list SortKey) (a b : SourceStream) : bool :=
  match keys with
  | [] => false
  | (_, compareFlags) :: rest =>
      let result :=
        columnCompare (keyColumns_ a !!! i) (keyColumns_ b !!! i)
          (currentSourceRow_ a) (currentSourceRow_ b) compareFlags in
      if negb (result =? 0)%Z then (result <? 0)%Z
      else lessFrom (S i) rest a b
  end.

Definition less (sortingKeys : list SortKey) (a b : SourceStream) : bool :=
  lessFrom 0 sortingKeys a b.

(** The state that the stream operations share: the sources owned by the
    operator and the operator's vector of blocking futures. *)
Abbreviation Shared := (list MergeSource * list Future)%type.

(** The key-column pointers of a loaded batch: [childAt(key.first)] for every
    sort key. *)
Definition loadKeyColumns (sortingKeys : list SortKey) (d : RowVector)
    : Result (list Column) :=
  match mapM (λ key : SortKey, rvChildren d !! key.1) sortingKeys with
  | Some keyColumns => Ok keyColumns
  | None => Fail OutOfRange
  end.

(** [SourceStream::fetchMoreData] *)
Definition fetchMoreData (sortingKeys : list SortKey) (sh : Shared)
    (s : SourceStream) : Result (Shared * SourceStream * bool) :=
  let '(sources, futures) := sh in
  match sources !! source_ s with
  | None => Fail NullPointer
  | Some src =>
      let '(src', reason, data, future) := sourceNext src in
      let sources' := <[source_ s := src']> sources in
      if decide (reason ≠ kNotBlocked) then
        Ok (sources', from_option (λ f, f :: futures) futures future,
            mkSourceStream (source_ s) true (atEnd_ s) data
              (currentSourceRow_ s) (firstSourceRow_ s) (keyColumns_ s)
              (outputRows_ s) (sourceRows_ s),
            true)
      else
        let atEnd :=
          match data with
          | None => true
          | Some d => bool_decide (rvSize d = 0)
          end in
        keyColumns ←
          match data with
          | Some d =>
              if atEnd then Ok (keyColumns_ s) else loadKeyColumns sortingKeys d
          | None => Ok (keyColumns_ s)
          end;
        Ok (sources', futures,
            mkSourceStream (source_ s) false atEnd data 0
              (firstSourceRow_ s) keyColumns (outputRows_ s) (sourceRows_ s),
            false)
  end.

(** Modelled from the spec: [SourceStream::isBlocked], declared in Merge.h.
    The flag [needData_] means "next call should fetch"; the result is
    whether the stream waits for its producer. *)
Definition streamIsBlocked (sortingKeys : list SortKey) (sh : Shared)
    (s : SourceStream) : Result (Shared * SourceStream * bool) :=
  if needData_ s then fetchMoreData sortingKeys sh s
  else Ok (sh, s, false).

(** [SourceStream::pop].  The check reads the range that the selection
    cached at its last [updateBounds] or [clearAll]; [pop] does not
    recompute it. *)
Definition pop (sortingKeys : list SortKey) (sh : Shared) (s : SourceStream)
    : Result (Shared * SourceStream * bool) :=
  let s1 :=
    mkSourceStream (source_ s) (needData_ s) (atEnd_ s) (data_ s)
      (S (currentSourceRow_ s)) (firstSourceRow_ s) (keyColumns_ s)
      (outputRows_ s) (sourceRows_ s) in
  match data_ s1 with
  | None => Fail NullPointer
  | Some d =>
      if bool_decide (currentSourceRow_ s1 = rvSize d) then
        if hasSelections (outputRows_ s1) then
          Fail (CheckFailed "!outputRows_.hasSelections()")
        else fetchMoreData sortingKeys sh s1
      else Ok (sh, s1, false)
  end.

(** Modelled from the spec: [SourceStream::setOutputRow], declared in
    Merge.h.  "marks slot in outputSelection; returns true iff currentRow is
    the last row of currentBatch".  A slot beyond the bitmap marks nothing. *)
Definition setOutputRow (s : SourceStream) (row : nat)
    : Result (SourceStream * bool) :=
  match data_ s with
  | None => Fail NullPointer
  | Some d =>
      Ok (mkSourceStream (source_ s) (needData_ s) (atEnd_ s) (data_ s)
            (currentSourceRow_ s) (firstSourceRow_ s) (keyColumns_ s)
            (setValid (outputRows_ s) row true) (sourceRows_ s),
          bool_decide (Z.of_nat (currentSourceRow_ s) = (Z.of_nat (rvSize d) - 1)%Z))
  end.

(** The copy loop of [copyToOutput] over the children of the output. *)
Definition copyChildren (output data : list Column) (rows : SelectivityVector)
    (sourceRows : list nat) : Result (list Column) :=
  if decide (length output ≤ length data) then
    Ok (zip_with (λ o d, vectorCopy o d rows sourceRows) output data)
  else Fail OutOfRange.

(** [SourceStream::copyToOutput] *)
Definition copyToOutput (output : option RowVector) (s : SourceStream)
    : Result (option RowVector * SourceStream) :=
  let outputRows := updateBounds (outputRows_ s) in
  if negb (hasSelections outputRows) then
    Ok (output,
        mkSourceStream (source_ s) (needData_ s) (atEnd_ s) (data_ s)
          (currentSourceRow_ s) (firstSourceRow_ s) (keyColumns_ s)
          outputRows (sourceRows_ s))
  else
    let '(sourceRows, sourceRow) :=
      applyToSelected outputRows
        (λ row '(rows, sourceRow), (<[row := sourceRow]> rows, S sourceRow))
        (sourceRows_ s, firstSourceRow_ s) in
    match output, data_ s with
    | Some out, Some d =>
        children ← copyChildren (rvChildren out) (rvChildren d)
                     outputRows sourceRows;
        Ok (Some (mkRowVector (rvSize out) children),
            mkSourceStream (source_ s) (needData_ s) (atEnd_ s) (data_ s)
              (currentSourceRow_ s)
              (if bool_decide (sourceRow = rvSize d) then 0 else sourceRow)
              (keyColumns_ s) (clearAll outputRows) sourceRows)
    | _, _ => Fail NullPointer
    end.

(** ** The tournament *)

(** Modelled from the spec: the tree of losers, which is not part of
    Merge.cpp.  "next() → stream* returning the smallest current stream or
    null when all streams are exhausted."  The cursors are named by their
    position in [streams_]; among equal streams the earliest one wins, as the
    result only changes on a strict "less". *)
Record TreeOfLosers := mkTreeOfLosers {
  treeStreams : list nat
}.

Definition treeStep (sortingKeys : list SortKey) (streams : list SourceStream)
    (best : option nat) (i : nat) : option nat :=
  match streams !! i with
  | None => best
  | Some s =>
      if hasData s then
        match best with
        | None => Some i
        | Some j =>
            match streams !! j with
            | Some t => if less sortingKeys s t then Some i else Some j
            | None => Some i
            end
        end
      else best
  end.

Definition treeNext (sortingKeys : list SortKey) (tree : TreeOfLosers)
    (streams : list SourceStream) : option nat :=
  foldl (treeStep sortingKeys streams) None (treeStreams tree).

(** ** The merge operator *)

Inductive MergeKind := LocalMerge | MergeExchange.

(** What is fixed at construction: the driver context, the output type, the
    sort keys and the query configuration. *)
Record MergeConfig := mkMergeConfig {
  mergeKind : MergeKind;
  driverId : nat;
  outputBatchSize_ : nat;
  numColumns : nat;
  sortingKeys_ : list SortKey;
  maxMergeExchangeBufferSize : Z;
  kMaxQueuedBytesLowerLimit : Z;
  kMaxQueuedBytesUpperLimit : Z;
  destination : nat
}.

Record Merge := mkMerge {
  sources_ : list MergeSource;
  numStartedSources_ : nat;
  streams_ : list SourceStream;
  treeOfLosers_ : option TreeOfLosers;
  output_ : option RowVector;
  outputSize_ : nat;
  sourceBlockingFutures_ : list Future;
  finished_ : bool;
  noMoreSplits_ : bool;
  remoteSourceTaskIds_ : list string
}.

Definition newMerge : Merge :=
  mkMerge [] 0 [] None None 0 [] false false [].

(** Setters for the fields that the operator assigns. *)
Definition withSources (srcs : list MergeSource) (m : Merge) : Merge :=
  mkMerge srcs (numStartedSources_ m) (streams_ m) (treeOfLosers_ m)
    (output_ m) (outputSize_ m) (sourceBlockingFutures_ m) (finished_ m)
    (noMoreSplits_ m) (remoteSourceTaskIds_ m).

Definition withNumStarted (n : nat) (m : Merge) : Merge :=
  mkMerge (sources_ m) n (streams_ m) (treeOfLosers_ m)
    (output_ m) (outputSize_ m) (sourceBlockingFutures_ m) (finished_ m)
    (noMoreSplits_ m) (remoteSourceTaskIds_ m).

Definition withStreams (ss : list SourceStream) (m : Merge) : Merge :=
  mkMerge (sources_ m) (numStartedSources_ m) ss (treeOfLosers_ m)
    (output_ m) (outputSize_ m) (sourceBlockingFutures_ m) (finished_ m)
    (noMoreSplits_ m) (remoteSourceTaskIds_ m).

Definition withTree (t : option TreeOfLosers) (m : Merge) : Merge :=
  mkMerge (sources_ m) (numStartedSources_ m) (streams_ m) t
    (output_ m) (outputSize_ m) (sourceBlockingFutures_ m) (finished_ m)
    (noMoreSplits_ m) (remoteSourceTaskIds_ m).

Definition withOutput (o : option RowVector) (m : Merge) : Merge :=
  mkMerge (sources_ m) (numStartedSources_ m) (streams_ m) (treeOfLosers_ m)
    o (outputSize_ m) (sourceBlockingFutures_ m) (finished_ m)
    (noMoreSplits_ m) (remoteSourceTaskIds_ m).

Definition withOutputSize (n : nat) (m : Merge) : Merge :=
  mkMerge (sources_ m) (numStartedSources_ m) (streams_ m) (treeOfLosers_ m)
    (output_ m) n (sourceBlockingFutures_ m) (finished_ m)
    (noMoreSplits_ m) (remoteSourceTaskIds_ m).

Definition withFutures (fs : list Future) (m : Merge) : Merge :=
  mkMerge (sources_ m) (numStartedSources_ m) (streams_ m) (treeOfLosers_ m)
    (output_ m) (outputSize_ m) fs (finished_ m)
    (noMoreSplits_ m) (remoteSourceTaskIds_ m).

Definition withFinished (b : bool) (m : Merge) : Merge :=
  mkMerge (sources_ m) (numStartedSources_ m) (streams_ m) (treeOfLosers_ m)
    (output_ m) (outputSize_ m) (sourceBlockingFutures_ m) b
    (noMoreSplits_ m) (remoteSourceTaskIds_ m).

Definition withNoMoreSplits (b : bool) (m : Merge) : Merge :=
  mkMerge (sources_ m) (numStartedSources_ m) (streams_ m) (treeOfLosers_ m)
    (output_ m) (outputSize_ m) (sourceBlockingFutures_ m) (finished_ m)
    b (remoteSourceTaskIds_ m).

Definition withRemoteTaskIds (ids : list string) (m : Merge) : Merge :=
  mkMerge (sources_ m) (numStartedSources_ m) (streams_ m) (treeOfLosers_ m)
    (output_ m) (outputSize_ m) (sourceBlockingFutures_ m) (finished_ m)
    (noMoreSplits_ m) ids.

Definition withShared (sh : Shared) (m : Merge) : Merge :=
  withFutures sh.2 (withSources sh.1 m).

Definition shared (m : Merge) : Shared :=
  (sources_ m, sourceBlockingFutures_ m).

(** ** The task: where sources and splits come from *)

Inductive ConnectorSplit :=
  | RemoteConnectorSplit (taskId : string)
  | OtherConnectorSplit.

Record Split := mkSplit {
  connectorSplit : option ConnectorSplit
}.

(** Modelled from the spec: what one call of [Task::getSplitOrFuture] finds.
    A queue that is used up stands for "no more splits": the call returns a
    split without a connector split. *)
Inductive SplitEvent :=
  | SplitBlocked (f : Future)
  | SplitReady (split : Split).

Record Task := mkTask {
  localMergeSources : list MergeSource;
  splitQueue : list SplitEvent;
  remoteEvents : string → list SourceEvent;
  mergeSourcePools : list nat;
  splitsFinished : nat
}.

Definition withSplitQueue (q : list SplitEvent) (t : Task) : Task :=
  mkTask (localMergeSources t) q (remoteEvents t) (mergeSourcePools t)
    (splitsFinished t).

(** ** Construction *)

(** The channel that [exprToChannel] gives to a constant expression. *)
Definition kConstantChannel : N := 4294967295%N.

Record DriverCtx := mkDriverCtx {
  ctxDriverId : nat;
  ctxOutputBatchRows : nat;
  ctxMaxMergeExchangeBufferSize : Z;
  ctxMaxQueuedBytesLowerLimit : Z;
  ctxMaxQueuedBytesUpperLimit : Z;
  ctxDestination : nat
}.

(** A merge plan node: the width of its output type, and the channels that
    [exprToChannel] resolves its sorting keys to, with their orders. *)
Record MergeNode := mkMergeNode {
  nodeNumColumns : nat;
  nodeSortingKeys : list N;
  nodeSortingOrders : list SortOrder
}.

(** The loop of [Merge::Merge] over the sorting keys. *)
Fixpoint makeSortingKeys (i : nat) (sortingKeys : list N)
    (sortingOrders : list SortOrder) : Result (list SortKey) :=
  match sortingKeys with
  | [] => Ok []
  | channel :: rest =>
      if decide (channel = kConstantChannel) then
        Fail (CheckFailed "Merge doesn't allow constant grouping keys")
      else
        match sortingOrders !! i with
        | None => Fail OutOfRange
        | Some order =>
            keys ← makeSortingKeys (S i) rest sortingOrders;
            Ok ((N.to_nat channel,
                 mkCompareFlags (isNullsFirst order) (isAscending order) false)
                :: keys)
        end
  end.

(** [Merge::Merge] *)
Definition constructMerge (kind : MergeKind) (ctx : DriverCtx)
    (node : MergeNode) : Result (MergeConfig * Merge) :=
  keys ← makeSortingKeys 0 (nodeSortingKeys node) (nodeSortingOrders node);
  Ok (mkMergeConfig kind (ctxDriverId ctx) (ctxOutputBatchRows ctx)
        (nodeNumColumns node) keys (ctxMaxMergeExchangeBufferSize ctx)
        (ctxMaxQueuedBytesLowerLimit ctx) (ctxMaxQueuedBytesUpperLimit ctx)
        (ctxDestination ctx),
      newMerge).

(** [LocalMerge::LocalMerge] *)
Definition constructLocalMerge (ctx : DriverCtx) (node : MergeNode)
    : Result (MergeConfig * Merge) :=
  op ← constructMerge LocalMerge ctx node;
  if decide (driverId op.1 = 0) then Ok op
  else Fail (CheckFailed "LocalMerge needs to run single-threaded").

(** [MergeExchange::MergeExchange] *)
Definition constructMergeExchange (ctx : DriverCtx) (node : MergeNode)
    : Result (MergeConfig * Merge) :=
  constructMerge MergeExchange ctx node.

(** ** Installing the sources *)

(** [LocalMerge::addMergeSources] *)
Definition addLocalMergeSources (m : Merge) (task : Task)
    : Result (Merge * Task * BlockingReason * option Future) :=
  let m1 :=
    if bool_decide (sources_ m = []) then withSources (localMergeSources task) m
    else m in
  Ok (m1, task, kNotBlocked, None).

(** The conversion of a 64-bit unsigned value to [int64_t]. *)
Definition toInt64 (z : Z) : Z :=
  ((z + 2 ^ 63) `mod` 2 ^ 64 - 2 ^ 63)%Z.

Definition maxQueuedBytesPerSource (cfg : MergeConfig) (numSources : nat) : Z :=
  Z.min
    (Z.max (toInt64 (maxMergeExchangeBufferSize cfg `div` Z.of_nat numSources))
       (kMaxQueuedBytesLowerLimit cfg))
    (kMaxQueuedBytesUpperLimit cfg).

(** The tail of [MergeExchange::addMergeSources], once a split without a
    connector split has arrived. *)
Definition finishSplits (cfg : MergeConfig) (m : Merge) (task : Task)
    : Merge * Task :=
  let ids := remoteSourceTaskIds_ m in
  let m1 := withNoMoreSplits true m in
  let budget := maxQueuedBytesPerSource cfg (length ids) in
  let created :=
    imap (λ remoteSourceIndex taskId,
            mkMergeSource (remoteEvents task taskId) false false
              (Some (mkExchangeParams taskId (destination cfg) budget
                       remoteSourceIndex))) ids in
  let m2 :=
    if bool_decide (ids = []) then m1
    else withSources (sources_ m1 ++ created) m1 in
  let pools :=
    if bool_decide (ids = []) then mergeSourcePools task
    else mergeSourcePools task ++ seq 0 (length ids) in
  (m2,
   mkTask (localMergeSources task) (splitQueue task) (remoteEvents task)
     pools (splitsFinished task + length ids)).

(** The loop of [MergeExchange::addMergeSources] over the splits that
    [Task::getSplitOrFuture] hands out; every round takes one split. *)
Fixpoint exchangeSplitLoop (cfg : MergeConfig) (queue : list SplitEvent)
    (m : Merge) (task : Task)
    : Result (Merge * Task * BlockingReason * option Future) :=
  match queue with
  | [] =>
      let '(m1, task1) := finishSplits cfg m (withSplitQueue [] task) in
      Ok (m1, task1, kNotBlocked, None)
  | SplitBlocked f :: rest =>
      Ok (m, withSplitQueue rest task, kWaitForSplit, Some f)
  | SplitReady split :: rest =>
      match connectorSplit split with
      | Some (RemoteConnectorSplit taskId) =>
          exchangeSplitLoop cfg rest
            (withRemoteTaskIds (remoteSourceTaskIds_ m ++ [taskId]) m) task
      | Some OtherConnectorSplit => Fail (CheckFailed "Wrong type of split")
      | None =>
          let '(m1, task1) := finishSplits cfg m (withSplitQueue rest task) in
          Ok (m1, task1, kNotBlocked, None)
      end
  end.

(** [MergeExchange::addMergeSources] *)
Definition addMergeExchangeSources (cfg : MergeConfig) (m : Merge) (task : Task)
    : Result (Merge * Task * BlockingReason * option Future) :=
  if negb (bool_decide (driverId cfg = 0)) then Ok (m, task, kNotBlocked, None)
  else if noMoreSplits_ m then Ok (m, task, kNotBlocked, None)
  else exchangeSplitLoop cfg (splitQueue task) m task.

Definition addMergeSources (cfg : MergeConfig) (m : Merge) (task : Task)
    : Result (Merge * Task * BlockingReason * option Future) :=
  match mergeKind cfg with
  | LocalMerge => addLocalMergeSources m task
  | MergeExchange => addMergeExchangeSources cfg m task
  end.

(** ** The operator entry points *)

(** [Merge::initializeTreeOfLosers] *)
Definition initializeTreeOfLosers (cfg : MergeConfig) (m : Merge) : Merge :=
  let sourceCursors :=
    imap (λ i _, newSourceStream i (outputBatchSize_ cfg)) (sources_ m) in
  withTree (Some (mkTreeOfLosers (seq (length (streams_ m)) (length sourceCursors))))
    (withStreams (streams_ m ++ sourceCursors) m).

(** [Merge::startSources] *)
Definition startSources (m : Merge) : Result Merge :=
  if negb (bool_decide (numStartedSources_ m ≤ length (sources_ m))) then
    Fail (CheckFailed "numStartedSources_ <= sources_.size()")
  else if bool_decide (length (sources_ m) ≤ numStartedSources_ m) then Ok m
  else if negb (bool_decide (numStartedSources_ m = 0)) then
    Fail (CheckFailed "numStartedSources_ == 0")
  else if negb (bool_decide (streams_ m = [])) then
    Fail (CheckFailed "streams_.empty()")
  else if negb (bool_decide (sourceBlockingFutures_ m = [])) then
    Fail (CheckFailed "sourceBlockingFutures_.empty()")
  else
    Ok (withNumStarted (length (sources_ m))
          (withSources (sourceStart <$> sources_ m) m)).

(** The loop of [Merge::isBlocked] that asks every cursor whether it is
    blocked. *)
Fixpoint pollStreams (sortingKeys : list SortKey) (sh : Shared)
    (cursors : list SourceStream) : Result (Shared * list SourceStream) :=
  match cursors with
  | [] => Ok (sh, [])
  | cursor :: rest =>
      '(sh1, cursor1, _) ← streamIsBlocked sortingKeys sh cursor;
      '(sh2, rest1) ← pollStreams sortingKeys sh1 rest;
      Ok (sh2, cursor1 :: rest1)
  end.

(** The end of [Merge::isBlocked]: ask the cursors when no future is
    pending, then hand out the last pending future, if any. *)
Definition reportBlocked (cfg : MergeConfig) (m : Merge)
    : Result (Merge * BlockingReason * option Future) :=
  m1 ←
    (if bool_decide (sourceBlockingFutures_ m = []) then
       '(sh, cursors) ← pollStreams (sortingKeys_ cfg) (shared m) (streams_ m);
       Ok (withShared sh (withStreams cursors m))
     else Ok m);
  match sourceBlockingFutures_ m1 with
  | [] => Ok (m1, kNotBlocked, None)
  | f :: rest => Ok (withFutures rest m1, kWaitForProducer, Some f)
  end.

(** [Merge::isBlocked] *)
Definition isBlocked (cfg : MergeConfig) (m : Merge) (task : Task)
    : Result (Merge * Task * BlockingReason * option Future) :=
  '(m1, task1, reason, future) ← addMergeSources cfg m task;
  if decide (reason ≠ kNotBlocked) then Ok (m1, task1, reason, future)
  else if bool_decide (sources_ m1 = []) then
    Ok (withFinished true m1, task1, kNotBlocked, None)
  else
    m2 ← startSources m1;
    let m3 :=
      if bool_decide (streams_ m2 = []) && bool_decide (1 < length (sources_ m2))
      then initializeTreeOfLosers cfg m2 else m2 in
    '(m4, reason, future) ← reportBlocked cfg m3;
    Ok (m4, task1, reason, future).

(** [Merge::isFinished] *)
Definition isFinished (m : Merge) : bool := finished_ m.

(** The loop of [Merge::getOutput] that copies out the data of all sources
    when the output batch is full. *)
Fixpoint copyAllToOutput (output : option RowVector) (cursors : list SourceStream)
    : Result (option RowVector * list SourceStream) :=
  match cursors with
  | [] => Ok (output, [])
  | s :: rest =>
      '(output1, s1) ← copyToOutput output s;
      '(output2, rest1) ← copyAllToOutput output1 rest;
      Ok (output2, s1 :: rest1)
  end.

Inductive LoopResult :=
  | Continue (m : Merge)
  | Return (m : Merge) (out : option RowVector).

(** One round of the [for (;;)] loop of [Merge::getOutput]. *)
Definition getOutputStep (cfg : MergeConfig) (m : Merge) : Result LoopResult :=
  match treeOfLosers_ m with
  | None => Fail NullPointer
  | Some tree =>
      match treeNext (sortingKeys_ cfg) tree (streams_ m) with
      | None =>
          let m1 := withFinished true m in
          if bool_decide (outputSize_ m1 = 0) then Ok (Return m1 None)
          else
            match output_ m1 with
            | None => Fail NullPointer
            | Some out =>
                Ok (Return (withOutput None m1)
                      (Some (rvResize (outputSize_ m1) out)))
            end
      | Some i =>
          match streams_ m !! i with
          | None => Fail NullPointer
          | Some stream =>
              '(stream1, atEndOfBatch) ← setOutputRow stream (outputSize_ m);
              '(output1, stream2) ←
                (if atEndOfBatch : bool then copyToOutput (output_ m) stream1
                 else Ok (output_ m, stream1));
              let outputSize := S (outputSize_ m) in
              '(sh, stream3, _) ← pop (sortingKeys_ cfg) (shared m) stream2;
              let m1 :=
                withShared sh
                  (withStreams (<[i := stream3]> (streams_ m))
                     (withOutputSize outputSize (withOutput output1 m))) in
              if bool_decide (outputSize = outputBatchSize_ cfg) then
                '(output2, cursors) ← copyAllToOutput output1 (streams_ m1);
                Ok (Return (withOutput None
                              (withOutputSize 0 (withStreams cursors m1)))
                      output2)
              else if negb (bool_decide (sourceBlockingFutures_ m1 = [])) then
                Ok (Return m1 None)
              else Ok (Continue m1)
          end
      end
  end.

Fixpoint getOutputLoop (cfg : MergeConfig) (fuel : nat) (m : Merge)
    : Result (Merge * option RowVector) :=
  match fuel with
  | 0 => Fail OutOfFuel
  | S fuel' =>
      r ← getOutputStep cfg m;
      match r with
      | Continue m1 => getOutputLoop cfg fuel' m1
      | Return m1 out => Ok (m1, out)
      end
  end.

(** The allocation of the output batch in [Merge::getOutput], when there is
    none. *)
Definition allocateOutput (cfg : MergeConfig) (m : Merge) : Merge :=
  match output_ m with
  | Some _ => m
  | None =>
      withOutput
        (Some (createRowVector (numColumns cfg) (outputBatchSize_ cfg))) m
  end.

(** The merging part of [Merge::getOutput]: allocate the output batch when
    there is none and run the loop.  Every round of the loop fills one slot
    and the loop returns when the batch is full, so it runs at most
    [outputBatchSize_ - outputSize_] rounds; a state with no slot left, which
    a positive batch size never reaches, is reported as [OutOfFuel]. *)
Definition mergeBatch (cfg : MergeConfig) (m : Merge)
    : Result (Merge * option RowVector) :=
  let m1 := allocateOutput cfg m in
  getOutputLoop cfg (outputBatchSize_ cfg - outputSize_ m1) m1.

(** [Merge::getOutput] *)
Definition getOutput (cfg : MergeConfig) (m : Merge)
    : Result (Merge * option RowVector) :=
  if finished_ m then Ok (m, None)
  else if negb (bool_decide (numStartedSources_ m = length (sources_ m))) then
    Fail (CheckFailed "numStartedSources_ == sources_.size()")
  else if bool_decide (length (sources_ m) = 1) then
    match sources_ m !! 0 with
    | None => Fail NullPointer
    | Some src =>
        let '(src1, reason, data, future) := sourceNext src in
        let m1 := withSources (<[0 := src1]> (sources_ m)) m in
        if decide (reason ≠ kNotBlocked) then
          Ok (withFutures
                (from_option (λ f, f :: sourceBlockingFutures_ m1)
                   (sourceBlockingFutures_ m1) future) m1,
              None)
        else Ok (withFinished (bool_decide (data = None)) m1, data)
    end
  else mergeBatch cfg m.

(** [Merge::close] *)
Definition close (m : Merge) : Merge :=
  withSources (sourceClose <$> sources_ m) m.

(** ** The driver *)

(** The entry points of an operator that the driver calls. *)
Record Operator := mkOperator {
  opIsBlocked : Merge → Task → Result (Merge * Task * BlockingReason * option Future);
  opGetOutput : Merge → Result (Merge * option RowVector);
  opIsFinished : Merge → bool
}.

Definition mergeOperator (cfg : MergeConfig) : Operator :=
  mkOperator (isBlocked cfg) (getOutput cfg) isFinished.

(** Modelled from the spec: the host that runs the operator, which is not
    part of Merge.cpp.  "One logical driver advances one pipeline step
    (isBlocked → getOutput → repeat) and yields to the scheduler whenever an
    operator returns a blocking future", until the operator is finished.
    The batches that [getOutput] returns are collected in order. *)
Fixpoint driveOperator (op : Operator) (fuel : nat) (m : Merge) (task : Task)
    (batches : list RowVector) : Result (list RowVector * Merge * Task) :=
  match fuel with
  | 0 => Fail OutOfFuel
  | S fuel' =>
      '(m1, task1, reason, _) ← opIsBlocked op m task;
      if decide (reason ≠ kNotBlocked) then
        driveOperator op fuel' m1 task1 batches
      else
        '(m2, out) ← opGetOutput op m1;
        let batches1 := batches ++ option_list out in
        if opIsFinished op m2 then Ok (batches1, m2, task1)
        else driveOperator op fuel' m2 task1 batches1
  end.

Definition drive (cfg : MergeConfig) (fuel : nat) (m : Merge) (task : Task)
    : Result (list RowVector * Merge * Task) :=
  driveOperator (mergeOperator cfg) fuel m task [].

(** * Specification-level definitions *)

(** ** The general path for any number of sources

    The merge as [Merge::isBlocked] and [Merge::getOutput] run it, without
    the shortcut for a single source: the tournament is built whatever the
    number of sources, and [getOutput] always merges. *)

Definition isBlockedGeneral (cfg : MergeConfig) (m : Merge) (task : Task)
    : Result (Merge * Task * BlockingReason * option Future) :=
  '(m1, task1, reason, future) ← addMergeSources cfg m task;
  if decide (reason ≠ kNotBlocked) then Ok (m1, task1, reason, future)
  else if bool_decide (sources_ m1 = []) then
    Ok (withFinished true m1, task1, kNotBlocked, None)
  else
    m2 ← startSources m1;
    let m3 :=
      if bool_decide (streams_ m2 = []) then initializeTreeOfLosers cfg m2
      else m2 in
    '(m4, reason, future) ← reportBlocked cfg m3;
    Ok (m4, task1, reason, future).

Definition getOutputGeneral (cfg : MergeConfig) (m : Merge)
    : Result (Merge * option RowVector) :=
  if finished_ m then Ok (m, None)
  else if negb (bool_decide (numStartedSources_ m = length (sources_ m))) then
    Fail (CheckFailed "numStartedSources_ == sources_.size()")
  else mergeBatch cfg m.

Definition generalOperator (cfg : MergeConfig) : Operator :=
  mkOperator (isBlockedGeneral cfg) (getOutputGeneral cfg) isFinished.

Definition driveGeneral (cfg : MergeConfig) (fuel : nat) (m : Merge)
    (task : Task) : Result (list RowVector * Merge * Task) :=
  driveOperator (generalOperator cfg) fuel m task [].

(** ** The merge of row sequences

    The k-way merge as a function on the row sequences of the inputs: the
    next row is the head of the input whose head is smallest, the earliest
    such input among equals. *)

Definition pickStep (keys : list SortKey) (rems : list (list Row))
    (best : option nat) (i : nat) : option nat :=
  match rems !! i with
  | Some (r :: _) =>
      match best with
      | None => Some i
      | Some j =>
          match rems !! j with
          | Some (t :: _) => if rowLess keys r t then Some i else Some j
          | _ => Some i
          end
      end
  | _ => best
  end.

Definition pickMin (keys : list SortKey) (rems : list (list Row)) : option nat :=
  foldl (pickStep keys rems) None (seq 0 (length rems)).

Fixpoint kWayMergeFuel (keys : list SortKey) (fuel : nat)
    (rems : list (list Row)) : list Row :=
  match fuel with
  | 0 => []
  | S fuel' =>
      match pickMin keys rems with
      | None => []
      | Some i =>
          match rems !! i with
          | Some (r :: rest) => r :: kWayMergeFuel keys fuel' (<[i := rest]> rems)
          | _ => []
          end
      end
  end.

Definition kWayMerge (keys : list SortKey) (rems : list (list Row)) : list Row :=
  kWayMergeFuel keys (length (concat rems)) rems.

(** What the running minimum of [pickMin] knows about the inputs seen so
    far: none of them has a row left, or the best one has the smallest head. *)
Definition pickGood (keys : list SortKey) (rems : list (list Row))
    (best : option nat) (seen : nat → Prop) : Prop :=
  match best with
  | None => ∀ j r rest, seen j → rems !! j ≠ Some (r :: rest)
  | Some b =>
      ∃ r rest, rems !! b = Some (r :: rest) ∧
        ∀ j r' rest', seen j → rems !! j = Some (r' :: rest') → rowLe keys r r'
  end.

(** ** Counting selected slots *)

Fixpoint countSel (rows : list bool) : nat :=
  match rows with
  | [] => 0
  | b :: rest => (if b then 1 else 0) + countSel rest
  end.

(** The number of selected slots below a slot. *)
Definition rank (rows : list bool) (j : nat) : nat :=
  countSel (take j rows).

(** The callbacks of [copyToOutput] and [vectorCopy], named. *)
Definition assignSourceRow (row : nat) (acc : list nat * nat) : list nat * nat :=
  let '(rows, sourceRow) := acc in (<[row := sourceRow]> rows, S sourceRow).

Definition copyValue (source : Column) (toSourceRow : list nat) (row : nat)
    (t : Column) : Column :=
  <[row := source !!! (toSourceRow !!! row)]> t.

(** ** Well-formed inputs *)

(** A batch that a source delivers: not empty, of the width of the output
    type, every child of the size of the batch. *)
Definition wfBatch (width : nat) (d : RowVector) : Prop :=
  rvSize d ≠ 0 ∧ length (rvChildren d) = width ∧
  Forall (λ c : Column, length c = rvSize d) (rvChildren d).

Definition wfEvent (width : nat) (ev : SourceEvent) : Prop :=
  match ev with
  | Ready d => wfBatch width d
  | Blocked _ => True
  end.

Definition wfSource (width : nat) (src : MergeSource) : Prop :=
  Forall (wfEvent width) (srcEvents src).

(** Key-compatible: every sort key names a column of the output type. *)
Definition keysInRange (cfg : MergeConfig) : Prop :=
  Forall (λ key : SortKey, key.1 < numColumns cfg) (sortingKeys_ cfg).

Definition eventRows (ev : SourceEvent) : list Row :=
  match ev with
  | Ready d => rowsOf d
  | Blocked _ => []
  end.

(** The rows that a source will still deliver. *)
Definition sourceRows (src : MergeSource) : list Row :=
  concat (eventRows <$> srcEvents src).

(** The batches that a source will still deliver. *)
Definition sourceBatches (src : MergeSource) : list RowVector :=
  omap (λ ev, match ev with Ready d => Some d | Blocked _ => None end)
    (srcEvents src).

(** ** The state of a stream between two calls *)

(** The rows of a stream that are not yet in the output: the rest of its
    batch, from the current row on, and what its source still delivers. *)
Definition remaining (sources : list MergeSource) (s : SourceStream) : list Row :=
  match atEnd_ s, needData_ s, data_ s with
  | false, false, Some d => drop (currentSourceRow_ s) (rowsOf d)
  | _, _, _ => []
  end ++ from_option sourceRows [] (sources !! source_ s).

(** The cached range of a selection is empty, as the constructor and
    [clearAll] leave it. *)
Definition rangeCleared (rows : SelectivityVector) : Prop :=
  begin_ rows = 0 ∧ end_ rows = 0.

(** A stream is loaded (on a row of a batch), waiting for its source, or
    drained.  [n] is the number of filled slots of the output batch. *)
Definition streamOk (cfg : MergeConfig) (sources : list MergeSource)
    (n i : nat) (s : SourceStream) : Prop :=
  source_ s = i ∧
  length (bits_ (outputRows_ s)) = outputBatchSize_ cfg ∧
  length (sourceRows_ s) = outputBatchSize_ cfg ∧
  (∀ j, bits_ (outputRows_ s) !! j = Some true → j < n) ∧
  rangeCleared (outputRows_ s) ∧
  match atEnd_ s, needData_ s with
  | false, false =>
      ∃ d, data_ s = Some d ∧ wfBatch (numColumns cfg) d ∧
        currentSourceRow_ s < rvSize d ∧
        firstSourceRow_ s ≤ currentSourceRow_ s ∧
        countSel (bits_ (outputRows_ s)) =
          currentSourceRow_ s - firstSourceRow_ s ∧
        loadKeyColumns (sortingKeys_ cfg) d = Ok (keyColumns_ s)
  | false, true => countSel (bits_ (outputRows_ s)) = 0 ∧ firstSourceRow_ s = 0
  | true, false =>
      countSel (bits_ (outputRows_ s)) = 0 ∧
      ∃ src, sources !! i = Some src ∧ srcEvents src = []
  | true, true => False
  end.

(** No slot of the output batch is marked by two streams. *)
Definition slotsDisjoint (streams : list SourceStream) : Prop :=
  ∀ i1 i2 s1 s2 j,
    streams !! i1 = Some s1 → streams !! i2 = Some s2 →
    bits_ (outputRows_ s1) !! j = Some true →
    bits_ (outputRows_ s2) !! j = Some true →
    i1 = i2.

(** The row that a filled slot stands for: still in the batch of the stream
    that marks the slot, or already copied into the output batch. *)
Definition slotHolds (streams : list SourceStream) (output : option RowVector)
    (j : nat) (r : Row) : Prop :=
  (∃ i s d, streams !! i = Some s ∧ bits_ (outputRows_ s) !! j = Some true ∧
     data_ s = Some d ∧
     r = rowAt d (firstSourceRow_ s + rank (bits_ (outputRows_ s)) j))
  ∨ ((∀ i s, streams !! i = Some s → bits_ (outputRows_ s) !! j ≠ Some true) ∧
     ∃ out, output = Some out ∧ r = rowAt out j).

Definition outputOk (cfg : MergeConfig) (out : RowVector) : Prop :=
  rvSize out = outputBatchSize_ cfg ∧
  length (rvChildren out) = numColumns cfg ∧
  Forall (λ c : Column, length c = outputBatchSize_ cfg) (rvChildren out).

(** The sources are installed: [addMergeSources] changes nothing any more. *)
Definition installed (cfg : MergeConfig) (m : Merge) : Prop :=
  match mergeKind cfg with
  | LocalMerge => sources_ m ≠ []
  | MergeExchange => driverId cfg ≠ 0 ∨ noMoreSplits_ m = true
  end.

(** The invariant of the merging operator between two calls.  [pending] are
    the rows of the filled slots of the output batch under construction. *)
Record MergeInv (cfg : MergeConfig) (m : Merge) (pending : list Row) : Prop := {
  inv_installed : installed cfg m;
  inv_tree : treeOfLosers_ m = Some (mkTreeOfLosers (seq 0 (length (streams_ m))));
  inv_streams : length (streams_ m) = length (sources_ m);
  inv_nonempty : sources_ m ≠ [];
  inv_started : numStartedSources_ m = length (sources_ m);
  inv_running : finished_ m = false;
  inv_size : outputSize_ m = length pending;
  inv_room : length pending ≤ outputBatchSize_ cfg;
  inv_stream : ∀ i s, streams_ m !! i = Some s →
    streamOk cfg (sources_ m) (length pending) i s;
  inv_sources : Forall (wfSource (numColumns cfg)) (sources_ m);
  inv_disjoint : slotsDisjoint (streams_ m);
  inv_slots : ∀ j r, pending !! j = Some r →
    slotHolds (streams_ m) (output_ m) j r;
  inv_output : ∀ out, output_ m = Some out → outputOk cfg out
}.

(** Every stream has fetched: the state in which the driver calls
    [getOutput]. *)
Definition allFetched (m : Merge) : Prop :=
  sourceBlockingFutures_ m = [] ∧
  ∀ i s, streams_ m !! i = Some s → needData_ s = false.

Definition remainders (m : Merge) : list (list Row) :=
  remaining (sources_ m) <$> streams_ m.

(** ** A measure that every step of the driver decreases *)

Definition eventWeight (ev : SourceEvent) : nat :=
  match ev with
  | Blocked _ => 2
  | Ready d => rvSize d + 2
  end.

Definition sourceWeight (src : MergeSource) : nat :=
  sum_list (eventWeight <$> srcEvents src).

Definition streamWeight (s : SourceStream) : nat :=
  match atEnd_ s, needData_ s, data_ s with
  | true, _, _ => 0
  | false, true, _ => 1
  | false, false, Some d => 1 + (rvSize d - currentSourceRow_ s)
  | false, false, None => 1
  end.

Definition sharedWeight (sh : Shared) : nat :=
  sum_list (sourceWeight <$> sh.1) + length sh.2.

Definition measure (m : Merge) : nat :=
  sharedWeight (shared m) + sum_list (streamWeight <$> streams_ m).

(** ** What a call of [getOutput] achieves

    Starting from a state where every stream has fetched, with [pending] in
    the slots: a full batch, a return without a batch because a stream waits
    for its source, or the end of the merge with the last, partial batch.
    [rows] are the rows that the call takes from the streams, which are the
    next rows of the merge of what remained. *)
Inductive Outcome (cfg : MergeConfig) (m : Merge) (pending : list Row)
    (m' : Merge) (out : option RowVector) : Prop :=
  | OutcomeFull rows o :
      out = Some o → outputOk cfg o → rowsOf o = pending ++ rows →
      MergeInv cfg m' [] → length (sources_ m') = length (sources_ m) →
      kWayMerge (sortingKeys_ cfg) (remainders m) =
        rows ++ kWayMerge (sortingKeys_ cfg) (remainders m') →
      measure m' < measure m →
      Outcome cfg m pending m' out
  | OutcomeBlocked rows :
      out = None → MergeInv cfg m' (pending ++ rows) →
      length (sources_ m') = length (sources_ m) →
      length (pending ++ rows) < outputBatchSize_ cfg →
      kWayMerge (sortingKeys_ cfg) (remainders m) =
        rows ++ kWayMerge (sortingKeys_ cfg) (remainders m') →
      measure m' < measure m →
      Outcome cfg m pending m' out
  | OutcomeDone rows :
      finished_ m' = true →
      kWayMerge (sortingKeys_ cfg) (remainders m) = rows →
      length (pending ++ rows) < outputBatchSize_ cfg →
      match out with
      | None => pending ++ rows = []
      | Some o =>
          rowsOf o = pending ++ rows ∧ rvSize o = length (pending ++ rows) ∧
          0 < rvSize o
      end →
      Outcome cfg m pending m' out.

(** A best stream of the tournament that still has data. *)
Definition validBest (streams : list SourceStream) (best : option nat) : Prop :=
  ∀ j, best = Some j → ∃ t, streams !! j = Some t ∧ atEnd_ t = false.

(** The operator once its sources are installed and started and the
    tournament is built over them. *)
Definition startedMerge (cfg : MergeConfig) (srcs : list MergeSource) : Merge :=
  initializeTreeOfLosers cfg
    (withNumStarted (length srcs)
       (withSources (sourceStart <$> srcs) newMerge)).

(** The batches of a run: none is empty or larger than the batch size, and
    all but the last are full. *)
Definition batchesOk (size : nat) (batches : list RowVector) : Prop :=
  Forall (λ o, 0 < rvSize o ≤ size) batches ∧
  ∀ i o, batches !! i = Some o → S i < length batches → rvSize o = size.

(** The rest of a step of the driver once [isBlocked] has answered "not
    blocked". *)
Definition driveAfter (op : Operator) (fuel : nat) (m1 : Merge) (task : Task)
    (batches : list RowVector) : Result (list RowVector * Merge * Task) :=
  '(m2, out) ← opGetOutput op m1;
  let batches1 := batches ++ option_list out in
  if opIsFinished op m2 then Ok (batches1, m2, task)
  else driveOperator op fuel m2 task batches1.

(** What a run of the driver achieves from a state of the merging operator
    with [pending] in the slots: it ends with the operator finished, and the
    batches hold the pending rows and then the merge of what remained. *)
Definition runGood (cfg : MergeConfig) (m : Merge) (pending : list Row)
    (more : list RowVector) (m' : Merge) : Prop :=
  finished_ m' = true ∧
  concat (rowsOf <$> more) =
    pending ++ kWayMerge (sortingKeys_ cfg) (remainders m) ∧
  batchesOk (outputBatchSize_ cfg) more.

(** ** The states that calls of the driver reach *)

Inductive Calls (cfg : MergeConfig) (m0 : Merge) : Merge → Prop :=
  | calls_none : Calls cfg m0 m0
  | calls_isBlocked m task m' task' reason future :
      Calls cfg m0 m →
      isBlocked cfg m task = Ok (m', task', reason, future) →
      Calls cfg m0 m'
  | calls_getOutput m m' out :
      Calls cfg m0 m → getOutput cfg m = Ok (m', out) → Calls cfg m0 m'.





(** Every stream marks slots below the slot counter only, and no slot is
    marked by two streams. *)
Definition slotsInv (cfg : MergeConfig) (m : Merge) : Prop :=
  slotsDisjoint (streams_ m) ∧
  ∀ i s, streams_ m !! i = Some s →
    length (bits_ (outputRows_ s)) = outputBatchSize_ cfg ∧
    (∀ j, bits_ (outputRows_ s) !! j = Some true → j < outputSize_ m) ∧
    rangeCleared (outputRows_ s).

(** The spec's words for the budget of an exchange source. *)
Definition clamp (x lowerLimit upperLimit : Z) : Z :=
  Z.min (Z.max x lowerLimit) upperLimit.

(** The state of the operator with a single source, between two calls. *)
Definition passthroughState (m : Merge) (src : MergeSource) : Prop :=
  sources_ m = [src] ∧ numStartedSources_ m = 1 ∧ streams_ m = [] ∧
  treeOfLosers_ m = None ∧ output_ m = None ∧ finished_ m = false.

(** The current row of a stream. *)
Definition currentRow (s : SourceStream) : Row :=
  match data_ s with
  | Some d => rowAt d (currentSourceRow_ s)
  | None => []
  end.

(** The stream is on a batch whose key columns it has loaded. *)
Definition streamLoaded (keys : list SortKey) (s : SourceStream) : Prop :=
  ∃ d, data_ s = Some d ∧ loadKeyColumns keys d = Ok (keyColumns_ s).

(** The stream after the increment of [pop]. *)
Definition advanced (s : SourceStream) : SourceStream :=
  mkSourceStream (source_ s) (needData_ s) (atEnd_ s) (data_ s)
    (S (currentSourceRow_ s)) (firstSourceRow_ s) (keyColumns_ s)
    (outputRows_ s) (sourceRows_ s).

(** The selection of the stream is as a call of [copyToOutput] left it. *)
Definition flushed (s : SourceStream) : Prop :=
  ∃ output s0 output' s1,
    copyToOutput output s0 = Ok (output', s1) ∧ outputRows_ s = outputRows_ s1.

(** The producer of a stream answers "blocked" to the next call. *)
Definition producerBlocks (sh : Shared) (s : SourceStream) : Prop :=
  ∃ src f rest, sh.1 !! source_ s = Some src ∧ srcEvents src = Blocked f :: rest.

(** The same cursor over another source. *)
Definition withSource (i : nat) (s : SourceStream) : SourceStream :=
  mkSourceStream i (needData_ s) (atEnd_ s) (data_ s) (currentSourceRow_ s)
    (firstSourceRow_ s) (keyColumns_ s) (outputRows_ s) (sourceRows_ s).

(** ** Concrete inputs used to witness the theorems *)

Definition intColumn (l : list Z) : RowVector :=
  mkRowVector (length l) [Some <$> l].

Definition localSource (batches : list (list Z)) : MergeSource :=
  mkMergeSource ((λ b, Ready (intColumn b)) <$> batches) false false None.

Definition exampleCtx (driver batchRows : nat) : DriverCtx :=
  mkDriverCtx driver batchRows 134217728 1048576 33554432 0.

Definition exampleNode : MergeNode :=
  mkMergeNode 1 [0%N] [mkSortOrder true true].

Definition exampleKeys : list SortKey := [(0, mkCompareFlags true true false)].

Definition exampleConfig (kind : MergeKind) (driver batchRows : nat) : MergeConfig :=
  mkMergeConfig kind driver batchRows 1 exampleKeys 134217728 1048576 33554432 0.

Definition exampleTask (srcs : list MergeSource) : Task :=
  mkTask srcs [] (λ _, []) [] 0.

Definition threeSources : list MergeSource :=
  [localSource [[1; 4; 7]%Z]; localSource [[2; 5; 8]%Z];
   localSource [[3; 6; 9]%Z]].

Definition exampleStream (l : list Z) (row : nat) : SourceStream :=
  mkSourceStream 0 false false (Some (intColumn l)) row 0 [Some <$> l]
    (newSelectivityVector 4) (replicate 4 0).

(** Two states that agree on everything but the sources, the splits and the
    futures. *)
Definition sameMerging (m m' : Merge) : Prop :=
  streams_ m' = streams_ m ∧ treeOfLosers_ m' = treeOfLosers_ m ∧
  output_ m' = output_ m ∧ outputSize_ m' = outputSize_ m ∧
  finished_ m' = finished_ m.

(** [slotsInv] on the selections alone: [size] is the batch size, [n] the
    slot counter. *)
Definition bitsInv (size n : nat) (selections : list SelectivityVector)
    : Prop :=
  (∀ i1 i2 b1 b2 j,
     selections !! i1 = Some b1 → selections !! i2 = Some b2 →
     bits_ b1 !! j = Some true → bits_ b2 !! j = Some true → i1 = i2) ∧
  ∀ i b, selections !! i = Some b →
    length (bits_ b) = size ∧ (∀ j, bits_ b !! j = Some true → j < n) ∧
    rangeCleared b.

(** [n] calls of [getOutput] in a row, with what each returned. *)
Fixpoint getOutputTimes (cfg : MergeConfig) (n : nat) (m : Merge)
    : Result (Merge * list (option RowVector)) :=
  match n with
  | 0 => Ok (m, [])
  | S n' =>
      '(m1, out) ← getOutput cfg m;
      '(m2, outs) ← getOutputTimes cfg n' m1;
      Ok (m2, out :: outs)
  end.

(** The share of the exchange buffer of one of the remote sources of [m]. *)
Definition perSourceShare (cfg : MergeConfig) (m : Merge) : Z :=
  (maxMergeExchangeBufferSize cfg `div`
     Z.of_nat (length (remoteSourceTaskIds_ m)))%Z.

(** The state of the example operator after the first call of [isBlocked]. *)
Definition exampleStarted : Merge :=
  match
    isBlocked (exampleConfig LocalMerge 0 4) newMerge (exampleTask threeSources)
  with
  | Ok (m, _, _, _) => m
  | Fail _ => newMerge
  end.

(** A task whose split queue names two remote tasks. *)
Definition exchangeTask : Task :=
  mkTask []
    [SplitReady (mkSplit (Some (RemoteConnectorSplit "t0")));
     SplitReady (mkSplit (Some (RemoteConnectorSplit "t1")));
     SplitReady (mkSplit None)]
    (λ _, []) [] 0.

(** ** Further inputs and notions for the properties of the code *)

(** A split that names a remote task. *)
Definition remoteSplit (taskId : string) : SplitEvent :=
  SplitReady (mkSplit (Some (RemoteConnectorSplit taskId))).

(** An exchange whose buffer size is 2^63, over one remote task. *)
Definition hugeBufferConfig : MergeConfig :=
  mkMergeConfig MergeExchange 0 4 1 exampleKeys (2 ^ 63) 1048576 33554432 0.

Definition oneRemoteTask : Task :=
  mkTask [] [remoteSplit "t0"; SplitReady (mkSplit None)] (λ _, []) [] 0.

(** A stream on the last row of its batch that has given its two rows to the
    slots 1 and 2, and the output batch of the examples. *)
Definition markedStream : SourceStream :=
  mkSourceStream 0 false false (Some (intColumn [1; 4]%Z)) 1 0
    [[Some 1%Z; Some 4%Z]]
    (mkSelectivityVector [false; true; true; false] 0 0) (replicate 4 0).

(** A plan node whose second sorting key is a constant expression. *)
Definition constantKeyNode : MergeNode :=
  mkMergeNode 2 [0%N; kConstantChannel]
    [mkSortOrder true true; mkSortOrder false true].

(** The compare flags that the constructor makes of a sort order. *)
Definition orderFlags (order : SortOrder) : CompareFlags :=
  mkCompareFlags (isNullsFirst order) (isAscending order) false.

(** The output batch is allocated and its size satisfies [Q]. *)
Definition outputReady (Q : nat → Prop) (m : Merge) : Prop :=
  ∃ out, output_ m = Some out ∧ Q (rvSize out).

(** The output batch, when there is one, has the given size. *)
Definition outputSized (size : nat) (m : Merge) : Prop :=
  ∀ out, output_ m = Some out → rvSize out = size.

(** A source that blocks once before it delivers a batch, and the operator
    over it alone, started. *)
Definition blockingSource : MergeSource :=
  mkMergeSource [Blocked 3; Ready (intColumn [1; 2]%Z)] true false None.

Definition singleBlocking : Merge :=
  withNumStarted 1 (withSources [blockingSource] newMerge).

(** ** The run of a merge exchange *)

(** The splits that a task hands out while the operator still waits for
    more: for every segment, the splits of some remote tasks, then a wait. *)
Definition waitingSplits (segments : list (list string * Future))
    : list SplitEvent :=
  concat ((λ segment : list string * Future,
             (remoteSplit <$> segment.1) ++ [SplitBlocked segment.2])
            <$> segments).

(** The sources that a merge exchange creates for its remote task ids. *)
Definition exchangeSources (cfg : MergeConfig) (task : Task)
    (ids : list string) : list MergeSource :=
  imap (λ remoteSourceIndex taskId,
          mkMergeSource (remoteEvents task taskId) false false
            (Some (mkExchangeParams taskId (destination cfg)
                     (maxQueuedBytesPerSource cfg (length ids))
                     remoteSourceIndex))) ids.

(** The merge exchange once its sources are installed and started and the
    tournament is built over them. *)
Definition exchangeStarted (cfg : MergeConfig) (task : Task)
    (ids : list string) : Merge :=
  initializeTreeOfLosers cfg
    (mkMerge (sourceStart <$> exchangeSources cfg task ids)
       (length (exchangeSources cfg task ids)) [] None None 0 [] false true ids).

(** The task once the operator has taken its last split and created [n]
    sources. *)
Definition taskAfterSplits (task : Task) (rest : list SplitEvent) (n : nat)
    : Task :=
  mkTask (localMergeSources task) rest (remoteEvents task)
    (mergeSourcePools task ++ seq 0 n) (splitsFinished task + n).

(** The rows that the exchange of a remote task delivers. *)
Definition remoteRows (task : Task) (taskId : string) : list Row :=
  concat (eventRows <$> remoteEvents task taskId).

(** The operator before its sources are installed, with the remote task ids
    collected so far. *)
Definition collecting (ids : list string) : Merge :=
  mkMerge [] 0 [] None None 0 [] false false ids.

(** A task of a merge exchange with two remote tasks, the second announced
    after a wait, whose exchanges deliver sorted batches. *)
Definition exchangeEvents (taskId : string) : list SourceEvent :=
  if String.eqb taskId "t0" then [Ready (intColumn [1; 4]%Z)]
  else [Blocked 9; Ready (intColumn [2; 3]%Z)].

Definition mergingTask : Task :=
  mkTask []
    [remoteSplit "t0"; SplitBlocked 7; remoteSplit "t1";
     SplitReady (mkSplit None)]
    exchangeEvents [] 0.

(** * Proofs *)

(** * Properties of the embedding *)

(** ** The order of rows *)

Ltac zcases :=
  repeat match goal with
  | |- context [(?x <? ?y)%Z] => destruct (Z.ltb_spec x y)
  | |- context [(?x =? ?y)%Z] => destruct (Z.eqb_spec x y)
  | H : context [(?x <? ?y)%Z] |- _ => destruct (Z.ltb_spec x y)
  | H : context [(?x =? ?y)%Z] |- _ => destruct (Z.eqb_spec x y)
  end.

Ltac cv_solve :=
  unfold compareValue, threeWay in *;
  repeat match goal with
  | v : Value |- _ => destruct v
  | f : CompareFlags |- _ => destruct f as [[] [] ?]
  end; simpl in *; zcases; lia.

Lemma compareValue_antisym f a b :
  compareValue f b a = (- compareValue f a b)%Z.
Proof. cv_solve. Qed.

Lemma compareValue_refl f a : compareValue f a a = 0%Z.
Proof. cv_solve. Qed.

Lemma compareValue_eq_l f a b c :
  compareValue f a b = 0%Z → compareValue f a c = compareValue f b c.
Proof. cv_solve. Qed.

Lemma compareValue_eq_r f a b c :
  compareValue f b c = 0%Z → compareValue f a c = compareValue f a b.
Proof. cv_solve. Qed.

Lemma compareValue_lt_trans f a b c :
  (compareValue f a b < 0)%Z → (compareValue f b c < 0)%Z →
  (compareValue f a c < 0)%Z.
Proof. cv_solve. Qed.

Lemma rowCompare_antisym keys a b :
  rowCompare keys b a = (- rowCompare keys a b)%Z.
Proof.
  induction keys as [|[c f] keys IH]; simpl; [done|].
  rewrite (compareValue_antisym f (a !!! c) (b !!! c)).
  destruct (Z.eqb_spec (compareValue f (a !!! c) (b !!! c)) 0) as [->|Hne];
    simpl; [done|].
  destruct (Z.eqb_spec (- compareValue f (a !!! c) (b !!! c)) 0); [lia|done].
Qed.

Lemma rowCompare_refl keys a : rowCompare keys a a = 0%Z.
Proof.
  induction keys as [|[c f] keys IH]; simpl; [done|].
  by rewrite compareValue_refl.
Qed.

Lemma rowCompare_trans keys a b c :
  (rowCompare keys a b ≤ 0)%Z → (rowCompare keys b c ≤ 0)%Z →
  (rowCompare keys a c ≤ 0)%Z.
Proof.
  induction keys as [|[ch f] keys IH]; simpl; [done|].
  set (x := a !!! ch). set (y := b !!! ch). set (z := c !!! ch).
  destruct (Z.eqb_spec (compareValue f x y) 0) as [Hxy|Hxy].
  - rewrite (compareValue_eq_l f x y z Hxy).
    destruct (Z.eqb_spec (compareValue f y z) 0); auto.
  - destruct (Z.eqb_spec (compareValue f y z) 0) as [Hyz|Hyz].
    + rewrite (compareValue_eq_r f x y z Hyz).
      destruct (Z.eqb_spec (compareValue f x y) 0); [done|]. by intros.
    + intros H1 H2.
      assert (compareValue f x z < 0)%Z
        by (apply (compareValue_lt_trans f x y z); lia).
      destruct (Z.eqb_spec (compareValue f x z) 0); lia.
Qed.

Lemma rowLe_refl keys a : rowLe keys a a.
Proof. unfold rowLe, rowLess. rewrite rowCompare_refl. done. Qed.

Lemma rowLe_trans keys a b c : rowLe keys a b → rowLe keys b c → rowLe keys a c.
Proof.
  unfold rowLe, rowLess. intros H1%Z.ltb_ge H2%Z.ltb_ge. apply Z.ltb_ge.
  rewrite (rowCompare_antisym keys a b) in H1.
  rewrite (rowCompare_antisym keys b c) in H2.
  rewrite (rowCompare_antisym keys a c).
  pose proof (rowCompare_trans keys a b c). lia.
Qed.

Lemma rowLe_total keys a b : rowLe keys a b ∨ rowLe keys b a.
Proof.
  unfold rowLe, rowLess. rewrite (rowCompare_antisym keys a b).
  destruct (Z.ltb_spec (- rowCompare keys a b) 0);
    destruct (Z.ltb_spec (rowCompare keys a b) 0); auto; lia.
Qed.

Lemma rowLess_rowLe keys a b : rowLess keys a b = true → rowLe keys a b.
Proof.
  unfold rowLe, rowLess. intros H%Z.ltb_lt. apply Z.ltb_ge.
  rewrite rowCompare_antisym. lia.
Qed.

#[global] Instance rowLe_Transitive keys : Transitive (rowLe keys).
Proof. intros a b c. apply rowLe_trans. Qed.

(** The executable comparison decides the order stated on the keys. *)
Lemma rowCompare_lt_rowLt keys a b :
  (rowCompare keys a b < 0)%Z ↔ rowLt keys a b.
Proof.
  induction keys as [|[ch f] keys IH]; simpl.
  - split; [lia|]. intros (i & c & fl & Hi & _). by destruct i.
  - destruct (Z.eqb_spec (compareValue f (a !!! ch) (b !!! ch)) 0) as [Heq|Hne].
    + rewrite IH. split.
      * intros (i & c & fl & Hi & Hlt & Hbefore).
        exists (S i), c, fl. split_and!; [done..|].
        intros [|j] c' f' Hj Hl; simpl in Hl; [by simplify_eq|].
        apply (Hbefore j); [lia|done].
      * intros (i & c & fl & Hi & Hlt & Hbefore).
        destruct i as [|i]; simpl in Hi; [simplify_eq; lia|].
        exists i, c, fl. split_and!; [done..|].
        intros j c' f' Hj Hl. apply (Hbefore (S j)); [lia|done].
    + split.
      * intros Hlt. exists 0, ch, f. split_and!; [done..|]. intros; lia.
      * intros (i & c & fl & Hi & Hlt & Hbefore).
        destruct i as [|i]; simpl in Hi; [by simplify_eq|].
        exfalso. apply Hne. apply (Hbefore 0); [lia|done].
Qed.

Lemma rowLess_rowLt keys a b : rowLess keys a b = true ↔ rowLt keys a b.
Proof. unfold rowLess. rewrite Z.ltb_lt. apply rowCompare_lt_rowLt. Qed.

Lemma rowsEqualOnKeys_compare keys a b :
  rowsEqualOnKeys keys a b → rowCompare keys a b = 0%Z.
Proof.
  induction keys as [|[ch f] keys IH]; simpl; [done|]. intros Heq.
  rewrite (Heq 0 ch f eq_refl). simpl. apply IH.
  intros i c fl Hi. apply (Heq (S i)). done.
Qed.

(** ** The stream comparison reads the current rows *)

Lemma loadKeyColumns_lookup keys d kc i ch f :
  loadKeyColumns keys d = Ok kc → keys !! i = Some (ch, f) →
  ∃ col, kc !! i = Some col ∧ rvChildren d !! ch = Some col.
Proof.
  unfold loadKeyColumns. destruct (mapM _ _) as [kc'|] eqn:Hm; [|done].
  intros [= <-] Hi. apply mapM_Some in Hm.
  destruct (Forall2_lookup_l _ _ _ _ _ Hm Hi) as (col & Hcol & Hch).
  eauto.
Qed.

Lemma rowAt_lookup_total d cur ch col :
  rvChildren d !! ch = Some col → rowAt d cur !!! ch = col !!! cur.
Proof.
  intros H. unfold rowAt. apply list_lookup_total_correct.
  by rewrite list_lookup_fmap, H.
Qed.

Lemma lessFrom_rowCompare keys da db ca cb kca kcb pre rest a b :
  keys = pre ++ rest →
  loadKeyColumns keys da = Ok kca → loadKeyColumns keys db = Ok kcb →
  keyColumns_ a = kca → keyColumns_ b = kcb →
  currentSourceRow_ a = ca → currentSourceRow_ b = cb →
  lessFrom (length pre) rest a b =
    (rowCompare rest (rowAt da ca) (rowAt db cb) <? 0)%Z.
Proof.
  revert pre. induction rest as [|[ch f] rest IH]; intros pre Hk Ha Hb Hka Hkb Hca Hcb.
  - done.
  - simpl. unfold columnCompare.
    assert (keys !! length pre = Some (ch, f)) as Hi.
    { rewrite Hk. by rewrite list_lookup_middle. }
    destruct (loadKeyColumns_lookup _ _ _ _ _ _ Ha Hi) as (cola & Hkca & Hcha).
    destruct (loadKeyColumns_lookup _ _ _ _ _ _ Hb Hi) as (colb & Hkcb & Hchb).
    rewrite Hka, Hkb, Hca, Hcb.
    rewrite (list_lookup_total_correct _ _ _ Hkca).
    rewrite (list_lookup_total_correct _ _ _ Hkcb).
    rewrite (rowAt_lookup_total _ ca _ _ Hcha), (rowAt_lookup_total _ cb _ _ Hchb).
    destruct (Z.eqb_spec (compareValue f (cola !!! ca) (colb !!! cb)) 0); simpl; [|done].
    specialize (IH (pre ++ [(ch, f)])).
    rewrite length_app in IH. simpl in IH.
    replace (length pre + 1) with (S (length pre)) in IH by lia.
    apply IH; try done. by rewrite <- app_assoc.
Qed.

(** ** The merge function *)

Section pick.
Context (keys : list SortKey) (rems : list (list Row)).

Lemma pickStep_good best seen i :
  pickGood keys rems best seen →
  pickGood keys rems (pickStep keys rems best i) (λ j, seen j ∨ j = i).
Proof.
  intros Hgood. unfold pickStep.
  destruct (rems !! i) as [[|r rest]|] eqn:Hi.
  - destruct best as [b|]; simpl in *.
    + destruct Hgood as (r & rest & Hb & Hmin). exists r, rest. split; [done|].
      intros j r' rest' [Hj| ->] Hl; [eauto|congruence].
    + intros j r rest [Hj| ->]; [eauto|congruence].
  - destruct best as [b|]; simpl in *.
    + destruct Hgood as (t & trest & Hb & Hmin). rewrite Hb.
      destruct (rowLess keys r t) eqn:Hlt; simpl.
      * exists r, rest. split; [done|].
        intros j r' rest' [Hj| ->] Hl.
        -- eapply rowLe_trans; [by apply rowLess_rowLe|eauto].
        -- simplify_eq. apply rowLe_refl.
      * exists t, trest. split; [done|].
        intros j r' rest' [Hj| ->] Hl; [eauto|]. by simplify_eq.
    + exists r, rest. split; [done|].
      intros j r' rest' [Hj| ->] Hl; [by destruct (Hgood j r' rest')|].
      simplify_eq. apply rowLe_refl.
  - destruct best as [b|]; simpl in *.
    + destruct Hgood as (r & rest & Hb & Hmin). exists r, rest. split; [done|].
      intros j r' rest' [Hj| ->] Hl; [eauto|congruence].
    + intros j r rest [Hj| ->]; [eauto|congruence].
Qed.

Lemma pickGood_ext best (s1 s2 : nat → Prop) :
  (∀ j, s2 j → s1 j) → pickGood keys rems best s1 → pickGood keys rems best s2.
Proof.
  intros Hs. destruct best; simpl.
  - intros (r & rest & ? & Hmin). exists r, rest. eauto.
  - eauto.
Qed.

Lemma pickFold_good l best seen :
  pickGood keys rems best seen →
  pickGood keys rems (foldl (pickStep keys rems) best l) (λ j, seen j ∨ j ∈ l).
Proof.
  revert best seen. induction l as [|i l IH]; intros best seen Hgood; simpl.
  - eapply pickGood_ext; [|done]. intros j [?|Hin]; [done|]. by inversion Hin.
  - eapply pickGood_ext; [|apply IH, pickStep_good, Hgood].
    simpl. intros j [?|Hin]; [auto|].
    apply elem_of_cons in Hin as [->|?]; auto.
Qed.

Lemma pickMin_good :
  pickGood keys rems (pickMin keys rems) (λ j, j < length rems).
Proof.
  eapply pickGood_ext; [|apply (pickFold_good _ None (λ _, False)); by simpl].
  simpl. intros j Hj. right. apply elem_of_seq. lia.
Qed.

Lemma pickMin_Some i :
  pickMin keys rems = Some i →
  ∃ r rest, rems !! i = Some (r :: rest) ∧
    ∀ j r' rest', rems !! j = Some (r' :: rest') → rowLe keys r r'.
Proof.
  intros H. pose proof pickMin_good as Hg. rewrite H in Hg.
  destruct Hg as (r & rest & Hi & Hmin). exists r, rest. split; [done|].
  intros j r' rest' Hj. eapply Hmin; [|done]. by eapply lookup_lt_Some.
Qed.

Lemma pickMin_None j l :
  pickMin keys rems = None → rems !! j = Some l → l = [].
Proof.
  intros H Hj. pose proof pickMin_good as Hg. rewrite H in Hg. simpl in Hg.
  destruct l as [|r rest]; [done|].
  destruct (Hg j r rest); [by eapply lookup_lt_Some|done].
Qed.
End pick.

Lemma concat_insert_tail (rems : list (list Row)) i r rest :
  rems !! i = Some (r :: rest) →
  concat rems ≡ₚ r :: concat (<[i := rest]> rems).
Proof.
  revert i. induction rems as [|l rems IH]; intros [|i] Hi; simpl in *; try done.
  - by simplify_eq.
  - rewrite (IH i Hi). by rewrite Permutation_middle.
Qed.

Lemma length_concat_insert_tail (rems : list (list Row)) i r rest :
  rems !! i = Some (r :: rest) →
  length (concat rems) = S (length (concat (<[i := rest]> rems))).
Proof. intros H. by rewrite (concat_insert_tail _ _ _ _ H). Qed.

Lemma kWayMergeFuel_more keys fuel rems :
  length (concat rems) ≤ fuel →
  kWayMergeFuel keys (S fuel) rems = kWayMergeFuel keys fuel rems.
Proof.
  revert rems. induction fuel as [|fuel IH]; intros rems Hlen.
  - simpl. destruct (pickMin keys rems) as [i|] eqn:Hp; [|done].
    destruct (pickMin_Some _ _ _ Hp) as (r & rest & Hi & _).
    rewrite (length_concat_insert_tail _ _ _ _ Hi) in Hlen. lia.
  - change (kWayMergeFuel keys (S (S fuel)) rems) with
      (match pickMin keys rems with
       | None => []
       | Some i =>
           match rems !! i with
           | Some (r :: rest) =>
               r :: kWayMergeFuel keys (S fuel) (<[i := rest]> rems)
           | _ => []
           end
       end).
    simpl. destruct (pickMin keys rems) as [i|] eqn:Hp; [|done].
    destruct (rems !! i) as [[|r rest]|] eqn:Hi; [done| |done].
    f_equal. apply IH.
    rewrite (length_concat_insert_tail _ _ _ _ Hi) in Hlen. lia.
Qed.

Lemma kWayMerge_step keys rems i r rest :
  pickMin keys rems = Some i → rems !! i = Some (r :: rest) →
  kWayMerge keys rems = r :: kWayMerge keys (<[i := rest]> rems).
Proof.
  intros Hp Hi. unfold kWayMerge.
  rewrite (length_concat_insert_tail _ _ _ _ Hi). simpl. by rewrite Hp, Hi.
Qed.

Lemma kWayMerge_done keys rems :
  pickMin keys rems = None → kWayMerge keys rems = [].
Proof.
  intros Hp. unfold kWayMerge.
  destruct (length (concat rems)); simpl; [done|]. by rewrite Hp.
Qed.

Lemma kWayMerge_perm keys rems : kWayMerge keys rems ≡ₚ concat rems.
Proof.
  remember (length (concat rems)) as n eqn:Hn.
  revert rems Hn. induction n as [|n IH]; intros rems Hn.
  - unfold kWayMerge. rewrite <- Hn. simpl.
    symmetry in Hn. apply length_zero_iff_nil in Hn. by rewrite Hn.
  - destruct (pickMin keys rems) as [i|] eqn:Hp.
    + destruct (pickMin_Some _ _ _ Hp) as (r & rest & Hi & _).
      rewrite (kWayMerge_step _ _ _ _ _ Hp Hi).
      rewrite (concat_insert_tail _ _ _ _ Hi). constructor. apply IH.
      rewrite (length_concat_insert_tail _ _ _ _ Hi) in Hn. lia.
    + rewrite (kWayMerge_done _ _ Hp).
      assert (concat rems = []) as ->; [|done].
      clear -Hp. assert (∀ j l, rems !! j = Some l → l = []) as Hall
        by (intros; by eapply pickMin_None).
      clear Hp. induction rems as [|l rems IH]; [done|]. simpl.
      rewrite (Hall 0 l eq_refl). simpl. apply IH.
      intros j l' Hj. apply (Hall (S j)). done.
Qed.

Lemma kWayMerge_length keys rems :
  length (kWayMerge keys rems) = length (concat rems).
Proof. by rewrite kWayMerge_perm. Qed.

Lemma StronglySorted_insert_tail keys (rems : list (list Row)) i r rest :
  Forall (StronglySorted (rowLe keys)) rems → rems !! i = Some (r :: rest) →
  Forall (StronglySorted (rowLe keys)) (<[i := rest]> rems).
Proof.
  intros Hall Hi. apply Forall_insert; [done|].
  pose proof (Forall_lookup_1 _ _ _ _ Hall Hi) as Hs. by inversion Hs.
Qed.

Lemma kWayMerge_sorted keys rems :
  Forall (StronglySorted (rowLe keys)) rems →
  StronglySorted (rowLe keys) (kWayMerge keys rems).
Proof.
  remember (length (concat rems)) as n eqn:Hn.
  revert rems Hn. induction n as [|n IH]; intros rems Hn Hsorted.
  - unfold kWayMerge. rewrite <- Hn. constructor.
  - destruct (pickMin keys rems) as [i|] eqn:Hp.
    + destruct (pickMin_Some _ _ _ Hp) as (r & rest & Hi & Hmin).
      rewrite (kWayMerge_step _ _ _ _ _ Hp Hi). constructor.
      * apply IH; [|by eapply StronglySorted_insert_tail].
        rewrite (length_concat_insert_tail _ _ _ _ Hi) in Hn. lia.
      * apply Forall_forall. intros x Hx.
        rewrite kWayMerge_perm in Hx.
        assert (x ∈ concat rems) as Hx'.
        { rewrite (concat_insert_tail _ _ _ _ Hi). by right. }
        apply list_elem_of_In, in_concat in Hx' as (l & Hl & Hxl).
        apply list_elem_of_In in Hl, Hxl.
        apply list_elem_of_lookup in Hl as [j Hj].
        pose proof (Forall_lookup_1 _ _ _ _ Hsorted Hj) as Hs.
        destruct l as [|r' rest']; [by inversion Hxl|].
        apply elem_of_cons in Hxl as [->|Hxl]; [by eapply Hmin|].
        eapply rowLe_trans; [by eapply Hmin|].
        inversion Hs as [|? ? ? Hall]; subst.
        by eapply Forall_forall in Hall.
    + rewrite (kWayMerge_done _ _ Hp). constructor.
Qed.

Lemma kWayMerge_singleton keys (l : list Row) : kWayMerge keys [l] = l.
Proof.
  induction l as [|r rest IH]; [done|].
  rewrite (kWayMerge_step keys [r :: rest] 0 r rest) by done.
  simpl. by rewrite IH.
Qed.

(** ** Selection bitmaps *)

Lemma countSel_replicate n : countSel (replicate n false) = 0.
Proof. induction n; simpl; auto. Qed.

Lemma countSel_zero rows :
  countSel rows = 0 ↔ ∀ j, rows !! j ≠ Some true.
Proof.
  induction rows as [|b rows IH]; simpl.
  - split; [|done]. intros _ j. by rewrite lookup_nil.
  - split.
    + intros H j. destruct b; [simpl in H; lia|].
      destruct j as [|j]; simpl; [done|]. apply IH. simpl in H. lia.
    + intros H. destruct b; [by destruct (H 0)|]. simpl. apply IH.
      intros j. apply (H (S j)).
Qed.

Lemma countSel_app a b : countSel (a ++ b) = countSel a + countSel b.
Proof. induction a as [|x a IH]; simpl; [done|]. rewrite IH. lia. Qed.

Lemma countSel_clear rows : countSel rows = 0 → rows = replicate (length rows) false.
Proof.
  induction rows as [|b rows IH]; simpl; [done|].
  destruct b; simpl; [lia|]. intros H. f_equal. by apply IH.
Qed.

(** ** The cached range of a selection *)

Lemma findFirstBit_None i bits : findFirstBit i bits = None ↔ countSel bits = 0.
Proof.
  revert i. induction bits as [|b bits IH]; intros i; simpl; [done|].
  destruct b; simpl; [split; [done|lia]|]. apply IH.
Qed.

Lemma findLastBit_None i bits : findLastBit i bits = None ↔ countSel bits = 0.
Proof.
  revert i. induction bits as [|b bits IH]; intros i; simpl; [done|].
  destruct (findLastBit (S i) bits) as [j|] eqn:Hlast.
  - split; [done|]. intros H.
    assert (countSel bits = 0) as H0 by (destruct b; simpl in H; lia).
    apply (IH (S i)) in H0. congruence.
  - pose proof (proj1 (IH (S i)) Hlast) as H0. rewrite H0.
    destruct b; simpl; split; done || lia.
Qed.

Lemma findFirstBit_Some i bits first :
  findFirstBit i bits = Some first →
  ∃ k, first = i + k ∧ countSel (take k bits) = 0 ∧ bits !! k = Some true.
Proof.
  revert i. induction bits as [|b bits IH]; intros i; simpl; [done|].
  destruct b.
  - intros [= <-]. exists 0. split_and!; [lia|done..].
  - intros H. destruct (IH _ H) as (k & -> & Hc & Hk).
    exists (S k). split_and!; [lia|done..].
Qed.

Lemma findLastBit_Some i bits last :
  findLastBit i bits = Some last →
  ∃ k, last = i + k ∧ bits !! k = Some true ∧ countSel (drop (S k) bits) = 0.
Proof.
  revert i. induction bits as [|b bits IH]; intros i; simpl; [done|].
  destruct (findLastBit (S i) bits) as [j|] eqn:Hlast.
  - intros [= <-]. destruct (IH _ Hlast) as (k & -> & Hk & Hc).
    exists (S k). split_and!; [lia|done..].
  - apply findLastBit_None in Hlast. destruct b; [|done].
    intros [= <-]. exists 0. split_and!; [lia|done|]. by rewrite drop_0.
Qed.

Lemma updateBounds_bits rows : bits_ (updateBounds rows) = bits_ rows.
Proof.
  unfold updateBounds.
  by destruct (findFirstBit 0 (bits_ rows)), (findLastBit 0 (bits_ rows)).
Qed.

Lemma updateBounds_clear rows :
  countSel (bits_ rows) = 0 →
  updateBounds rows = mkSelectivityVector (bits_ rows) 0 0.
Proof.
  intros H. unfold updateBounds.
  by rewrite (proj2 (findFirstBit_None 0 _) H).
Qed.

Lemma updateBounds_range rows first last :
  findFirstBit 0 (bits_ rows) = Some first →
  findLastBit 0 (bits_ rows) = Some last →
  first ≤ last ∧ last < length (bits_ rows) ∧
  countSel (take first (bits_ rows)) = 0 ∧
  countSel (drop (S last) (bits_ rows)) = 0.
Proof.
  intros Hf Hl.
  destruct (findFirstBit_Some _ _ _ Hf) as (k & -> & Hpre & Hk).
  destruct (findLastBit_Some _ _ _ Hl) as (k' & -> & Hk' & Hpost).
  simpl. split_and!; [|by eapply lookup_lt_Some|done..].
  destruct (decide (k ≤ k')) as [|Hgt]; [done|].
  exfalso. apply (proj1 (countSel_zero _) Hpost (k - S k')).
  rewrite lookup_drop. by replace (S k' + (k - S k')) with k by lia.
Qed.

Lemma hasSelections_updateBounds rows :
  hasSelections (updateBounds rows) = false ↔ countSel (bits_ rows) = 0.
Proof.
  unfold updateBounds, hasSelections.
  destruct (findFirstBit 0 (bits_ rows)) as [first|] eqn:Hf.
  - destruct (findLastBit 0 (bits_ rows)) as [last|] eqn:Hl; simpl.
    + destruct (updateBounds_range _ _ _ Hf Hl) as (Hle & _).
      apply findLastBit_Some in Hl as (k & _ & Hk & _).
      split.
      * intros H. apply Nat.ltb_ge in H. lia.
      * intros H. by destruct (proj1 (countSel_zero _) H k).
    + split; [|done]. intros _. by apply (findLastBit_None 0).
  - simpl. split; [|done]. intros _. by apply (findFirstBit_None 0).
Qed.

Lemma hasSelections_updateBounds_true rows :
  hasSelections (updateBounds rows) = true ↔ countSel (bits_ rows) ≠ 0.
Proof.
  rewrite <- hasSelections_updateBounds.
  destruct (hasSelections (updateBounds rows)); split; done.
Qed.

Lemma rangeCleared_hasSelections rows :
  rangeCleared rows → hasSelections rows = false.
Proof. intros [Hb He]. unfold hasSelections. by rewrite Hb, He. Qed.

Lemma rangeCleared_updateBounds rows :
  rangeCleared rows → countSel (bits_ rows) = 0 → updateBounds rows = rows.
Proof.
  intros [Hb He] H. rewrite (updateBounds_clear _ H).
  destruct rows as [bits b e]. simpl in *. by subst.
Qed.

Lemma rangeCleared_setValid rows idx valid :
  rangeCleared rows → rangeCleared (setValid rows idx valid).
Proof. done. Qed.

Lemma rangeCleared_clearAll rows : rangeCleared (clearAll rows).
Proof. done. Qed.

Lemma rangeCleared_new size : rangeCleared (newSelectivityVector size).
Proof. done. Qed.

Lemma clearAll_updateBounds rows : clearAll (updateBounds rows) = clearAll rows.
Proof. unfold clearAll. by rewrite updateBounds_bits. Qed.

Lemma unselected_updateBounds rows :
  countSel (bits_ rows) = 0 → updateBounds rows = clearAll rows.
Proof.
  intros H. rewrite (updateBounds_clear _ H). unfold clearAll.
  by rewrite <- (countSel_clear _ H).
Qed.

Lemma countSel_clearAll rows : countSel (bits_ (clearAll rows)) = 0.
Proof. apply countSel_replicate. Qed.

Lemma clearAll_lookup rows j : bits_ (clearAll rows) !! j ≠ Some true.
Proof. apply countSel_zero, countSel_clearAll. Qed.

Lemma applyFrom_app {A} (a b : list bool) i (f : nat → A → A) acc :
  applyFrom i (a ++ b) f acc = applyFrom (i + length a) b f (applyFrom i a f acc).
Proof.
  revert i acc. induction a as [|x a IH]; intros i acc; simpl.
  - by rewrite Nat.add_0_r.
  - rewrite IH. f_equal. lia.
Qed.

Lemma applyFrom_clear {A} (a : list bool) i (f : nat → A → A) acc :
  countSel a = 0 → applyFrom i a f acc = acc.
Proof.
  revert i. induction a as [|x a IH]; intros i H; simpl; [done|].
  destruct x; simpl in H; [lia|]. by apply IH.
Qed.

(** After [updateBounds] the walk over the cached range meets every set
    bit. *)
Lemma applyToSelected_updateBounds {A} rows (f : nat → A → A) acc :
  applyToSelected (updateBounds rows) f acc = applyFrom 0 (bits_ rows) f acc.
Proof.
  unfold applyToSelected, updateBounds.
  destruct (findFirstBit 0 (bits_ rows)) as [first|] eqn:Hf.
  - destruct (findLastBit 0 (bits_ rows)) as [last|] eqn:Hl; simpl.
    + destruct (updateBounds_range _ _ _ Hf Hl) as (Hle & Hlt & Hpre & Hpost).
      rewrite <- (take_drop first (bits_ rows)) at 2.
      rewrite applyFrom_app, (applyFrom_clear _ _ _ _ Hpre).
      rewrite length_take. rewrite Nat.min_l by lia. simpl.
      rewrite <- (take_drop (S last - first) (drop first (bits_ rows))) at 2.
      rewrite applyFrom_app. symmetry. apply applyFrom_clear.
      rewrite drop_drop. by replace (first + (S last - first)) with (S last) by lia.
    + apply (findLastBit_None 0) in Hl. by rewrite applyFrom_clear.
  - simpl. apply (findFirstBit_None 0) in Hf. by rewrite applyFrom_clear.
Qed.

Lemma countSel_take_all rows n :
  (∀ j, rows !! j = Some true → j < n) → countSel (take n rows) = countSel rows.
Proof.
  revert n. induction rows as [|b rows IH]; intros n H; [by destruct n|].
  destruct n as [|n]; simpl.
  - destruct b; [specialize (H 0 eq_refl); lia|]. simpl. symmetry.
    apply countSel_zero. intros j Hj. specialize (H (S j) Hj). lia.
  - f_equal. apply IH. intros j Hj. specialize (H (S j) Hj). lia.
Qed.

Lemma countSel_insert_true rows n :
  rows !! n = Some false → countSel (<[n := true]> rows) = S (countSel rows).
Proof.
  revert n. induction rows as [|b rows IH]; intros [|n] H; simpl in *; try done.
  - simplify_eq. simpl. lia.
  - rewrite (IH n H). lia.
Qed.

Lemma rank_insert_le rows n j b : j ≤ n → rank (<[n := b]> rows) j = rank rows j.
Proof. intros H. unfold rank. by rewrite take_insert_ge. Qed.

Lemma rank_all rows n :
  (∀ j, rows !! j = Some true → j < n) → rank rows n = countSel rows.
Proof. apply countSel_take_all. Qed.

Lemma rank_S (rows : list bool) j (b : bool) :
  rows !! j = Some b → rank rows (S j) = rank rows j + (if b then 1 else 0).
Proof.
  intros H. unfold rank. rewrite (take_S_r _ _ _ H), countSel_app. simpl. lia.
Qed.

Lemma rank_le_countSel rows j : rank rows j ≤ countSel rows.
Proof.
  unfold rank. rewrite <- (take_drop j rows) at 2. rewrite countSel_app. lia.
Qed.

Lemma rank_lt_countSel rows j :
  rows !! j = Some true → rank rows j < countSel rows.
Proof.
  intros H. pose proof (rank_S _ _ _ H) as HS.
  pose proof (rank_le_countSel rows (S j)). simpl in HS. lia.
Qed.

(** ** The two passes of [copyToOutput] over the selection *)

Lemma applyFrom_assign rows i acc k :
  applyFrom i rows assignSourceRow (acc, k) =
    ((applyFrom i rows assignSourceRow (acc, k)).1, k + countSel rows).
Proof.
  revert i acc k. induction rows as [|b rows IH]; intros i acc k; simpl.
  - f_equal. lia.
  - destruct b; simpl.
    + rewrite IH. simpl. f_equal. lia.
    + rewrite IH. simpl. done.
Qed.

Lemma applyFrom_assign_lookup rows i acc k p :
  i + length rows ≤ length acc →
  (applyFrom i rows assignSourceRow (acc, k)).1 !! p =
    if decide (i ≤ p ∧ rows !! (p - i) = Some true)
    then Some (k + rank rows (p - i)) else acc !! p.
Proof.
  revert i acc k. induction rows as [|b rows IH]; intros i acc k Hlen; simpl.
  - rewrite lookup_nil. case_decide as H; [by destruct H|done].
  - simpl in Hlen.
    assert (∀ acc' k', length acc' = length acc →
      (applyFrom (S i) rows assignSourceRow (acc', k')).1 !! p =
        if decide (S i ≤ p ∧ rows !! (p - S i) = Some true)
        then Some (k' + rank rows (p - S i)) else acc' !! p) as IH'.
    { intros acc' k' Hl. apply IH. lia. }
    destruct (decide (p = i)) as [->|Hne].
    + replace (i - i) with 0 by lia. simpl.
      destruct b; simpl.
      * rewrite IH' by (by rewrite length_insert).
        rewrite decide_False by lia. rewrite decide_True by (split; [lia|done]).
        rewrite list_lookup_insert_eq by lia. f_equal. unfold rank. simpl. lia.
      * rewrite IH' by done.
        rewrite decide_False by lia. rewrite decide_False; [done|].
        intros [_ ?]; done.
    + destruct (decide (i ≤ p)) as [Hle|Hgt].
      * replace (p - i) with (S (p - S i)) by lia. simpl.
        destruct b; simpl.
        -- rewrite IH' by (by rewrite length_insert).
           rewrite list_lookup_insert_ne by lia.
           destruct (decide (rows !! (p - S i) = Some true)) as [Hs|Hs].
           ++ rewrite !decide_True by (split; [lia|done]).
              f_equal. unfold rank. simpl. lia.
           ++ rewrite !decide_False; [done|intros [_ ?]; done..].
        -- rewrite IH' by done.
           destruct (decide (rows !! (p - S i) = Some true)) as [Hs|Hs].
           ++ rewrite !decide_True by (split; [lia|done]).
              f_equal.
           ++ rewrite !decide_False; [done|intros [_ ?]; done..].
      * rewrite decide_False by lia.
        destruct b; simpl.
        -- rewrite IH' by (by rewrite length_insert).
           rewrite decide_False by lia. rewrite list_lookup_insert_ne by lia. done.
        -- rewrite IH' by done. rewrite decide_False by lia. done.
Qed.

Lemma applyFrom_assign_length rows i acc k :
  length (applyFrom i rows assignSourceRow (acc, k)).1 = length acc.
Proof.
  revert i acc k. induction rows as [|b rows IH]; intros i acc k; simpl; [done|].
  destruct b; simpl; rewrite IH; [by rewrite length_insert|done].
Qed.

Lemma applyFrom_copy_length source sr rows i t :
  length (applyFrom i rows (copyValue source sr) t) = length t.
Proof.
  revert i t. induction rows as [|b rows IH]; intros i t; simpl; [done|].
  destruct b; rewrite IH; [apply length_insert|done].
Qed.

Lemma applyFrom_copy_lookup source sr rows i t p :
  i + length rows ≤ length t →
  applyFrom i rows (copyValue source sr) t !! p =
    if decide (i ≤ p ∧ rows !! (p - i) = Some true)
    then Some (source !!! (sr !!! p)) else t !! p.
Proof.
  revert i t. induction rows as [|b rows IH]; intros i t Hlen; simpl.
  - rewrite lookup_nil. case_decide as H; [by destruct H|done].
  - simpl in Hlen.
    assert (∀ t', length t' = length t →
      applyFrom (S i) rows (copyValue source sr) t' !! p =
        if decide (S i ≤ p ∧ rows !! (p - S i) = Some true)
        then Some (source !!! (sr !!! p)) else t' !! p) as IH'.
    { intros t' Hl. apply IH. lia. }
    destruct (decide (p = i)) as [->|Hne].
    + replace (i - i) with 0 by lia. simpl.
      destruct b; simpl.
      * rewrite IH' by apply length_insert.
        rewrite decide_False by lia. rewrite decide_True by (split; [lia|done]).
        unfold copyValue. by rewrite list_lookup_insert_eq by lia.
      * rewrite IH' by done.
        rewrite decide_False by lia. rewrite decide_False; [done|].
        intros [_ ?]; done.
    + destruct (decide (i ≤ p)) as [Hle|Hgt].
      * replace (p - i) with (S (p - S i)) by lia. simpl.
        destruct (decide (rows !! (p - S i) = Some true)) as [Hs|Hs].
        -- rewrite decide_True by (split; [lia|done]).
           destruct b; rewrite IH' by (try apply length_insert; done);
             by rewrite decide_True by (split; [lia|done]).
        -- rewrite (decide_False (P := _ ∧ _)) by (intros [_ ?]; done).
           destruct b; rewrite IH' by (try apply length_insert; done);
             rewrite decide_False by (intros [_ ?]; done); [|done].
           unfold copyValue. by rewrite list_lookup_insert_ne by lia.
      * rewrite decide_False by lia.
        destruct b; rewrite IH' by (try apply length_insert; done);
          rewrite decide_False by lia; [|done].
        unfold copyValue. by rewrite list_lookup_insert_ne by lia.
Qed.

(** ** Copying rows into the output batch *)

Lemma vectorCopy_length o d rows sr :
  length (vectorCopy o d rows sr) = length o.
Proof. apply (applyFrom_copy_length d sr _ _ o). Qed.

Lemma vectorCopy_lookup_total (o d : Column) rows sr p :
  length (bits_ rows) ≤ length o →
  vectorCopy o d (updateBounds rows) sr !!! p =
    if decide (bits_ rows !! p = Some true) then d !!! (sr !!! p) else o !!! p.
Proof.
  intros Hlen.
  rewrite (list_lookup_total_alt (vectorCopy o d (updateBounds rows) sr)).
  change (vectorCopy o d (updateBounds rows) sr)
    with (applyToSelected (updateBounds rows) (copyValue d sr) o).
  rewrite applyToSelected_updateBounds.
  rewrite (applyFrom_copy_lookup d sr (bits_ rows) 0 o p) by (simpl; lia).
  replace (p - 0) with p by lia.
  destruct (decide (bits_ rows !! p = Some true)).
  - by rewrite decide_True by (split; [lia|done]).
  - rewrite decide_False by (intros [_ ?]; done).
    by rewrite list_lookup_total_alt.
Qed.

Lemma copyChildren_ok size (outch dch : list Column) rows sr :
  length outch = length dch →
  Forall (λ c : Column, length c = size) outch → length (bits_ rows) = size →
  ∃ ch, copyChildren outch dch (updateBounds rows) sr = Ok ch ∧
    length ch = length outch ∧
    Forall (λ c : Column, length c = size) ch ∧
    ∀ p, ((λ c : Column, c !!! p) <$> ch) =
      if decide (bits_ rows !! p = Some true)
      then (λ c : Column, c !!! (sr !!! p)) <$> dch
      else (λ c : Column, c !!! p) <$> outch.
Proof.
  intros Hlen Hall Hrows. unfold copyChildren.
  rewrite decide_True by lia. eexists. split; [done|].
  clear -Hlen Hall Hrows.
  revert dch Hlen. induction Hall as [|o outch Ho Hall IH]; intros [|d dch] Hlen;
    simpl in *; try done.
  - split_and!; [done|constructor|]. intros p. by case_decide.
  - destruct (IH dch ltac:(lia)) as (IH1 & IH2 & IH3). split_and!.
    + by rewrite IH1.
    + constructor; [|done]. by rewrite vectorCopy_length.
    + intros p. rewrite IH3. rewrite vectorCopy_lookup_total by lia.
      by case_decide.
Qed.

(** With no slot marked, [copyToOutput] only recomputes the range. *)
Lemma copyToOutput_unselected output s :
  countSel (bits_ (outputRows_ s)) = 0 →
  copyToOutput output s =
    Ok (output,
        mkSourceStream (source_ s) (needData_ s) (atEnd_ s) (data_ s)
          (currentSourceRow_ s) (firstSourceRow_ s) (keyColumns_ s)
          (clearAll (outputRows_ s)) (sourceRows_ s)).
Proof.
  intros H. unfold copyToOutput.
  rewrite (proj2 (hasSelections_updateBounds _) H). simpl.
  by rewrite (unselected_updateBounds _ H).
Qed.

Lemma copyToOutput_nosel output s :
  rangeCleared (outputRows_ s) → countSel (bits_ (outputRows_ s)) = 0 →
  copyToOutput output s = Ok (output, s).
Proof.
  intros Hrange H. unfold copyToOutput.
  rewrite (proj2 (hasSelections_updateBounds _) H). simpl.
  rewrite (rangeCleared_updateBounds _ Hrange H). by destruct s.
Qed.

Lemma copyToOutput_sel cfg out s d :
  outputOk cfg out → data_ s = Some d →
  length (rvChildren d) = numColumns cfg →
  length (bits_ (outputRows_ s)) = outputBatchSize_ cfg →
  length (sourceRows_ s) = outputBatchSize_ cfg →
  countSel (bits_ (outputRows_ s)) ≠ 0 →
  ∃ out' sr,
    copyToOutput (Some out) s =
      Ok (Some out',
          mkSourceStream (source_ s) (needData_ s) (atEnd_ s) (data_ s)
            (currentSourceRow_ s)
            (if bool_decide
                  (firstSourceRow_ s + countSel (bits_ (outputRows_ s)) = rvSize d)
             then 0 else firstSourceRow_ s + countSel (bits_ (outputRows_ s)))
            (keyColumns_ s) (clearAll (outputRows_ s)) sr) ∧
    length sr = outputBatchSize_ cfg ∧ outputOk cfg out' ∧
    ∀ p, rowAt out' p =
      if decide (bits_ (outputRows_ s) !! p = Some true)
      then rowAt d (firstSourceRow_ s + rank (bits_ (outputRows_ s)) p)
      else rowAt out p.
Proof.
  intros (Hsize & Hwidth & Hcols) Hd Hdw Hbits Hsr Hsel.
  unfold copyToOutput.
  rewrite (proj2 (hasSelections_updateBounds_true _) Hsel). simpl.
  rewrite applyToSelected_updateBounds, clearAll_updateBounds.
  change (λ (row : nat) '(rows, sourceRow), (<[row:=sourceRow]> rows, S sourceRow))
    with assignSourceRow.
  rewrite applyFrom_assign.
  set (sr := (applyFrom 0 (bits_ (outputRows_ s)) assignSourceRow
                (sourceRows_ s, firstSourceRow_ s)).1).
  rewrite Hd.
  destruct (copyChildren_ok (outputBatchSize_ cfg) (rvChildren out)
              (rvChildren d) (outputRows_ s) sr) as (ch & Hch & Hlen & Hall & Hrow);
    [lia|done|done|].
  rewrite Hch. simpl. eexists _, sr. split; [done|]. split_and!.
  - unfold sr. by rewrite applyFrom_assign_length.
  - split_and!; simpl; [done|lia|done].
  - intros p. unfold rowAt. simpl. rewrite Hrow.
    destruct (decide (bits_ (outputRows_ s) !! p = Some true)) as [Hp|Hp]; [|done].
    assert (sr !!! p = firstSourceRow_ s + rank (bits_ (outputRows_ s)) p)
      as ->; [|done].
    apply list_lookup_total_correct. unfold sr.
    rewrite applyFrom_assign_lookup by (simpl; lia).
    replace (p - 0) with p by lia.
    by rewrite decide_True by (split; [lia|done]).
Qed.

(** Whatever it copies, [copyToOutput] leaves the selection cleared. *)
Lemma copyToOutput_bits output s output' s' :
  copyToOutput output s = Ok (output', s') →
  outputRows_ s' = clearAll (outputRows_ s).
Proof.
  unfold copyToOutput.
  destruct (hasSelections (updateBounds (outputRows_ s))) eqn:Hsel; simpl.
  - destruct (applyToSelected _ _ _) as [sr n].
    destruct output as [out|]; [|done]. destruct (data_ s) as [d|]; [|done].
    destruct (copyChildren _ _ _ _); [|done]. simpl. intros [= <- <-]. simpl.
    apply clearAll_updateBounds.
  - intros [= <- <-]. simpl.
    by apply unselected_updateBounds, hasSelections_updateBounds.
Qed.

(** ** Fetching the next batch *)

Lemma loadKeyColumns_ok cfg d :
  keysInRange cfg → length (rvChildren d) = numColumns cfg →
  ∃ kc, loadKeyColumns (sortingKeys_ cfg) d = Ok kc.
Proof.
  intros Hkeys Hw. unfold loadKeyColumns.
  destruct (mapM _ _) as [kc|] eqn:Hm; [eauto|]. exfalso.
  apply mapM_None in Hm. apply Exists_exists in Hm as (key & Hin & Hnone).
  unfold keysInRange in Hkeys. rewrite Forall_forall in Hkeys.
  specialize (Hkeys key Hin). destruct key as [ch f]. simpl in *.
  apply lookup_ge_None in Hnone. lia.
Qed.

Lemma sum_list_insert {A} (f : A → nat) (l : list A) i x y :
  l !! i = Some x →
  sum_list (f <$> <[i := y]> l) + f x = sum_list (f <$> l) + f y.
Proof.
  revert i. induction l as [|a l IH]; intros [|i] Hi; simpl in *; try done.
  - simplify_eq. lia.
  - specialize (IH i Hi). change (<[S i := y]> (a :: l)) with (a :: <[i := y]> l).
    simpl. unfold fmap in IH. lia.
Qed.

Lemma sourceWeight_consume sources i src ev rest :
  sources !! i = Some src → srcEvents src = ev :: rest →
  sum_list (sourceWeight <$>
      <[i := mkMergeSource rest (srcStarted src) (srcClosed src) (srcExchange src)]>
        sources) + eventWeight ev =
    sum_list (sourceWeight <$> sources).
Proof.
  intros Hsrc Hev.
  pose proof (sum_list_insert sourceWeight sources i src
    (mkMergeSource rest (srcStarted src) (srcClosed src) (srcExchange src)) Hsrc)
    as Hsum.
  assert (sourceWeight src = eventWeight ev +
    sourceWeight (mkMergeSource rest (srcStarted src) (srcClosed src) (srcExchange src)))
    as Hw by (unfold sourceWeight; simpl; by rewrite Hev).
  lia.
Qed.

Lemma rowsOf_length d : length (rowsOf d) = rvSize d.
Proof. unfold rowsOf. by rewrite length_fmap, length_seq. Qed.

Lemma rowsOf_lookup d j : j < rvSize d → rowsOf d !! j = Some (rowAt d j).
Proof.
  intros H. unfold rowsOf. rewrite list_lookup_fmap.
  rewrite lookup_seq_lt by done. done.
Qed.

(** The stream that a fetch leaves behind, by the answer of the source. *)
Lemma fetchMoreData_spec cfg sources futures s src n :
  keysInRange cfg →
  sources !! source_ s = Some src → wfSource (numColumns cfg) src →
  length (bits_ (outputRows_ s)) = outputBatchSize_ cfg →
  length (sourceRows_ s) = outputBatchSize_ cfg →
  rangeCleared (outputRows_ s) →
  countSel (bits_ (outputRows_ s)) = 0 → firstSourceRow_ s = 0 → atEnd_ s = false →
  ∃ sources' futures' s' b src',
    fetchMoreData (sortingKeys_ cfg) (sources, futures) s =
      Ok (sources', futures', s', b) ∧
    sources' = <[source_ s := src']> sources ∧
    wfSource (numColumns cfg) src' ∧
    streamOk cfg sources' n (source_ s) s' ∧
    outputRows_ s' = outputRows_ s ∧
    remaining sources' s' = sourceRows src ∧
    sharedWeight (sources', futures') + streamWeight s' ≤
      sharedWeight (sources, futures) ∧
    (needData_ s' = b) ∧
    (b = false → futures' = futures) ∧
    (b = true → ∃ f, futures' = f :: futures).
Proof.
  intros Hkeys Hsrc Hwf Hbits Hsr [Hbegin Hlast] Hcount Hfirst HatEnd.
  assert (∀ j, bits_ (outputRows_ s) !! j = Some true → j < n) as Hbound.
  { intros j Hj. by apply countSel_zero in Hj. }
  assert (source_ s < length sources) as Hlt by (by eapply lookup_lt_Some).
  unfold fetchMoreData. rewrite Hsrc. unfold sourceNext.
  destruct (srcEvents src) as [|[f|d] rest] eqn:Hev.
  - (* end of the source *)
    rewrite decide_False by (intros H; by apply H). simpl.
    eexists _, _, _, _, src. split; [done|]. split_and!; simpl; try done.
    + repeat split; simpl; try done.
      exists src. split; [|done].
      by rewrite list_lookup_insert_eq by done.
    + unfold remaining. simpl.
      rewrite list_lookup_insert_eq by done. simpl.
      unfold sourceRows. by rewrite Hev.
    + rewrite list_insert_id by done. unfold sharedWeight, streamWeight. simpl. lia.
  - (* blocked *)
    rewrite decide_True by done. simpl.
    eexists _, _, _, _, _. split; [done|]. split_and!; simpl; try done.
    + unfold wfSource in *. simpl. rewrite Hev in Hwf. by inversion Hwf.
    + repeat split; simpl; try done. by rewrite HatEnd.
    + unfold remaining. simpl. rewrite HatEnd.
      rewrite list_lookup_insert_eq by done. simpl.
      unfold sourceRows. simpl. by rewrite Hev.
    + unfold sharedWeight, streamWeight. simpl. rewrite HatEnd.
      pose proof (sourceWeight_consume _ _ _ _ _ Hsrc Hev) as Hsum.
      simpl in Hsum. lia.
    + eauto.
  - (* a batch *)
    rewrite decide_False by (intros H; by apply H). simpl.
    assert (wfBatch (numColumns cfg) d) as Hd.
    { unfold wfSource in Hwf. rewrite Hev in Hwf. by inversion Hwf. }
    destruct Hd as (Hne & Hw & Hcols).
    rewrite bool_decide_false by done.
    destruct (loadKeyColumns_ok cfg d Hkeys Hw) as (kc & Hkc). rewrite Hkc. simpl.
    eexists _, _, _, _, _. split; [done|]. split_and!; simpl; try done.
    + unfold wfSource in *. simpl. rewrite Hev in Hwf. by inversion Hwf.
    + repeat split; simpl; try done.
      exists d. rewrite Hfirst, Hcount. split_and!; try done; lia.
    + unfold remaining. simpl.
      rewrite list_lookup_insert_eq by done. simpl.
      unfold sourceRows. simpl. by rewrite Hev.
    + unfold sharedWeight, streamWeight. simpl.
      pose proof (sourceWeight_consume _ _ _ _ _ Hsrc Hev) as Hsum.
      simpl in Hsum. lia.
Qed.

(** ** One row of one stream *)

Lemma streamOk_other cfg sources sources' n n' i s :
  streamOk cfg sources n i s → n ≤ n' → sources' !! i = sources !! i →
  streamOk cfg sources' n' i s.
Proof.
  intros (Hsrc & Hbits & Hsr & Hbound & Hrange & Hphase) Hn Hsame.
  split_and!; try done.
  - intros j Hj. specialize (Hbound j Hj). lia.
  - destruct (atEnd_ s), (needData_ s); try done.
    destruct Hphase as (? & src & ? & ?). split; [done|]. exists src.
    by rewrite Hsame.
Qed.

Lemma remaining_other sources sources' s :
  sources' !! source_ s = sources !! source_ s →
  remaining sources' s = remaining sources s.
Proof. intros H. unfold remaining. by rewrite H. Qed.

Lemma setValid_lookup (rows : list bool) n p :
  n < length rows → (∀ j, rows !! j = Some true → j < n) →
  (<[n := true]> rows !! p = Some true ↔ rows !! p = Some true ∨ p = n).
Proof.
  intros Hn Hbound. destruct (decide (p = n)) as [->|Hne].
  - rewrite list_lookup_insert_eq by done. split; auto.
  - rewrite list_lookup_insert_ne by done. split; [auto|by intros [?|?]].
Qed.

Lemma setValid_fresh (rows : list bool) n :
  n < length rows → (∀ j, rows !! j = Some true → j < n) →
  rows !! n = Some false.
Proof.
  intros Hn Hbound. destruct (lookup_lt_is_Some_2 rows n Hn) as [b Hb].
  destruct b; [|done]. specialize (Hbound n Hb). lia.
Qed.

(** The stream that the tournament returned gives its current row to the
    slot [n]: [setOutputRow], [copyToOutput] at the end of the batch, [pop]. *)
Lemma emit_stream cfg sources futures n i s src out :
  keysInRange cfg →
  streamOk cfg sources n i s → needData_ s = false → atEnd_ s = false →
  n < outputBatchSize_ cfg → outputOk cfg out →
  sources !! i = Some src → wfSource (numColumns cfg) src →
  ∃ d s1 last out1 s2 sources' futures' s3 b src',
    data_ s = Some d ∧ currentSourceRow_ s < rvSize d ∧
    setOutputRow s n = Ok (s1, last) ∧
    (if last : bool then copyToOutput (Some out) s1 else Ok (Some out, s1))
      = Ok (Some out1, s2) ∧
    pop (sortingKeys_ cfg) (sources, futures) s2 = Ok (sources', futures', s3, b) ∧
    outputOk cfg out1 ∧
    sources' = <[i := src']> sources ∧ wfSource (numColumns cfg) src' ∧
    streamOk cfg sources' (S n) i s3 ∧
    remaining sources s = rowAt d (currentSourceRow_ s) :: remaining sources' s3 ∧
    sharedWeight (sources', futures') + streamWeight s3 <
      sharedWeight (sources, futures) + streamWeight s ∧
    (needData_ s3 = false → futures' = futures) ∧
    (needData_ s3 = true → futures' ≠ []) ∧
    (last = false →
       out1 = out ∧ data_ s3 = Some d ∧
       firstSourceRow_ s3 = firstSourceRow_ s ∧
       bits_ (outputRows_ s3) = <[n := true]> (bits_ (outputRows_ s))) ∧
    (last = true →
       (∀ p, bits_ (outputRows_ s3) !! p ≠ Some true) ∧
       ∀ p, rowAt out1 p =
         if decide (<[n := true]> (bits_ (outputRows_ s)) !! p = Some true)
         then rowAt d
                (firstSourceRow_ s + rank (<[n := true]> (bits_ (outputRows_ s))) p)
         else rowAt out p).
Proof.
  intros Hkeys (Hsrc & Hbits & Hsr & Hbound & Hrange & Hphase)
    Hneed Hend Hn Hout Hlook Hwf.
  rewrite Hneed, Hend in Hphase.
  destruct Hphase as (d & Hd & Hwfd & Hcur & Hfirst & Hcount & Hkc).
  pose proof (setValid_fresh (bits_ (outputRows_ s)) n ltac:(lia) Hbound) as Hfresh.
  pose proof (countSel_insert_true _ _ Hfresh) as Hcount1.
  assert (setOutputRow s n =
    Ok (mkSourceStream (source_ s) (needData_ s) (atEnd_ s) (data_ s)
          (currentSourceRow_ s) (firstSourceRow_ s) (keyColumns_ s)
          (setValid (outputRows_ s) n true) (sourceRows_ s),
        bool_decide (S (currentSourceRow_ s) = rvSize d))) as Hset.
  { unfold setOutputRow. rewrite Hd. do 2 f_equal. apply bool_decide_ext. lia. }
  exists d. destruct (decide (S (currentSourceRow_ s) = rvSize d)) as [Hlast|Hlast].
  - (* the last row of the batch *)
    rewrite bool_decide_true in Hset by done.
    destruct (copyToOutput_sel cfg out
      (mkSourceStream (source_ s) (needData_ s) (atEnd_ s) (data_ s)
         (currentSourceRow_ s) (firstSourceRow_ s) (keyColumns_ s)
         (setValid (outputRows_ s) n true) (sourceRows_ s)) d)
      as (out1 & sr & Hcopy & Hsrlen & Hout1 & Hrows); simpl; try done.
    { by destruct Hwfd as (_ & ? & _). }
    { by rewrite length_insert. }
    { rewrite Hcount1. lia. }
    simpl in Hcopy, Hrows.
    rewrite Hcount1 in Hcopy.
    rewrite (bool_decide_true (_ + _ = _)) in Hcopy by lia.
    destruct (fetchMoreData_spec cfg sources futures
      (mkSourceStream (source_ s) (needData_ s) (atEnd_ s) (data_ s)
         (S (currentSourceRow_ s)) 0 (keyColumns_ s)
         (clearAll (setValid (outputRows_ s) n true)) sr) src (S n))
      as (sources' & futures' & s3 & b & src' & Hfetch & Hsources & Hwf' & Hok3
          & Hbits3 & Hrem3 & Hweight & Hb & Hfut & Hfut'); simpl; try done.
    { by rewrite Hsrc. }
    { by rewrite length_replicate, length_insert. }
    { apply countSel_replicate. }
    simpl in Hsources, Hok3, Hbits3.
    eexists _, true, out1, _, sources', futures', s3, b, src'.
    split_and!; try done.
    + unfold pop. simpl. rewrite Hd.
      rewrite bool_decide_true by done. done.
    + by rewrite <- Hsrc.
    + by rewrite <- Hsrc.
    + unfold remaining at 1. rewrite Hend, Hneed, Hd, Hsrc, Hlook. simpl.
      rewrite Hrem3.
      rewrite (drop_S _ _ _ (rowsOf_lookup d _ Hcur)).
      rewrite drop_ge by (rewrite rowsOf_length; lia). done.
    + unfold streamWeight at 2. rewrite Hend, Hneed, Hd. lia.
    + intros Hn3. apply Hfut. congruence.
    + intros Hn3. destruct Hfut' as [f ->]; [congruence|done].
    + intros _. split; [|done]. intros p. rewrite Hbits3.
      apply clearAll_lookup.
  - (* inside the batch *)
    rewrite bool_decide_false in Hset by done.
    eexists _, false, out, _, _, _, _, _, src. split_and!; try done.
    + unfold pop. simpl. rewrite Hd. rewrite bool_decide_false by done.
      by rewrite list_insert_id.
    + split_and!; simpl; try done.
      * by rewrite length_insert.
      * intros j Hj.
        apply setValid_lookup in Hj; [|lia|done].
        destruct Hj as [Hj| ->]; [specialize (Hbound j Hj)|]; lia.
      * rewrite Hend, Hneed. exists d. rewrite Hcount1.
        split_and!; try done; lia.
    + unfold remaining. simpl. rewrite Hend, Hneed, Hd. simpl.
      rewrite (drop_S _ _ _ (rowsOf_lookup d _ Hcur)).
      by rewrite list_insert_id.
    + unfold streamWeight, sharedWeight. simpl. rewrite Hend, Hneed, Hd.
      rewrite list_insert_id by done. lia.
    + simpl. by rewrite Hneed.
    + done.
Qed.

(** ** The slots of the output batch *)

Lemma slotsDisjoint_clear streams k s3 :
  slotsDisjoint streams → (∀ p, bits_ (outputRows_ s3) !! p ≠ Some true) →
  slotsDisjoint (<[k := s3]> streams).
Proof.
  intros Hdis Hclear i1 i2 s1 s2 j H1 H2 Hb1 Hb2.
  destruct (decide (i1 = k)) as [->|Hne1].
  { apply list_lookup_insert_Some in H1 as [(_ & <- & _)|(? & _)]; [|done].
    by destruct (Hclear j). }
  destruct (decide (i2 = k)) as [->|Hne2].
  { apply list_lookup_insert_Some in H2 as [(_ & <- & _)|(? & _)]; [|done].
    by destruct (Hclear j). }
  rewrite list_lookup_insert_ne in H1, H2 by done. eauto.
Qed.

Lemma slotsDisjoint_mark streams k s s3 n :
  slotsDisjoint streams → streams !! k = Some s →
  (∀ i t j, streams !! i = Some t → bits_ (outputRows_ t) !! j = Some true → j < n) →
  n < length (bits_ (outputRows_ s)) →
  bits_ (outputRows_ s3) = <[n := true]> (bits_ (outputRows_ s)) →
  slotsDisjoint (<[k := s3]> streams).
Proof.
  intros Hdis Hk Hbound Hn Hbits i1 i2 s1 s2 j H1 H2 Hb1 Hb2.
  assert (∀ i t, i ≠ k → <[k := s3]> streams !! i = Some t →
    bits_ (outputRows_ t) !! j = Some true →
    streams !! i = Some t ∧ j < n) as Hother.
  { intros i t Hne Hi Hb. rewrite list_lookup_insert_ne in Hi by done. eauto. }
  assert (∀ t, <[k := s3]> streams !! k = Some t →
    bits_ (outputRows_ t) !! j = Some true →
    bits_ (outputRows_ s) !! j = Some true ∨ j = n) as Hself.
  { intros t Hi Hb.
    apply list_lookup_insert_Some in Hi as [(_ & <- & _)|(? & _)]; [|done].
    rewrite Hbits in Hb. apply setValid_lookup in Hb; eauto. }
  destruct (decide (i1 = k)) as [->|Hne1], (decide (i2 = k)) as [->|Hne2];
    [done| | |].
  - destruct (Hother _ _ Hne2 H2 Hb2) as [H2' Hlt].
    destruct (Hself _ H1 Hb1) as [Hs| ->]; [|lia].
    symmetry. eapply (Hdis i2 k); eauto.
  - destruct (Hother _ _ Hne1 H1 Hb1) as [H1' Hlt].
    destruct (Hself _ H2 Hb2) as [Hs| ->]; [|lia].
    eapply (Hdis i1 k); eauto.
  - destruct (Hother _ _ Hne1 H1 Hb1) as [H1' _].
    destruct (Hother _ _ Hne2 H2 Hb2) as [H2' _]. eauto.
Qed.

(** A stream whose selection is copied into the output keeps its slots. *)
Lemma slotHolds_flush streams out out1 k s s3 d (bits0 : list bool) j r :
  slotsDisjoint streams → streams !! k = Some s →
  (bits_ (outputRows_ s) !! j = Some true → data_ s = Some d) →
  (∀ p, bits_ (outputRows_ s3) !! p ≠ Some true) →
  (rowAt out1 j =
     if decide (bits0 !! j = Some true)
     then rowAt d (firstSourceRow_ s + rank bits0 j) else rowAt out j) →
  (bits0 !! j = Some true ↔ bits_ (outputRows_ s) !! j = Some true) →
  rank bits0 j = rank (bits_ (outputRows_ s)) j →
  slotHolds streams (Some out) j r →
  slotHolds (<[k := s3]> streams) (Some out1) j r.
Proof.
  intros Hdis Hk Hd Hclear Hrow Hiff Hrank [(i & t & dt & Hi & Hb & Hdt & ->)|(Hnone & o & Ho & ->)].
  - destruct (decide (i = k)) as [->|Hne].
    + right. rewrite Hk in Hi. injection Hi as <-.
      specialize (Hd Hb). rewrite Hd in Hdt. injection Hdt as <-. split.
      * intros i' t' Hi' Hb'.
        destruct (decide (i' = k)) as [->|Hne'].
        -- apply list_lookup_insert_Some in Hi' as [(_ & <- & _)|(? & _)]; [|done].
           by destruct (Hclear j).
        -- rewrite list_lookup_insert_ne in Hi' by done.
           apply Hne'. eapply (Hdis i' k); eauto.
      * exists out1. split; [done|]. rewrite Hrow.
        rewrite decide_True by (by apply Hiff). by rewrite Hrank.
    + left. exists i, t, dt. split_and!; try done.
      by rewrite list_lookup_insert_ne by done.
  - right. injection Ho as <-. split.
    + intros i' t' Hi' Hb'.
      destruct (decide (i' = k)) as [->|Hne'].
      * apply list_lookup_insert_Some in Hi' as [(_ & <- & _)|(? & _)]; [|done].
        by destruct (Hclear j).
      * rewrite list_lookup_insert_ne in Hi' by done. by eapply Hnone.
    + exists out1. split; [done|]. rewrite Hrow.
      rewrite decide_False; [done|]. intros Hb%Hiff. by eapply Hnone.
Qed.

(** A stream that only changes its selection above a slot, or not at all,
    keeps the slot. *)
Lemma slotHolds_keep streams output k s s3 j r :
  streams !! k = Some s →
  data_ s3 = data_ s → firstSourceRow_ s3 = firstSourceRow_ s →
  (bits_ (outputRows_ s3) !! j = Some true ↔ bits_ (outputRows_ s) !! j = Some true) →
  rank (bits_ (outputRows_ s3)) j = rank (bits_ (outputRows_ s)) j →
  slotHolds streams output j r →
  slotHolds (<[k := s3]> streams) output j r.
Proof.
  intros Hk Hd Hf Hiff Hrank [(i & t & dt & Hi & Hb & Hdt & ->)|(Hnone & o & Ho & ->)].
  - left. destruct (decide (i = k)) as [->|Hne].
    + rewrite Hk in Hi. injection Hi as <-.
      exists k, s3, dt. split_and!.
      * apply list_lookup_insert_eq. by eapply lookup_lt_Some.
      * by apply Hiff.
      * by rewrite Hd.
      * by rewrite Hf, Hrank.
    + exists i, t, dt. split_and!; try done.
      by rewrite list_lookup_insert_ne by done.
  - right. split; [|eauto].
    intros i' t' Hi' Hb'.
    destruct (decide (i' = k)) as [->|Hne'].
    + apply list_lookup_insert_Some in Hi' as [(_ & <- & _)|(? & _)]; [|done].
      apply Hiff in Hb'. by eapply Hnone.
    + rewrite list_lookup_insert_ne in Hi' by done. by eapply Hnone.
Qed.

Ltac unfold_with :=
  unfold withShared, withFutures, withSources, withStreams, withOutput,
    withOutputSize, withFinished, withTree, withNumStarted, withNoMoreSplits,
    withRemoteTaskIds, shared in *; simpl in *.

(** ** The tournament picks the head of the merge *)

Lemma remaining_phase cfg sources n i s :
  streamOk cfg sources n i s → needData_ s = false →
  (atEnd_ s = true ∧ remaining sources s = [] ∧ countSel (bits_ (outputRows_ s)) = 0) ∨
  (atEnd_ s = false ∧ ∃ d rest,
     data_ s = Some d ∧
     loadKeyColumns (sortingKeys_ cfg) d = Ok (keyColumns_ s) ∧
     currentSourceRow_ s < rvSize d ∧
     remaining sources s = rowAt d (currentSourceRow_ s) :: rest).
Proof.
  intros (Hsrc & _ & _ & _ & _ & Hphase) Hneed. rewrite Hneed in Hphase.
  unfold remaining. rewrite Hneed.
  destruct (atEnd_ s).
  - left. destruct Hphase as (? & src & Hsrc' & Hev). split_and!; [done| |done].
    rewrite Hsrc, Hsrc'. simpl. unfold sourceRows. by rewrite Hev.
  - right. destruct Hphase as (d & Hd & _ & Hcur & _ & _ & Hkc). split; [done|].
    rewrite Hd. eexists d, _. split_and!; try done.
    by rewrite (drop_S _ _ _ (rowsOf_lookup d _ Hcur)).
Qed.

Lemma less_rowLess keys s t ds dt :
  data_ s = Some ds → data_ t = Some dt →
  loadKeyColumns keys ds = Ok (keyColumns_ s) →
  loadKeyColumns keys dt = Ok (keyColumns_ t) →
  less keys s t =
    rowLess keys (rowAt ds (currentSourceRow_ s)) (rowAt dt (currentSourceRow_ t)).
Proof.
  intros _ _ Hs Ht. unfold less, rowLess.
  by eapply (lessFrom_rowCompare keys ds dt) with (pre := []).
Qed.

Section tournament.
Context (cfg : MergeConfig) (sources : list MergeSource) (n : nat)
  (streams : list SourceStream).
Hypothesis Hok : ∀ i s, streams !! i = Some s →
  streamOk cfg sources n i s ∧ needData_ s = false.

Lemma treeStep_pickStep best i :
  validBest streams best →
  treeStep (sortingKeys_ cfg) streams best i =
    pickStep (sortingKeys_ cfg) (remaining sources <$> streams) best i ∧
  validBest streams (treeStep (sortingKeys_ cfg) streams best i).
Proof.
  intros Hbest. unfold treeStep, pickStep.
  rewrite list_lookup_fmap.
  destruct (streams !! i) as [s|] eqn:Hi; simpl; [|done].
  destruct (Hok i s Hi) as [Hs Hneed].
  destruct (remaining_phase _ _ _ _ _ Hs Hneed)
    as [(Hend & -> & _)|(Hend & d & rest & Hd & Hkc & Hcur & ->)];
    unfold hasData; rewrite Hend; simpl; [done|].
  destruct best as [j|]; [|split; [done|]; intros ? [= <-]; eauto].
  destruct (Hbest j eq_refl) as (t & Hj & Hendt).
  rewrite list_lookup_fmap, Hj. simpl.
  destruct (Hok j t Hj) as [Ht Hneedt].
  destruct (remaining_phase _ _ _ _ _ Ht Hneedt)
    as [(Hend' & _)|(_ & dt & restt & Hdt & Hkct & Hcurt & ->)]; [congruence|].
  rewrite (less_rowLess _ s t d dt) by done.
  split; [done|].
  destruct (rowLess _ _ _); intros ? [= <-]; eauto.
Qed.

Lemma treeFold_pickFold l best :
  validBest streams best →
  foldl (treeStep (sortingKeys_ cfg) streams) best l =
    foldl (pickStep (sortingKeys_ cfg) (remaining sources <$> streams)) best l.
Proof.
  revert best. induction l as [|i l IH]; intros best Hbest; simpl; [done|].
  destruct (treeStep_pickStep best i Hbest) as [<- Hv]. by apply IH.
Qed.

Lemma treeNext_pickMin :
  treeNext (sortingKeys_ cfg) (mkTreeOfLosers (seq 0 (length streams))) streams =
    pickMin (sortingKeys_ cfg) (remaining sources <$> streams).
Proof.
  unfold treeNext, pickMin. simpl. rewrite length_fmap.
  apply treeFold_pickFold. by intros j.
Qed.
End tournament.

Lemma remainders_update sources (streams : list SourceStream) i s3 src' :
  (∀ k t, streams !! k = Some t → source_ t = k) →
  remaining (<[i := src']> sources) <$> <[i := s3]> streams =
    <[i := remaining (<[i := src']> sources) s3]> (remaining sources <$> streams).
Proof.
  intros Hidx. rewrite list_fmap_insert.
  apply list_eq. intros k. rewrite !list_lookup_insert, !length_fmap.
  case_decide as Hk; [done|].
  rewrite !list_lookup_fmap.
  destruct (streams !! k) as [t|] eqn:Ht; simpl; [|done].
  f_equal. apply remaining_other. rewrite (Hidx k t Ht).
  rewrite list_lookup_insert_ne; [done|].
  intros ->. apply Hk. split; [done|]. by eapply lookup_lt_Some.
Qed.

(** ** One round of the loop of [getOutput] *)

Lemma MergeInv_bound cfg m P k t j :
  MergeInv cfg m P → streams_ m !! k = Some t →
  bits_ (outputRows_ t) !! j = Some true → j < length P.
Proof.
  intros Hinv Hk Hj. destruct (inv_stream _ _ _ Hinv k t Hk) as (_ & _ & _ & Hb & _).
  by apply Hb.
Qed.

Lemma MergeInv_index cfg m P k t :
  MergeInv cfg m P → streams_ m !! k = Some t → source_ t = k.
Proof.
  intros Hinv Hk. by destruct (inv_stream _ _ _ Hinv k t Hk) as (? & _).
Qed.

Lemma MergeInv_source cfg m P k t :
  MergeInv cfg m P → streams_ m !! k = Some t →
  ∃ src, sources_ m !! k = Some src ∧ wfSource (numColumns cfg) src.
Proof.
  intros Hinv Hk.
  destruct (lookup_lt_is_Some_2 (sources_ m) k) as [src Hsrc].
  { rewrite <- (inv_streams _ _ _ Hinv). by eapply lookup_lt_Some. }
  exists src. split; [done|].
  by eapply (Forall_lookup_1 _ _ _ _ (inv_sources _ _ _ Hinv)).
Qed.

Lemma emit_merge cfg m P i s out :
  keysInRange cfg → MergeInv cfg m P → allFetched m →
  length P < outputBatchSize_ cfg → output_ m = Some out →
  streams_ m !! i = Some s → atEnd_ s = false →
  ∃ d s1 last out1 s2 sh s3 b,
    data_ s = Some d ∧
    setOutputRow s (outputSize_ m) = Ok (s1, last) ∧
    (if last : bool then copyToOutput (output_ m) s1 else Ok (output_ m, s1))
      = Ok (Some out1, s2) ∧
    pop (sortingKeys_ cfg) (shared m) s2 = Ok (sh, s3, b) ∧
    let m1 :=
      withShared sh
        (withStreams (<[i := s3]> (streams_ m))
           (withOutputSize (S (outputSize_ m)) (withOutput (Some out1) m))) in
    let row := rowAt d (currentSourceRow_ s) in
    MergeInv cfg m1 (P ++ [row]) ∧
    length (sources_ m1) = length (sources_ m) ∧
    remainders m !! i = Some (row :: remaining (sources_ m1) s3) ∧
    remainders m1 = <[i := remaining (sources_ m1) s3]> (remainders m) ∧
    measure m1 < measure m ∧
    (sourceBlockingFutures_ m1 = [] → allFetched m1).
Proof.
  intros Hkeys Hinv [Hfut Hneed] Hroom Hout Hi Hend.
  pose proof (inv_stream _ _ _ Hinv i s Hi) as Hs.
  destruct (MergeInv_source _ _ _ _ _ Hinv Hi) as (src & Hsrc & Hwf).
  pose proof (Hneed i s Hi) as Hneeds.
  destruct (emit_stream cfg (sources_ m) (sourceBlockingFutures_ m) (length P)
              i s src out Hkeys Hs Hneeds Hend Hroom
              (inv_output _ _ _ Hinv out Hout) Hsrc Hwf)
    as (d & s1 & last & out1 & s2 & sources' & futures' & s3 & b & src'
        & Hd & Hcur & Hset & Hcopy & Hpop & Hout1 & Hsources & Hwf' & Hok3
        & Hrem & Hweight & Hfut3 & Hfut3' & Hin & Hlast).
  destruct Hs as (Hidx & Hbits & Hsr & Hbound & Hrange & Hphase).
  rewrite Hneeds, Hend in Hphase.
  destruct Hphase as (d' & Hd' & _ & _ & Hfirst & Hcount & _).
  rewrite Hd in Hd'. injection Hd' as <-.
  set (n := length P) in *.
  assert (rank (<[n := true]> (bits_ (outputRows_ s))) n = countSel (bits_ (outputRows_ s))) as Hrank_n.
  { rewrite rank_insert_le by done. by apply rank_all. }
  assert (<[n := true]> (bits_ (outputRows_ s)) !! n = Some true) as Hbit_n.
  { apply list_lookup_insert_eq. lia. }
  exists d, s1, last, out1, s2, (sources', futures'), s3, b.
  rewrite (inv_size _ _ _ Hinv), Hout. fold n.
  split_and!; try done. cbv zeta. split_and!.
  - (* the invariant *)
    unfold_with. subst sources'. split; simpl.
    + pose proof (inv_installed _ _ _ Hinv) as Hinst. unfold installed in *.
      destruct (mergeKind cfg); simpl in *; [|done].
      intros Hnil. apply (f_equal length) in Hnil.
      rewrite length_insert in Hnil. apply length_zero_iff_nil in Hnil. done.
    + rewrite length_insert. apply (inv_tree _ _ _ Hinv).
    + rewrite !length_insert. apply (inv_streams _ _ _ Hinv).
    + intros Hnil. apply (f_equal length) in Hnil.
      rewrite length_insert in Hnil. apply length_zero_iff_nil in Hnil.
      by apply (inv_nonempty _ _ _ Hinv).
    + rewrite length_insert. apply (inv_started _ _ _ Hinv).
    + apply (inv_running _ _ _ Hinv).
    + rewrite length_app. simpl. lia.
    + rewrite length_app. simpl. lia.
    + intros k t Hk. rewrite length_app. simpl.
      replace (length P + 1) with (S n) by lia.
      destruct (decide (k = i)) as [->|Hne].
      * apply list_lookup_insert_Some in Hk as [(_ & <- & _)|(? & _)]; done.
      * rewrite list_lookup_insert_ne in Hk by done.
        eapply streamOk_other; [by apply (inv_stream _ _ _ Hinv)|lia|].
        by rewrite list_lookup_insert_ne by done.
    + apply Forall_insert; [apply (inv_sources _ _ _ Hinv)|done].
    + destruct last.
      * destruct (Hlast eq_refl) as [Hclear _].
        by apply slotsDisjoint_clear; [apply (inv_disjoint _ _ _ Hinv)|].
      * destruct (Hin eq_refl) as (_ & _ & _ & Hbits3).
        apply (slotsDisjoint_mark _ i s s3 n (inv_disjoint _ _ _ Hinv) Hi);
          [|lia|done].
        intros k t j Hk Hj. by eapply MergeInv_bound.
    + intros j r Hj.
      assert (j < n ∧ P !! j = Some r ∨ j = n ∧ r = rowAt d (currentSourceRow_ s))
        as [[Hlt HPj]|[-> ->]].
      { apply lookup_app_Some in Hj as [HPj|[Hge Hj]].
        - left. split; [by eapply lookup_lt_Some|done].
        - right. apply list_lookup_singleton_Some in Hj as [Hz <-].
          split; [unfold n; lia|done]. }
      * pose proof (inv_slots _ _ _ Hinv j r HPj) as Hslot. rewrite Hout in Hslot.
        destruct last.
        -- destruct (Hlast eq_refl) as [Hclear Hrows].
           eapply (slotHolds_flush _ out out1 i s s3 d
                     (<[n := true]> (bits_ (outputRows_ s))));
             [apply (inv_disjoint _ _ _ Hinv)|done|done|done|apply Hrows| | |done].
           ++ by rewrite list_lookup_insert_ne by lia.
           ++ apply rank_insert_le. lia.
        -- destruct (Hin eq_refl) as (-> & Hd3 & Hf3 & Hbits3).
           eapply slotHolds_keep; [done|congruence|done| | |done].
           ++ rewrite Hbits3. by rewrite list_lookup_insert_ne by lia.
           ++ rewrite Hbits3. apply rank_insert_le. lia.
      * destruct last.
        -- destruct (Hlast eq_refl) as [Hclear Hrows]. right. split.
           ++ intros k t Hk Hb.
              destruct (decide (k = i)) as [->|Hne].
              ** apply list_lookup_insert_Some in Hk as [(_ & <- & _)|(? & _)];
                   [|done]. by destruct (Hclear n).
              ** rewrite list_lookup_insert_ne in Hk by done.
                 pose proof (MergeInv_bound _ _ _ _ _ _ Hinv Hk Hb). lia.
           ++ exists out1. split; [done|]. rewrite Hrows.
              rewrite decide_True by done. rewrite Hrank_n, Hcount.
              f_equal. lia.
        -- destruct (Hin eq_refl) as (-> & Hd3 & Hf3 & Hbits3). left.
           exists i, s3, d. split_and!.
           ++ apply list_lookup_insert_eq. by eapply lookup_lt_Some.
           ++ by rewrite Hbits3.
           ++ done.
           ++ rewrite Hbits3, Hf3, Hrank_n, Hcount. f_equal. lia.
    + intros o [= <-]. done.
  - unfold_with. subst sources'. by rewrite length_insert.
  - (* the head of the stream *)
    unfold_with. unfold remainders. rewrite list_lookup_fmap, Hi. simpl.
    by rewrite Hrem.
  - (* the other streams *)
    unfold_with. unfold remainders. simpl. subst sources'.
    apply remainders_update. intros k t Hk. by eapply MergeInv_index.
  - (* the measure *)
    unfold_with. unfold measure. unfold_with.
    pose proof (sum_list_insert streamWeight (streams_ m) i s s3 Hi). lia.
  - (* every stream has fetched *)
    unfold_with. intros Hnil. split; [done|]. simpl.
    intros k t Hk.
    destruct (decide (k = i)) as [->|Hne].
    + apply list_lookup_insert_Some in Hk as [(_ & <- & _)|(? & _)]; [|done].
      destruct (needData_ s3) eqn:Hn3; [|done]. by destruct (Hfut3' eq_refl).
    + rewrite list_lookup_insert_ne in Hk by done. by eapply Hneed.
Qed.

(** ** Copying out all streams when the batch is full *)

Lemma streamOk_clear cfg sources n k s :
  streamOk cfg sources n k s → countSel (bits_ (outputRows_ s)) = 0 →
  streamOk cfg sources 0 k s.
Proof.
  intros (? & ? & ? & _ & ? & ?) Hc. split_and!; try done.
  intros j Hj. by apply countSel_zero in Hj.
Qed.

Lemma copy_one cfg sources n streams k s out :
  streams !! k = Some s → streamOk cfg sources n k s →
  slotsDisjoint streams → outputOk cfg out →
  ∃ out' s',
    copyToOutput (Some out) s = Ok (Some out', s') ∧ outputOk cfg out' ∧
    streamOk cfg sources 0 k s' ∧ countSel (bits_ (outputRows_ s')) = 0 ∧
    needData_ s' = needData_ s ∧
    remaining sources s' = remaining sources s ∧
    streamWeight s' = streamWeight s ∧
    slotsDisjoint (<[k := s']> streams) ∧
    ∀ j r, slotHolds streams (Some out) j r →
      slotHolds (<[k := s']> streams) (Some out') j r.
Proof.
  intros Hk Hs Hdis Hout.
  destruct (decide (countSel (bits_ (outputRows_ s)) = 0)) as [Hc|Hc].
  - exists out, s.
    rewrite copyToOutput_nosel by (done || by destruct Hs as (_ & _ & _ & _ & ? & _)).
    rewrite list_insert_id by done. split_and!; try done.
    by eapply streamOk_clear.
  - pose proof Hs as (Hidx & Hbits & Hsr & Hbound & Hrange & Hphase).
    destruct (atEnd_ s) eqn:Hend, (needData_ s) eqn:Hneed;
      try done; try (by destruct Hphase).
    destruct Hphase as (d & Hd & Hwfd & Hcur & Hfirst & Hcount & Hkc).
    destruct (copyToOutput_sel cfg out s d)
      as (out' & sr & Hcopy & Hsrlen & Hout' & Hrows); try done.
    { by destruct Hwfd as (_ & ? & _). }
    rewrite bool_decide_false in Hcopy by lia.
    eexists out', _. split; [exact Hcopy|].
    assert (∀ p, bits_ (clearAll (outputRows_ s)) !! p ≠ Some true) as Hclear
      by apply clearAll_lookup.
    split_and!; simpl; try done.
    + split_and!; simpl; try done.
      * rewrite length_replicate. exact Hbits.
      * intros j Hj. by destruct (Hclear j).
      * rewrite Hend, Hneed. exists d. rewrite countSel_replicate.
        split_and!; try done; lia.
    + apply countSel_replicate.
    + by apply slotsDisjoint_clear.
    + intros j r Hslot.
      by eapply (slotHolds_flush _ out out' k s _ d (bits_ (outputRows_ s))).
Qed.

Lemma copyAll_gen cfg sources n todo : ∀ pre out,
  (∀ k s, (pre ++ todo) !! k = Some s → streamOk cfg sources n k s) →
  (∀ k s, pre !! k = Some s → countSel (bits_ (outputRows_ s)) = 0) →
  slotsDisjoint (pre ++ todo) → outputOk cfg out →
  ∃ out' todo',
    copyAllToOutput (Some out) todo = Ok (Some out', todo') ∧
    outputOk cfg out' ∧ length todo' = length todo ∧
    (∀ k s, (pre ++ todo') !! k = Some s →
       streamOk cfg sources 0 k s ∧ countSel (bits_ (outputRows_ s)) = 0) ∧
    needData_ <$> todo' = needData_ <$> todo ∧
    remaining sources <$> todo' = remaining sources <$> todo ∧
    streamWeight <$> todo' = streamWeight <$> todo ∧
    ∀ j r, slotHolds (pre ++ todo) (Some out) j r →
      slotHolds (pre ++ todo') (Some out') j r.
Proof.
  induction todo as [|s rest IH]; intros pre out Hok Hpre Hdis Hout.
  - exists out, []. simpl. split_and!; try done.
    intros k s Hk. rewrite app_nil_r in *. split; [|by eapply Hpre].
    eapply streamOk_clear; eauto.
  - assert ((pre ++ s :: rest) !! length pre = Some s) as Hk
      by (by apply list_lookup_middle).
    destruct (copy_one cfg sources n _ _ s out Hk (Hok _ _ Hk) Hdis Hout)
      as (out1 & s' & Hcopy & Hout1 & Hok' & Hc' & Hneed' & Hrem' & Hw' & Hdis' & Hslots').
    assert (<[length pre := s']> (pre ++ s :: rest) = (pre ++ [s']) ++ rest) as Heq.
    { rewrite insert_app_r_alt by lia. replace (length pre - length pre) with 0 by lia.
      simpl. by rewrite <- app_assoc. }
    rewrite Heq in Hdis', Hslots'.
    destruct (IH (pre ++ [s']) out1) as (out' & rest' & Hall & Hout' & Hlen & Hoks
        & Hneeds & Hrems & Hws & Hslots); try done.
    { intros k t Hkt. rewrite <- Heq in Hkt.
      destruct (decide (k = length pre)) as [->|Hne].
      - apply list_lookup_insert_Some in Hkt as [(_ & <- & _)|(? & _)]; [|done].
        eapply streamOk_other; [exact Hok'|lia|done].
      - rewrite list_lookup_insert_ne in Hkt by done. by apply Hok. }
    { intros k t Hkt. apply lookup_app_Some in Hkt as [Hkt|[_ Hkt]]; [by eapply Hpre|].
      apply list_lookup_singleton_Some in Hkt as [_ <-]. done. }
    assert (∀ l, (pre ++ [s']) ++ l = pre ++ s' :: l) as Happ
      by (intros; by rewrite <- app_assoc).
    rewrite !Happ in Hslots'. setoid_rewrite Happ in Hoks.
    setoid_rewrite Happ in Hslots.
    exists out', (s' :: rest'). split_and!.
    + simpl. rewrite Hcopy. simpl. by rewrite Hall.
    + done.
    + simpl. by rewrite Hlen.
    + done.
    + rewrite !fmap_cons. by rewrite Hneed', Hneeds.
    + rewrite !fmap_cons. by rewrite Hrem', Hrems.
    + rewrite !fmap_cons. by rewrite Hw', Hws.
    + intros j r Hslot. by apply Hslots, Hslots'.
Qed.

Lemma rowAt_rvResize n out j :
  j < n → Forall (λ c : Column, n ≤ length c) (rvChildren out) →
  rowAt (rvResize n out) j = rowAt out j.
Proof.
  intros Hj Hall. unfold rowAt, rvResize. simpl.
  rewrite <- list_fmap_compose. apply Forall_fmap_ext_1.
  eapply Forall_impl; [exact Hall|]. intros c Hc. simpl in *.
  unfold resizeColumn.
  rewrite lookup_total_app_l by (rewrite length_take; lia).
  by rewrite lookup_total_take_lt.
Qed.

Lemma rows_from_slots (P : list Row) o :
  length P = rvSize o → (∀ j r, P !! j = Some r → rowAt o j = r) →
  rowsOf o = P.
Proof.
  intros Hlen Hrows. apply list_eq. intros j.
  destruct (decide (j < rvSize o)) as [Hj|Hj].
  - rewrite rowsOf_lookup by done.
    destruct (lookup_lt_is_Some_2 P j) as [r Hr]; [lia|].
    rewrite Hr. f_equal. by apply Hrows.
  - rewrite !lookup_ge_None_2; [done|lia|rewrite rowsOf_length; lia].
Qed.

(** ** The loop of [getOutput] *)

Lemma slots_all_clear streams out j r :
  (∀ k s, streams !! k = Some s → countSel (bits_ (outputRows_ s)) = 0) →
  slotHolds streams (Some out) j r → rowAt out j = r.
Proof.
  intros Hclear [(i & t & dt & Hi & Hb & _)|(_ & o & [= <-] & ->)]; [|done].
  specialize (Hclear i t Hi). by apply countSel_zero in Hb.
Qed.

Lemma MergeInv_fetched cfg m P i s :
  MergeInv cfg m P → allFetched m → streams_ m !! i = Some s →
  streamOk cfg (sources_ m) (length P) i s ∧ needData_ s = false.
Proof.
  intros Hinv [_ Hneed] Hi. split; [by apply (inv_stream _ _ _ Hinv)|by eapply Hneed].
Qed.

Lemma getOutputStep_spec cfg m P out :
  keysInRange cfg → MergeInv cfg m P → allFetched m →
  length P < outputBatchSize_ cfg → output_ m = Some out →
  ∃ r, getOutputStep cfg m = Ok r ∧
    match r with
    | Continue m' =>
        ∃ row, MergeInv cfg m' (P ++ [row]) ∧ allFetched m' ∧
          length (P ++ [row]) < outputBatchSize_ cfg ∧
          is_Some (output_ m') ∧
          length (sources_ m') = length (sources_ m) ∧
          kWayMerge (sortingKeys_ cfg) (remainders m) =
            row :: kWayMerge (sortingKeys_ cfg) (remainders m') ∧
          measure m' < measure m
    | Return m' o => Outcome cfg m P m' o
    end.
Proof.
  intros Hkeys Hinv Hfetched Hroom Hout.
  unfold getOutputStep. rewrite (inv_tree _ _ _ Hinv).
  rewrite (treeNext_pickMin cfg (sources_ m) (length P))
    by (intros; by eapply MergeInv_fetched).
  fold (remainders m).
  destruct (pickMin (sortingKeys_ cfg) (remainders m)) as [i|] eqn:Hpick.
  - (* a stream has a row *)
    destruct (pickMin_Some _ _ _ Hpick) as (row & rest & Hi & _).
    unfold remainders in Hi. rewrite list_lookup_fmap in Hi.
    destruct (streams_ m !! i) as [s|] eqn:Hs; [|done]. simpl in Hi.
    injection Hi as Hrem.
    destruct (MergeInv_fetched _ _ _ _ _ Hinv Hfetched Hs) as [Hok Hneed].
    assert (atEnd_ s = false) as Hend.
    { destruct (remaining_phase _ _ _ _ _ Hok Hneed) as [(_ & Hnil & _)|(? & _)];
        [congruence|done]. }
    destruct (emit_merge cfg m P i s out Hkeys Hinv Hfetched Hroom Hout Hs Hend)
      as (d & s1 & last & out1 & s2 & sh & s3 & b & Hd & Hset & Hcopy & Hpop
          & Hinv1 & Hcount & Hhead & Hrems & Hmeasure & Hfetched1).
    rewrite Hset. simpl. rewrite Hcopy. simpl. rewrite Hpop. simpl.
    destruct sh as [sources' futures'].
    set (m1 := withShared (sources', futures')
                 (withStreams (<[i:=s3]> (streams_ m))
                    (withOutputSize (S (outputSize_ m)) (withOutput (Some out1) m))))
      in *.
    set (row' := rowAt d (currentSourceRow_ s)) in *.
    assert (kWayMerge (sortingKeys_ cfg) (remainders m) =
            row' :: kWayMerge (sortingKeys_ cfg) (remainders m1)) as Hmerge.
    { rewrite Hrems. by apply kWayMerge_step. }
    assert (length (P ++ [row']) = S (length P)) as Hlen
      by (rewrite length_app; simpl; lia).
    rewrite (inv_size _ _ _ Hinv).
    destruct (decide (S (length P) = outputBatchSize_ cfg)) as [Hfull|Hfull].
    + (* the batch is full *)
      rewrite bool_decide_true by done.
      destruct (copyAll_gen cfg (sources_ m1) (length (P ++ [row']))
                  (streams_ m1) [] out1)
        as (out' & todo' & Hall & Hout' & Hlen' & Hoks & Hneeds & Hremain & Hws & Hslots);
        simpl.
      { intros k t Hk. by apply (inv_stream _ _ _ Hinv1). }
      { intros k t Hk. by rewrite lookup_nil in Hk. }
      { apply (inv_disjoint _ _ _ Hinv1). }
      { by apply (inv_output _ _ _ Hinv1). }
      simpl in Hoks, Hslots.
      replace (streams_ m1) with (<[i:=s3]> (streams_ m)) in Hall by done.
      rewrite Hall. simpl. eexists. split; [done|].
      apply (OutcomeFull _ _ _ _ _ [row'] out'); try done.
      * apply rows_from_slots.
        -- destruct Hout' as (-> & _). lia.
        -- intros j r Hj.
           apply (slots_all_clear todo'); [intros k t Hk; by destruct (Hoks k t Hk)|].
           apply Hslots. by apply (inv_slots _ _ _ Hinv1).
      * unfold_with. split; simpl; try (by apply Hinv1); try done.
        -- rewrite Hlen'. apply (inv_tree _ _ _ Hinv1).
        -- rewrite Hlen'. apply (inv_streams _ _ _ Hinv1).
        -- lia.
        -- intros k t Hk. by apply Hoks.
        -- intros i1 i2 t1 t2 j H1 H2 Hb1 Hb2.
           destruct (Hoks _ _ H1) as [_ Hc]. by apply countSel_zero in Hb1.
      * rewrite Hmerge. simpl. do 2 f_equal.
        unfold remainders. unfold_with. by rewrite Hremain.
      * unfold measure in *. unfold_with. rewrite Hws. done.
    + rewrite bool_decide_false by done.
      assert (sourceBlockingFutures_ m1 = futures') as Hfs by done.
      simpl. destruct futures' as [|f fs].
      * (* go on *)
        rewrite bool_decide_true by done. simpl. eexists. split; [done|].
        exists row'. split_and!; try done; [apply Hfetched1; reflexivity|lia].
      * (* a stream waits for its source *)
        rewrite bool_decide_false by done. simpl. eexists. split; [done|].
        apply (OutcomeBlocked _ _ _ _ _ [row']); try done. lia.
  - (* every stream is drained *)
    pose proof (kWayMerge_done _ _ Hpick) as Hmerge.
    assert (∀ k s, streams_ m !! k = Some s → countSel (bits_ (outputRows_ s)) = 0)
      as Hclear.
    { intros k s Hk.
      destruct (MergeInv_fetched _ _ _ _ _ Hinv Hfetched Hk) as [Hok Hneed].
      destruct (remaining_phase _ _ _ _ _ Hok Hneed)
        as [(_ & _ & ?)|(_ & d & rest & _ & _ & _ & Hrem)]; [done|].
      assert (remainders m !! k = Some (remaining (sources_ m) s)) as Hrk
        by (unfold remainders; by rewrite list_lookup_fmap, Hk).
      rewrite (pickMin_None _ _ _ _ Hpick Hrk) in Hrem. done. }
    unfold_with. rewrite (inv_size _ _ _ Hinv), Hout.
    destruct P as [|r0 P'] eqn:HP.
    + rewrite bool_decide_true by done. eexists. split; [done|].
      apply (OutcomeDone _ _ _ _ _ []); try done.
    + rewrite bool_decide_false by done. eexists. split; [done|].
      apply (OutcomeDone _ _ _ _ _ []); try done.
      { rewrite app_nil_r. done. }
      rewrite app_nil_r. simpl. split_and!; [|done|lia].
      apply rows_from_slots; [done|].
      intros j r Hj.
      pose proof (inv_slots _ _ _ Hinv j r Hj) as Hslot. rewrite Hout in Hslot.
      rewrite rowAt_rvResize.
      * by eapply slots_all_clear.
      * apply (lookup_lt_Some _ _ _ Hj).
      * destruct (inv_output _ _ _ Hinv out Hout) as (_ & _ & Hcols).
        eapply Forall_impl; [exact Hcols|]. simpl. intros c ->. simpl in Hroom. lia.
Qed.

Lemma Outcome_cons cfg m m1 P row m' o :
  length (sources_ m1) = length (sources_ m) →
  kWayMerge (sortingKeys_ cfg) (remainders m) =
    row :: kWayMerge (sortingKeys_ cfg) (remainders m1) →
  measure m1 < measure m →
  Outcome cfg m1 (P ++ [row]) m' o → Outcome cfg m P m' o.
Proof.
  intros Hcount Hmerge Hmeasure [rows o' -> Hok Hrows Hinv Hc Hm Hlt
                         |rows -> Hinv Hc Hroom Hm Hlt
                         |rows Hfin Hm Hroom Hout].
  - apply (OutcomeFull _ _ _ _ _ (row :: rows) o'); try done.
    + by rewrite Hrows, <- app_assoc.
    + congruence.
    + by rewrite Hmerge, Hm.
    + lia.
  - apply (OutcomeBlocked _ _ _ _ _ (row :: rows)); try done.
    + by rewrite cons_middle, app_assoc.
    + congruence.
    + by rewrite cons_middle, app_assoc.
    + by rewrite Hmerge, Hm.
    + lia.
  - apply (OutcomeDone _ _ _ _ _ (row :: rows)); try done.
    + by rewrite Hmerge, Hm.
    + by rewrite cons_middle, app_assoc.
    + by rewrite cons_middle, app_assoc.
Qed.

Lemma getOutputLoop_spec cfg fuel : ∀ m P out,
  keysInRange cfg → MergeInv cfg m P → allFetched m →
  output_ m = Some out → fuel = outputBatchSize_ cfg - length P →
  length P < outputBatchSize_ cfg →
  ∃ m' o, getOutputLoop cfg fuel m = Ok (m', o) ∧ Outcome cfg m P m' o.
Proof.
  induction fuel as [|fuel IH]; intros m P out Hkeys Hinv Hfetched Hout Hfuel Hroom;
    [lia|].
  destruct (getOutputStep_spec cfg m P out Hkeys Hinv Hfetched Hroom Hout)
    as (r & Hstep & Hpost).
  simpl. rewrite Hstep. simpl. destruct r as [m1|m1 o]; [|eauto].
  destruct Hpost as (row & Hinv1 & Hfetched1 & Hroom1 & [out1 Hout1] & Hcount
                     & Hmerge & Hlt).
  destruct (IH m1 (P ++ [row]) out1) as (m' & o & Hloop & Houtcome); try done.
  { rewrite length_app. simpl. lia. }
  exists m', o. split; [done|]. by eapply Outcome_cons.
Qed.

Lemma slotHolds_allocate streams out j r :
  slotHolds streams None j r → slotHolds streams (Some out) j r.
Proof.
  intros [Hl|(_ & o & Ho & _)]; [by left|done].
Qed.

(** The merging part of [getOutput], from a state where every stream has
    fetched. *)
Lemma mergeBatch_spec cfg m P :
  keysInRange cfg → MergeInv cfg m P → allFetched m →
  length P < outputBatchSize_ cfg →
  ∃ m' o, mergeBatch cfg m = Ok (m', o) ∧ Outcome cfg m P m' o.
Proof.
  intros Hkeys Hinv Hfetched Hroom. unfold mergeBatch, allocateOutput.
  destruct (output_ m) as [out|] eqn:Hout.
  - rewrite (inv_size _ _ _ Hinv). by eapply getOutputLoop_spec.
  - set (out := createRowVector (numColumns cfg) (outputBatchSize_ cfg)).
    set (m1 := withOutput (Some out) m).
    assert (MergeInv cfg m1 P) as Hinv1.
    { destruct Hinv. split; unfold m1; unfold_with; try done.
      - intros j r Hj. apply slotHolds_allocate. rewrite <- Hout. eauto.
      - intros o [= <-]. unfold outputOk, out, createRowVector. simpl.
        split_and!; [done|by rewrite length_replicate|].
        apply Forall_replicate. by rewrite length_replicate. }
    destruct (getOutputLoop_spec cfg (outputBatchSize_ cfg - length P) m1 P out)
      as (m' & o & Hloop & Houtcome); try done.
    replace (outputSize_ m1) with (length P) by (symmetry; apply (inv_size _ _ _ Hinv)).
    exists m', o. split; [done|].
    destruct Houtcome as [rows o' -> Hok Hrows Hinv' Hc Hm Hlt
                         |rows -> Hinv' Hc Hroom' Hm Hlt
                         |rows Hfin Hm Hroom' Ho].
    + by eapply OutcomeFull.
    + by eapply OutcomeBlocked.
    + by eapply OutcomeDone.
Qed.

(** ** Asking the cursors whether they are blocked *)

Lemma slotHolds_idle streams output k s s' j r :
  streams !! k = Some s →
  (∀ p, bits_ (outputRows_ s) !! p ≠ Some true) →
  (∀ p, bits_ (outputRows_ s') !! p ≠ Some true) →
  slotHolds streams output j r → slotHolds (<[k := s']> streams) output j r.
Proof.
  intros Hk Hs Hs' [(i & t & dt & Hi & Hb & Hdt & ->)|(Hnone & Hout)].
  - left. exists i, t, dt. split_and!; try done.
    rewrite list_lookup_insert_ne; [done|]. intros ->.
    rewrite Hk in Hi. injection Hi as <-. by destruct (Hs j).
  - right. split; [|done]. intros i t Hi Hb.
    destruct (decide (i = k)) as [->|Hne].
    + apply list_lookup_insert_Some in Hi as [(_ & <- & _)|(? & _)]; [|done].
      by destruct (Hs' j).
    + rewrite list_lookup_insert_ne in Hi by done. by eapply Hnone.
Qed.

Lemma poll_one cfg sources futures n streams k s :
  keysInRange cfg → streams !! k = Some s → streamOk cfg sources n k s →
  Forall (wfSource (numColumns cfg)) sources → k < length sources →
  slotsDisjoint streams →
  ∃ sources' futures' s' b src',
    streamIsBlocked (sortingKeys_ cfg) (sources, futures) s =
      Ok (sources', futures', s', b) ∧
    sources' = <[k := src']> sources ∧ wfSource (numColumns cfg) src' ∧
    streamOk cfg sources' n k s' ∧
    remaining sources' s' = remaining sources s ∧
    sharedWeight (sources', futures') + streamWeight s' ≤
      sharedWeight (sources, futures) + streamWeight s ∧
    (∃ extra, futures' = extra ++ futures ∧ (needData_ s' = true → extra ≠ [])) ∧
    slotsDisjoint (<[k := s']> streams) ∧
    ∀ output j r, slotHolds streams output j r →
      slotHolds (<[k := s']> streams) output j r.
Proof.
  intros Hkeys Hk Hok Hwf Hlt Hdis.
  destruct (lookup_lt_is_Some_2 sources k Hlt) as [src Hsrc].
  pose proof (Forall_lookup_1 _ _ _ _ Hwf Hsrc) as Hwfsrc.
  unfold streamIsBlocked. destruct (needData_ s) eqn:Hneed.
  - pose proof Hok as (Hidx & Hbits & Hsr & Hbound & Hrange & Hphase).
    rewrite Hneed in Hphase. destruct (atEnd_ s) eqn:Hend; [done|].
    destruct Hphase as [Hcount Hfirst].
    destruct (fetchMoreData_spec cfg sources futures s src n)
      as (sources' & futures' & s' & b & src' & Hfetch & Hsources & Hwf' & Hok'
          & Hbits' & Hrem' & Hweight & Hb & Hfut & Hfut'); try done.
    { by rewrite Hidx. }
    rewrite Hidx in *.
    assert (∀ p, bits_ (outputRows_ s) !! p ≠ Some true) as Hclear
      by (by apply countSel_zero).
    exists sources', futures', s', b, src'. split_and!; try done.
    + rewrite Hrem'. unfold remaining. by rewrite Hend, Hneed, Hidx, Hsrc.
    + unfold streamWeight at 2. rewrite Hend, Hneed. lia.
    + destruct b.
      * destruct (Hfut' eq_refl) as [f ->]. exists [f]. split; [done|]. done.
      * rewrite (Hfut eq_refl). exists []. split; [done|]. congruence.
    + apply slotsDisjoint_clear; [done|]. by rewrite Hbits'.
    + intros output j r. apply (slotHolds_idle _ _ _ s); [done|done|]. by rewrite Hbits'.
  - exists sources, futures, s, false, src. rewrite !list_insert_id by done.
    split_and!; try done. exists []. split; [done|]. congruence.
Qed.

Lemma remaining_rebase sources (streams : list SourceStream) k s s' src' :
  (∀ i t, streams !! i = Some t → source_ t = i) →
  streams !! k = Some s →
  remaining (<[k := src']> sources) s' = remaining sources s →
  remaining (<[k := src']> sources) <$> <[k := s']> streams =
    remaining sources <$> streams.
Proof.
  intros Hidx Hk Hrem. rewrite remainders_update by done. rewrite Hrem.
  apply list_insert_id. by rewrite list_lookup_fmap, Hk.
Qed.

Lemma pollStreams_cons keys sh s rest :
  pollStreams keys sh (s :: rest) =
    ('(sh1, cursor1, _) ← streamIsBlocked keys sh s;
     '(sh2, rest1) ← pollStreams keys sh1 rest;
     Ok (sh2, cursor1 :: rest1)).
Proof. done. Qed.

Lemma poll_gen cfg n todo : ∀ pre sources futures,
  keysInRange cfg →
  (∀ k s, (pre ++ todo) !! k = Some s → streamOk cfg sources n k s) →
  Forall (wfSource (numColumns cfg)) sources →
  length (pre ++ todo) = length sources →
  slotsDisjoint (pre ++ todo) →
  ∃ sources' futures' todo',
    pollStreams (sortingKeys_ cfg) (sources, futures) todo =
      Ok (sources', futures', todo') ∧
    length todo' = length todo ∧ length sources' = length sources ∧
    Forall (wfSource (numColumns cfg)) sources' ∧
    (∀ k s, (pre ++ todo') !! k = Some s → streamOk cfg sources' n k s) ∧
    slotsDisjoint (pre ++ todo') ∧
    (∀ output j r, slotHolds (pre ++ todo) output j r →
       slotHolds (pre ++ todo') output j r) ∧
    remaining sources' <$> (pre ++ todo') = remaining sources <$> (pre ++ todo) ∧
    sharedWeight (sources', futures') + sum_list (streamWeight <$> todo') ≤
      sharedWeight (sources, futures) + sum_list (streamWeight <$> todo) ∧
    ∃ extra, futures' = extra ++ futures ∧
      ∀ k s, todo' !! k = Some s → needData_ s = true → extra ≠ [].
Proof.
  induction todo as [|s rest IH]; intros pre sources futures Hkeys Hok Hwf Hlen Hdis.
  - exists sources, futures, []. simpl. split_and!; try done.
    exists []. split; [done|]. intros k s Hk. by rewrite lookup_nil in Hk.
  - assert ((pre ++ s :: rest) !! length pre = Some s) as Hk
      by (by apply list_lookup_middle).
    assert (length pre < length sources) as Hlt.
    { rewrite <- Hlen, length_app. simpl. lia. }
    destruct (poll_one cfg sources futures n _ _ s Hkeys Hk (Hok _ _ Hk) Hwf Hlt Hdis)
      as (sources1 & futures1 & s' & b & src' & Hpoll & Hsources & Hwf' & Hok'
          & Hrem' & Hweight' & (extra1 & Hfut1 & Hneed1) & Hdis' & Hslots').
    assert (∀ l, (pre ++ [s']) ++ l = pre ++ s' :: l) as Happ
      by (intros; by rewrite <- app_assoc).
    assert (<[length pre := s']> (pre ++ s :: rest) = (pre ++ [s']) ++ rest) as Heq.
    { rewrite insert_app_r_alt by lia. replace (length pre - length pre) with 0 by lia.
      simpl. by rewrite <- app_assoc. }
    assert (∀ i t, (pre ++ s :: rest) !! i = Some t → source_ t = i) as Hidx.
    { intros i t Hi. by destruct (Hok i t Hi) as (? & _). }
    destruct (IH (pre ++ [s']) sources1 futures1) as
      (sources' & futures' & rest' & Hall & Hlen' & Hslen & Hwfs & Hoks & Hdiss
       & Hslots & Hrems & Hweight & (extra & Hfut & Hneed)); try done.
    { intros i t Hi. rewrite <- Heq in Hi.
      destruct (decide (i = length pre)) as [->|Hne].
      - apply list_lookup_insert_Some in Hi as [(_ & <- & _)|(? & _)]; done.
      - rewrite list_lookup_insert_ne in Hi by done.
        eapply streamOk_other; [by apply Hok|done|].
        rewrite Hsources. by rewrite list_lookup_insert_ne by done. }
    { rewrite Hsources. by apply Forall_insert. }
    { rewrite Hsources, length_insert, <- Hlen, !length_app. simpl. lia. }
    { by rewrite <- Heq. }
    setoid_rewrite Happ in Hoks. setoid_rewrite Happ in Hslots.
    rewrite !Happ in Hdiss, Hrems. rewrite Heq in Hslots'.
    exists sources', futures', (s' :: rest'). split_and!.
    + rewrite pollStreams_cons, Hpoll. simpl. by rewrite Hall.
    + simpl. by rewrite Hlen'.
    + rewrite Hslen, Hsources. apply length_insert.
    + done.
    + done.
    + done.
    + intros output j r Hslot. apply Hslots. rewrite <- Happ. by apply Hslots'.
    + rewrite Hrems. rewrite <- Heq, Hsources.
      apply (remaining_rebase _ _ _ s); [done|done|]. by rewrite <- Hsources.
    + rewrite !fmap_cons. simpl. lia.
    + exists (extra ++ extra1). split; [by rewrite Hfut, Hfut1, app_assoc|].
      intros [|i] t Hi Ht; simpl in Hi.
      * injection Hi as <-. specialize (Hneed1 Ht). by destruct extra1, extra.
      * specialize (Hneed i t Hi Ht). by destruct extra.
Qed.

(** ** [isBlocked] on the merging operator *)

Lemma reportBlocked_spec cfg m P :
  keysInRange cfg → MergeInv cfg m P →
  ∃ m' reason future,
    reportBlocked cfg m = Ok (m', reason, future) ∧
    MergeInv cfg m' P ∧ remainders m' = remainders m ∧
    length (sources_ m') = length (sources_ m) ∧
    ((reason = kNotBlocked ∧ allFetched m' ∧ measure m' ≤ measure m) ∨
     (reason ≠ kNotBlocked ∧ measure m' < measure m)).
Proof.
  intros Hkeys Hinv. unfold reportBlocked.
  destruct (sourceBlockingFutures_ m) as [|f fs] eqn:Hfs.
  - rewrite bool_decide_true by done.
    destruct (poll_gen cfg (length P) (streams_ m) [] (sources_ m) [])
      as (sources' & futures' & todo' & Hall & Hlen' & Hslen & Hwfs & Hoks & Hdiss
          & Hslots & Hrems & Hweight & (extra & Hfut & Hneed)); simpl; try done.
    { apply (inv_stream _ _ _ Hinv). }
    { apply (inv_sources _ _ _ Hinv). }
    { apply (inv_streams _ _ _ Hinv). }
    { apply (inv_disjoint _ _ _ Hinv). }
    simpl in *. rewrite app_nil_r in Hfut. subst futures'.
    unfold shared. rewrite Hfs, Hall. simpl.
    set (m1 := withShared (sources', extra) (withStreams todo' m)).
    assert (MergeInv cfg m1 P) as Hinv1.
    { pose proof (inv_installed _ _ _ Hinv) as Hinst.
      pose proof (inv_nonempty _ _ _ Hinv) as Hne.
      pose proof (inv_slots _ _ _ Hinv) as Hsl.
      pose proof (inv_tree _ _ _ Hinv) as Htree.
      pose proof (inv_streams _ _ _ Hinv) as Hstr.
      pose proof (inv_started _ _ _ Hinv) as Hstarted.
      unfold m1. split; unfold_with; try (by apply Hinv); try done.
      - unfold installed in *. destruct (mergeKind cfg); simpl in *; [|done].
        intros ->. simpl in *. by destruct (sources_ m).
      - by rewrite Hlen'.
      - by rewrite Hlen', Hslen.
      - intros ->. simpl in *. by destruct (sources_ m).
      - by rewrite Hslen.
      - intros j r Hj. by apply Hslots, Hsl. }
    assert (remainders m1 = remainders m) as Hrem1 by done.
    assert (measure m1 ≤ measure m) as Hm1.
    { unfold measure, m1. unfold_with. rewrite Hfs. done. }
    destruct extra as [|f fs].
    + eexists m1, _, _. split; [done|]. split_and!; try done.
      left. split_and!; try done. split; [done|].
      intros i s Hi. destruct (needData_ s) eqn:Hs; [|done].
      by destruct (Hneed i s Hi Hs).
    + eexists _, _, _. split; [done|]. split_and!.
      * destruct Hinv1. split; unfold_with; done.
      * done.
      * done.
      * right. split; [done|]. unfold measure, sharedWeight in *. unfold_with. lia.
  - rewrite bool_decide_false by done. simpl. rewrite Hfs.
    eexists _, _, _. split; [done|]. split_and!.
    + destruct Hinv. split; unfold_with; done.
    + done.
    + done.
    + right. split; [done|]. unfold measure, sharedWeight. unfold_with.
      rewrite Hfs. simpl. lia.
Qed.

Lemma addMergeSources_installed cfg m task :
  installed cfg m → sources_ m ≠ [] →
  addMergeSources cfg m task = Ok (m, task, kNotBlocked, None).
Proof.
  unfold installed, addMergeSources. intros Hinst Hne.
  destruct (mergeKind cfg).
  - unfold addLocalMergeSources. by rewrite bool_decide_false.
  - unfold addMergeExchangeSources.
    destruct (decide (driverId cfg = 0)) as [Hd|Hd].
    + rewrite bool_decide_true by done. simpl. destruct Hinst as [?| ->]; done.
    + by rewrite bool_decide_false.
Qed.

Lemma startSources_started m :
  numStartedSources_ m = length (sources_ m) → startSources m = Ok m.
Proof.
  intros H. unfold startSources.
  rewrite bool_decide_true by lia. simpl. by rewrite bool_decide_true by lia.
Qed.

Lemma isBlocked_steady cfg m task P :
  MergeInv cfg m P →
  isBlocked cfg m task =
    ('(m4, reason, future) ← reportBlocked cfg m; Ok (m4, task, reason, future)).
Proof.
  intros Hinv. unfold isBlocked.
  rewrite addMergeSources_installed by apply Hinv. simpl.
  rewrite bool_decide_false by apply Hinv.
  rewrite startSources_started by apply Hinv. simpl.
  rewrite (bool_decide_false (streams_ m = [])); [done|].
  intros Hnil. apply (inv_nonempty _ _ _ Hinv).
  apply length_zero_iff_nil. by rewrite <- (inv_streams _ _ _ Hinv), Hnil.
Qed.

Lemma isBlockedGeneral_steady cfg m task P :
  MergeInv cfg m P →
  isBlockedGeneral cfg m task =
    ('(m4, reason, future) ← reportBlocked cfg m; Ok (m4, task, reason, future)).
Proof.
  intros Hinv. unfold isBlockedGeneral.
  rewrite addMergeSources_installed by apply Hinv. simpl.
  rewrite bool_decide_false by apply Hinv.
  rewrite startSources_started by apply Hinv. simpl.
  rewrite (bool_decide_false (streams_ m = [])); [done|].
  intros Hnil. apply (inv_nonempty _ _ _ Hinv).
  apply length_zero_iff_nil. by rewrite <- (inv_streams _ _ _ Hinv), Hnil.
Qed.

(** ** The operator after its first call *)

Lemma startedMerge_streams cfg srcs i :
  streams_ (startedMerge cfg srcs) !! i =
    (λ _, newSourceStream i (outputBatchSize_ cfg)) <$> (srcs !! i).
Proof.
  unfold startedMerge, initializeTreeOfLosers. unfold_with.
  rewrite list_lookup_imap, list_lookup_fmap. by destruct (srcs !! i).
Qed.

Lemma startedMerge_length cfg srcs :
  length (streams_ (startedMerge cfg srcs)) = length srcs.
Proof.
  unfold startedMerge, initializeTreeOfLosers. unfold_with.
  by rewrite length_imap, length_fmap.
Qed.

Lemma sourceRows_start src : sourceRows (sourceStart src) = sourceRows src.
Proof. done. Qed.

Lemma startedMerge_inv cfg srcs :
  mergeKind cfg = LocalMerge → srcs ≠ [] →
  Forall (wfSource (numColumns cfg)) srcs →
  MergeInv cfg (startedMerge cfg srcs) [].
Proof.
  intros Hkind Hne Hwf.
  assert (∀ i s, streams_ (startedMerge cfg srcs) !! i = Some s →
    s = newSourceStream i (outputBatchSize_ cfg) ∧ i < length srcs) as Hs.
  { intros i s. rewrite startedMerge_streams.
    destruct (srcs !! i) eqn:Hi; [|done]. intros [= <-].
    split; [done|]. by eapply lookup_lt_Some. }
  split.
  - unfold installed. rewrite Hkind. simpl. by destruct srcs.
  - rewrite startedMerge_length. unfold startedMerge, initializeTreeOfLosers.
    unfold_with. by rewrite length_imap, length_fmap.
  - rewrite startedMerge_length. simpl. by rewrite length_fmap.
  - simpl. by destruct srcs.
  - simpl. by rewrite length_fmap.
  - done.
  - done.
  - simpl. lia.
  - intros i s Hi. destruct (Hs i s Hi) as [-> Hlt].
    unfold newSourceStream. split_and!; simpl; try done.
    + by rewrite length_replicate.
    + by rewrite length_replicate.
    + intros j Hj. apply lookup_replicate in Hj as [? _]. done.
    + split; [apply countSel_replicate|done].
  - simpl. apply Forall_fmap. eapply Forall_impl; [exact Hwf|]. done.
  - intros i1 i2 s1 s2 j H1 _ Hb1. destruct (Hs i1 s1 H1) as [-> _].
    simpl in Hb1. apply lookup_replicate in Hb1 as [? _]. done.
  - intros j r Hj. by rewrite lookup_nil in Hj.
  - done.
Qed.

Lemma startedMerge_remainders cfg srcs :
  remainders (startedMerge cfg srcs) = sourceRows <$> srcs.
Proof.
  apply list_eq. intros i. unfold remainders.
  rewrite !list_lookup_fmap, startedMerge_streams.
  destruct (srcs !! i) as [src|] eqn:Hi; simpl; [|done].
  unfold remaining. simpl. by rewrite list_lookup_fmap, Hi.
Qed.

Lemma isBlocked_install cfg task :
  mergeKind cfg = LocalMerge → 1 < length (localMergeSources task) →
  isBlocked cfg newMerge task =
    ('(m4, reason, future) ←
       reportBlocked cfg (startedMerge cfg (localMergeSources task));
     Ok (m4, task, reason, future)).
Proof.
  intros Hkind Hlen. unfold isBlocked, addMergeSources. rewrite Hkind.
  unfold addLocalMergeSources. simpl.
  destruct (localMergeSources task) as [|s0 [|s1 srcs]] eqn:Hsrcs;
    simpl in Hlen; [lia|lia|]. done.
Qed.

Lemma isBlockedGeneral_install cfg task :
  mergeKind cfg = LocalMerge → localMergeSources task ≠ [] →
  isBlockedGeneral cfg newMerge task =
    ('(m4, reason, future) ←
       reportBlocked cfg (startedMerge cfg (localMergeSources task));
     Ok (m4, task, reason, future)).
Proof.
  intros Hkind Hne. unfold isBlockedGeneral, addMergeSources. rewrite Hkind.
  unfold addLocalMergeSources. simpl.
  destruct (localMergeSources task) as [|s0 srcs] eqn:Hsrcs; done.
Qed.

(** ** The driver runs the merge to its end *)

Lemma driveOperator_S op fuel m task batches :
  driveOperator op (S fuel) m task batches =
    ('(m1, task1, reason, _) ← opIsBlocked op m task;
     if decide (reason ≠ kNotBlocked) then driveOperator op fuel m1 task1 batches
     else driveAfter op fuel m1 task1 batches).
Proof. done. Qed.

Lemma batchesOk_cons size o more :
  rvSize o = size → 0 < size → batchesOk size more → batchesOk size (o :: more).
Proof.
  intros Ho Hpos [Hall Hfull]. split.
  - constructor; [lia|done].
  - intros [|i] o' Hi Hlt; simpl in *; [by simplify_eq|].
    apply (Hfull i); [done|lia].
Qed.

Section drive.
Context (cfg : MergeConfig) (op : Operator) (task : Task) (count : nat).
Hypothesis Hkeys : keysInRange cfg.
Hypothesis Hsize : 0 < outputBatchSize_ cfg.
Hypothesis HisBlocked : ∀ m P,
  MergeInv cfg m P → length (sources_ m) = count →
  opIsBlocked op m task =
    ('(m4, reason, future) ← reportBlocked cfg m; Ok (m4, task, reason, future)).
Hypothesis HgetOutput : ∀ m P,
  MergeInv cfg m P → length (sources_ m) = count →
  opGetOutput op m = mergeBatch cfg m.
Hypothesis HisFinished : ∀ m, opIsFinished op m = finished_ m.

Lemma drive_steps bound : ∀ m P batches,
  measure m < bound → MergeInv cfg m P → length (sources_ m) = count →
  length P < outputBatchSize_ cfg →
  (∃ fuel more m',
     driveOperator op fuel m task batches = Ok (batches ++ more, m', task) ∧
     runGood cfg m P more m') ∧
  (allFetched m →
   ∃ fuel more m',
     driveAfter op fuel m task batches = Ok (batches ++ more, m', task) ∧
     runGood cfg m P more m').
Proof.
  induction bound as [|bound IH]; intros m P batches Hbound Hinv Hcount Hroom;
    [lia|].
  assert (∀ m P batches,
    measure m < S bound → MergeInv cfg m P → length (sources_ m) = count →
    length P < outputBatchSize_ cfg → allFetched m →
    ∃ fuel more m',
      driveAfter op fuel m task batches = Ok (batches ++ more, m', task) ∧
      runGood cfg m P more m') as Hafter.
  { clear m P batches Hbound Hinv Hcount Hroom.
    intros m P batches Hbound Hinv Hcount Hroom Hfetched.
    destruct (mergeBatch_spec cfg m P Hkeys Hinv Hfetched Hroom)
      as (m' & o & Hbatch & Houtcome).
    unfold driveAfter. rewrite (HgetOutput m P Hinv Hcount), Hbatch. simpl.
    rewrite HisFinished.
    destruct Houtcome as [rows o' -> Hok Hrows Hinv' Hc Hm Hlt
                         |rows -> Hinv' Hc Hroom' Hm Hlt
                         |rows Hfin Hm Hroom' Ho].
    - rewrite (inv_running _ _ _ Hinv').
      destruct (IH m' [] (batches ++ option_list (Some o'))) as
        [(fuel & more & mf & Hrun & Hfin & Hcat & Hbs) _]; try done; [lia..|].
      exists fuel, (o' :: more), mf. split.
      + rewrite Hrun. simpl. by rewrite <- app_assoc.
      + split_and!; [done| |].
        * rewrite fmap_cons. simpl. rewrite Hcat, Hrows, Hm. simpl.
          by rewrite <- app_assoc.
        * apply batchesOk_cons; [by destruct Hok|done|done].
    - rewrite (inv_running _ _ _ Hinv').
      destruct (IH m' (P ++ rows) (batches ++ option_list None)) as
        [(fuel & more & mf & Hrun & Hfin & Hcat & Hbs) _]; try done; [lia..|].
      exists fuel, more, mf. split.
      + rewrite Hrun. simpl. by rewrite app_nil_r.
      + split_and!; [done| |done].
        by rewrite Hcat, Hm, <- app_assoc.
    - rewrite Hfin. exists 0, (option_list o), m'. split; [done|].
      split_and!; [done| |].
      + destruct o as [o|]; simpl.
        * destruct Ho as (-> & _). by rewrite app_nil_r, Hm.
        * by rewrite Hm, Ho.
      + destruct o as [o|]; simpl.
        * destruct Ho as (Hrows & Hsz & Hpos). split.
          -- repeat constructor; lia.
          -- intros [|i] o' Hi Hlt; simpl in *; lia.
        * split; [constructor|]. intros i o' Hi. by rewrite lookup_nil in Hi. }
  split; [|by apply Hafter].
  destruct (reportBlocked_spec cfg m P Hkeys Hinv)
    as (m1 & reason & future & Hreport & Hinv1 & Hrems & Hcount1 & Hcases).
  destruct Hcases as [(-> & Hfetched & Hle)|(Hblocked & Hlt)].
  - destruct (Hafter m1 P batches) as (fuel & more & m' & Hrun & Hgood);
      try done; [lia..|].
    exists (S fuel), more, m'. split.
    + rewrite driveOperator_S, (HisBlocked m P Hinv Hcount), Hreport. done.
    + destruct Hgood as (? & Hcat & ?). split_and!; try done.
      by rewrite <- Hrems.
  - destruct (IH m1 P batches) as [(fuel & more & m' & Hrun & Hgood) _];
      try done; [lia..|].
    exists (S fuel), more, m'. split.
    + rewrite driveOperator_S, (HisBlocked m P Hinv Hcount), Hreport. simpl.
      by rewrite decide_True.
    + destruct Hgood as (? & Hcat & ?). split_and!; try done.
      by rewrite <- Hrems.
Qed.
End drive.

(** ** Complete runs *)

Lemma getOutput_merging cfg m P :
  MergeInv cfg m P → length (sources_ m) ≠ 1 →
  getOutput cfg m = mergeBatch cfg m.
Proof.
  intros Hinv Hlen. unfold getOutput.
  rewrite (inv_running _ _ _ Hinv).
  rewrite bool_decide_true by apply (inv_started _ _ _ Hinv). simpl.
  by rewrite bool_decide_false.
Qed.

Lemma getOutputGeneral_merging cfg m P :
  MergeInv cfg m P → getOutputGeneral cfg m = mergeBatch cfg m.
Proof.
  intros Hinv. unfold getOutputGeneral.
  rewrite (inv_running _ _ _ Hinv).
  by rewrite bool_decide_true by apply (inv_started _ _ _ Hinv).
Qed.

Lemma startedMerge_sources cfg srcs :
  length (sources_ (startedMerge cfg srcs)) = length srcs.
Proof. simpl. by rewrite length_fmap. Qed.

(** A run of the driver from the constructed operator, given what the entry
    points do on the merging states. *)
Lemma run_from_start cfg op task :
  keysInRange cfg → 0 < outputBatchSize_ cfg →
  mergeKind cfg = LocalMerge → localMergeSources task ≠ [] →
  Forall (wfSource (numColumns cfg)) (localMergeSources task) →
  (∀ m P, MergeInv cfg m P →
     length (sources_ m) = length (localMergeSources task) →
     opIsBlocked op m task =
       ('(m4, reason, future) ← reportBlocked cfg m;
        Ok (m4, task, reason, future))) →
  (∀ m P, MergeInv cfg m P →
     length (sources_ m) = length (localMergeSources task) →
     opGetOutput op m = mergeBatch cfg m) →
  (∀ m, opIsFinished op m = finished_ m) →
  opIsBlocked op newMerge task =
    ('(m4, reason, future) ←
       reportBlocked cfg (startedMerge cfg (localMergeSources task));
     Ok (m4, task, reason, future)) →
  ∃ fuel batches m',
    driveOperator op fuel newMerge task [] = Ok (batches, m', task) ∧
    finished_ m' = true ∧
    concat (rowsOf <$> batches) =
      kWayMerge (sortingKeys_ cfg) (sourceRows <$> localMergeSources task) ∧
    batchesOk (outputBatchSize_ cfg) batches.
Proof.
  intros Hkeys Hsize Hkind Hne Hwf HisB Hget Hfin Hfirst.
  set (srcs := localMergeSources task) in *.
  pose proof (startedMerge_inv cfg srcs Hkind Hne Hwf) as Hinv.
  destruct (reportBlocked_spec cfg _ [] Hkeys Hinv)
    as (m1 & reason & future & Hreport & Hinv1 & Hrems & Hcount1 & Hcases).
  rewrite startedMerge_sources in Hcount1.
  rewrite startedMerge_remainders in Hrems.
  destruct (drive_steps cfg op task (length srcs) Hkeys Hsize HisB Hget Hfin
              (S (measure m1)) m1 [] [] ltac:(lia) Hinv1 Hcount1 Hsize)
    as [(fuel & more & m' & Hrun & Hgood) Hafter].
  destruct Hcases as [(-> & Hfetched & _)|(Hblocked & _)].
  - destruct (Hafter Hfetched) as (fuel' & more' & m'' & Hrun' & Hfin' & Hcat & Hbs).
    exists (S fuel'), more', m''. rewrite driveOperator_S, Hfirst, Hreport.
    simpl in *. rewrite Hrems in Hcat. done.
  - destruct Hgood as (Hfin' & Hcat & Hbs).
    exists (S fuel), more, m'. rewrite driveOperator_S, Hfirst, Hreport. simpl.
    rewrite decide_True by done. simpl in *. rewrite Hrems in Hcat. done.
Qed.

Lemma merge_run cfg task :
  keysInRange cfg → 0 < outputBatchSize_ cfg →
  mergeKind cfg = LocalMerge → 1 < length (localMergeSources task) →
  Forall (wfSource (numColumns cfg)) (localMergeSources task) →
  ∃ fuel batches m',
    drive cfg fuel newMerge task = Ok (batches, m', task) ∧
    finished_ m' = true ∧
    concat (rowsOf <$> batches) =
      kWayMerge (sortingKeys_ cfg) (sourceRows <$> localMergeSources task) ∧
    batchesOk (outputBatchSize_ cfg) batches.
Proof.
  intros Hkeys Hsize Hkind Hlen Hwf.
  apply (run_from_start cfg (mergeOperator cfg) task); try done.
  - intros Hnil. rewrite Hnil in Hlen. simpl in Hlen. lia.
  - intros m P Hinv _. by eapply isBlocked_steady.
  - intros m P Hinv Hcount. eapply getOutput_merging; [done|lia].
  - by apply isBlocked_install.
Qed.

Lemma general_run cfg task :
  keysInRange cfg → 0 < outputBatchSize_ cfg →
  mergeKind cfg = LocalMerge → localMergeSources task ≠ [] →
  Forall (wfSource (numColumns cfg)) (localMergeSources task) →
  ∃ fuel batches m',
    driveGeneral cfg fuel newMerge task = Ok (batches, m', task) ∧
    finished_ m' = true ∧
    concat (rowsOf <$> batches) =
      kWayMerge (sortingKeys_ cfg) (sourceRows <$> localMergeSources task) ∧
    batchesOk (outputBatchSize_ cfg) batches.
Proof.
  intros Hkeys Hsize Hkind Hne Hwf.
  apply (run_from_start cfg (generalOperator cfg) task); try done.
  - intros m P Hinv _. by eapply isBlockedGeneral_steady.
  - intros m P Hinv _. by eapply getOutputGeneral_merging.
  - by apply isBlockedGeneral_install.
Qed.

(** * The claims of the specification *)

(** ** The stream comparison *)

Lemma lessFrom_withSource keys i j k a b :
  lessFrom k keys (withSource i a) (withSource j b) = lessFrom k keys a b.
Proof.
  revert k. induction keys as [|[ch f] keys IH]; intros k; simpl; [done|].
  by rewrite IH.
Qed.

(** C2: for two streams whose current rows are loaded, [operator<] is true
    exactly when the current row of the first is strictly less than the
    current row of the second under the sort key list, the first key that
    does not compare equal deciding; when the rows are equal on all keys both
    directions are false; and the answer does not depend on which sources the
    streams read. *)
Theorem less_is_strict_row_order keys a b :
  streamLoaded keys a → streamLoaded keys b →
  (less keys a b = true ↔ rowLt keys (currentRow a) (currentRow b)) ∧
  (rowsEqualOnKeys keys (currentRow a) (currentRow b) →
     less keys a b = false ∧ less keys b a = false) ∧
  (∀ i j, less keys (withSource i a) (withSource j b) = less keys a b).
Proof.
  intros (da & Hda & Hka) (db & Hdb & Hkb). unfold currentRow.
  rewrite Hda, Hdb.
  rewrite (less_rowLess keys a b da db) by done.
  rewrite (less_rowLess keys b a db da) by done.
  split_and!.
  - apply rowLess_rowLt.
  - intros Heq. pose proof (rowsEqualOnKeys_compare _ _ _ Heq) as Hc.
    unfold rowLess. rewrite (rowCompare_antisym keys _ (rowAt db _)), Hc. done.
  - intros i j. rewrite <- (less_rowLess keys a b da db) by done.
    apply lessFrom_withSource.
Qed.

Lemma less_is_strict_row_order_witness :
  (less exampleKeys (exampleStream [1; 4]%Z 1) (exampleStream [2; 4]%Z 0) = true ↔
     rowLt exampleKeys (currentRow (exampleStream [1; 4]%Z 1))
       (currentRow (exampleStream [2; 4]%Z 0))) ∧
  (rowsEqualOnKeys exampleKeys (currentRow (exampleStream [1; 4]%Z 1))
       (currentRow (exampleStream [2; 4]%Z 0)) →
     less exampleKeys (exampleStream [1; 4]%Z 1) (exampleStream [2; 4]%Z 0) = false ∧
     less exampleKeys (exampleStream [2; 4]%Z 0) (exampleStream [1; 4]%Z 1) = false) ∧
  (∀ i j, less exampleKeys (withSource i (exampleStream [1; 4]%Z 1))
            (withSource j (exampleStream [2; 4]%Z 0)) =
          less exampleKeys (exampleStream [1; 4]%Z 1) (exampleStream [2; 4]%Z 0)).
Proof.
  apply (less_is_strict_row_order exampleKeys (exampleStream [1; 4]%Z 1)
           (exampleStream [2; 4]%Z 0)).
  - exists (intColumn [1; 4]%Z). split; reflexivity.
  - exists (intColumn [2; 4]%Z). split; reflexivity.
Defined.

(** ** Advancing a stream *)

Lemma fetchMoreData_cases keys sh s :
  match sh.1 !! source_ s with
  | None => fetchMoreData keys sh s = Fail NullPointer
  | Some src =>
      match srcEvents src with
      | Blocked f :: rest =>
          ∃ sources' s', fetchMoreData keys sh s = Ok (sources', f :: sh.2, s', true) ∧
            outputRows_ s' = outputRows_ s
      | _ =>
          fetchMoreData keys sh s = Fail OutOfRange ∨
          ∃ sources' s', fetchMoreData keys sh s = Ok (sources', sh.2, s', false) ∧
            outputRows_ s' = outputRows_ s
      end
  end.
Proof.
  destruct sh as [sources futures]. unfold fetchMoreData. simpl.
  destruct (sources !! source_ s) as [src|]; [|done].
  unfold sourceNext. destruct (srcEvents src) as [|[f|d] rest]; simpl.
  - right. eauto.
  - eauto.
  - destruct (bool_decide (rvSize d = 0)); simpl; [right; eauto|].
    unfold loadKeyColumns. destruct (mapM _ _); simpl; [right; eauto|by left].
Qed.

(** The check of [pop] reads the cached range only: with a slot marked by
    [setOutputRow] and the range not recomputed since, the check passes at
    the end of the batch and the batch is replaced.  In [getOutput] a
    [copyToOutput] comes before every such [pop]. *)
Example pop_reads_the_cached_range :
  ∃ sh' s',
    pop exampleKeys ([localSource [[5]%Z]], [])
      (mkSourceStream 0 false false (Some (intColumn [1; 4]%Z)) 1 0
         [[Some 1%Z; Some 4%Z]]
         (setValid (newSelectivityVector 4) 1 true) (replicate 4 0)) =
      Ok (sh', s', false) ∧
    data_ s' = Some (intColumn [5]%Z) ∧
    bits_ (outputRows_ s') = [false; true; false; false].
Proof. eexists _, _. split; [vm_compute; reflexivity|]. by split. Qed.

Lemma flushed_cleared s :
  flushed s →
  hasSelections (outputRows_ s) = false ∧ countSel (bits_ (outputRows_ s)) = 0.
Proof.
  intros (output & s0 & output' & s1 & Hcopy & ->).
  rewrite (copyToOutput_bits _ _ _ _ Hcopy). split; [done|].
  apply countSel_clearAll.
Qed.

(** C4: [pop] advances the current row by one.  Inside the batch that is
    all it does; at the end of the batch, and only there, it checks the
    cached range of the selection and calls [fetchMoreData] on the advanced
    stream.  It returns true exactly when the producer blocked, and then a
    future is recorded; it never changes the selection, and it replaces the
    batch only at the end of the batch.  When the selection is as
    [copyToOutput] left it, no slot is marked, the check does not fail, and
    so no selected row is pending when the batch is replaced. *)
Theorem pop_advances_one_row keys sh s d :
  data_ s = Some d →
  currentSourceRow_ (advanced s) = S (currentSourceRow_ s) ∧
  (S (currentSourceRow_ s) ≠ rvSize d →
     pop keys sh s = Ok (sh, advanced s, false)) ∧
  (S (currentSourceRow_ s) = rvSize d →
     pop keys sh s =
       if hasSelections (outputRows_ s)
       then Fail (CheckFailed "!outputRows_.hasSelections()")
       else fetchMoreData keys sh (advanced s)) ∧
  (∀ sh' s' b, pop keys sh s = Ok (sh', s', b) →
     (b = true ↔ S (currentSourceRow_ s) = rvSize d ∧ producerBlocks sh s) ∧
     (b = true → ∃ f, sh'.2 = f :: sh.2) ∧
     (b = false → sh'.2 = sh.2) ∧
     outputRows_ s' = outputRows_ s ∧
     (data_ s' ≠ data_ s → S (currentSourceRow_ s) = rvSize d)) ∧
  (flushed s →
     countSel (bits_ (outputRows_ s)) = 0 ∧
     (∀ msg, pop keys sh s ≠ Fail (CheckFailed msg)) ∧
     (S (currentSourceRow_ s) = rvSize d →
        pop keys sh s = fetchMoreData keys sh (advanced s)) ∧
     ∀ sh' s' b, pop keys sh s = Ok (sh', s', b) →
       countSel (bits_ (outputRows_ s')) = 0).
Proof.
  intros Hd.
  assert (S (currentSourceRow_ s) ≠ rvSize d →
          pop keys sh s = Ok (sh, advanced s, false)) as Hinside.
  { intros Hne. unfold pop, advanced. simpl. rewrite Hd.
    by rewrite bool_decide_false. }
  assert (S (currentSourceRow_ s) = rvSize d →
          pop keys sh s =
            if hasSelections (outputRows_ s)
            then Fail (CheckFailed "!outputRows_.hasSelections()")
            else fetchMoreData keys sh (advanced s)) as Hend.
  { intros Heq. unfold pop, advanced. simpl. rewrite Hd.
    by rewrite bool_decide_true. }
  pose proof (fetchMoreData_cases keys sh (advanced s)) as Hfetch.
  assert (∀ sh' s' b, pop keys sh s = Ok (sh', s', b) →
     (b = true ↔ S (currentSourceRow_ s) = rvSize d ∧ producerBlocks sh s) ∧
     (b = true → ∃ f, sh'.2 = f :: sh.2) ∧
     (b = false → sh'.2 = sh.2) ∧
     outputRows_ s' = outputRows_ s ∧
     (data_ s' ≠ data_ s → S (currentSourceRow_ s) = rvSize d)) as Hresult.
  { intros sh' s' b Hpop.
    destruct (decide (S (currentSourceRow_ s) = rvSize d)) as [Heq|Hne].
    - rewrite (Hend Heq) in Hpop.
      destruct (hasSelections (outputRows_ s)) eqn:Hsel; [done|].
      simpl in Hfetch. unfold producerBlocks.
      destruct (sh.1 !! source_ s) as [src|] eqn:Hsrc; [|congruence].
      destruct (srcEvents src) as [|[f|d'] rest] eqn:Hev.
      + destruct Hfetch as [Hf|(? & ? & Hf & Hbits)]; rewrite Hf in Hpop; [done|].
        simplify_eq. split_and!; try done.
        split; [done|]. intros (_ & src' & f' & rest' & ? & ?). congruence.
      + destruct Hfetch as (? & ? & Hf & Hbits). rewrite Hf in Hpop.
        simplify_eq. split_and!; try done; [|eauto].
        split; [|done]. intros _. split; [done|]. by exists src, f, rest.
      + destruct Hfetch as [Hf|(? & ? & Hf & Hbits)]; rewrite Hf in Hpop; [done|].
        simplify_eq. split_and!; try done.
        split; [done|]. intros (_ & src' & f' & rest' & ? & ?). congruence.
    - rewrite (Hinside Hne) in Hpop. simplify_eq. split_and!; try done.
      split; [done|]. by intros [? _]. }
  split_and!; try done.
  intros Hflushed. destruct (flushed_cleared _ Hflushed) as [Hsel Hnone].
  split_and!; try done.
  - intros msg.
    destruct (decide (S (currentSourceRow_ s) = rvSize d)) as [Heq|Hne];
      [|by rewrite (Hinside Hne)].
    rewrite (Hend Heq), Hsel. simpl in Hfetch.
    destruct (sh.1 !! source_ s) as [src|]; [|by rewrite Hfetch].
    destruct (srcEvents src) as [|[f|d'] rest];
      try (destruct Hfetch as [->|(? & ? & -> & _)]; done).
    by destruct Hfetch as (? & ? & -> & _).
  - intros Heq. by rewrite (Hend Heq), Hsel.
  - intros sh' s' b Hpop.
    destruct (Hresult _ _ _ Hpop) as (_ & _ & _ & -> & _). done.
Qed.

Lemma pop_advances_one_row_witness :
  pop exampleKeys ([localSource [[5]%Z]], []) (exampleStream [1; 4]%Z 0) =
    Ok ([localSource [[5]%Z]], [], advanced (exampleStream [1; 4]%Z 0), false) ∧
  ∃ output' s,
    copyToOutput (Some (createRowVector 1 4)) markedStream = Ok (output', s) ∧
    pop exampleKeys ([localSource [[5]%Z]], []) s =
      fetchMoreData exampleKeys ([localSource [[5]%Z]], []) (advanced s) ∧
    ∃ s', pop exampleKeys ([localSource [[5]%Z]], []) s =
            Ok ([localSource []], [], s', false) ∧
          data_ s' = Some (intColumn [5]%Z) ∧ currentSourceRow_ s' = 0.
Proof.
  split.
  - apply (pop_advances_one_row exampleKeys ([localSource [[5]%Z]], [])
             (exampleStream [1; 4]%Z 0) (intColumn [1; 4]%Z)).
    + reflexivity.
    + simpl. lia.
  - destruct (copyToOutput (Some (createRowVector 1 4)) markedStream)
      as [[output' s]|] eqn:Hcopy; [|vm_compute in Hcopy; discriminate].
    exists output', s. split; [reflexivity|].
    assert (data_ s = Some (intColumn [1; 4]%Z) ∧ currentSourceRow_ s = 1)
      as [Hd Hrow].
    { vm_compute in Hcopy. injection Hcopy as _ <-. by split. }
    destruct (pop_advances_one_row exampleKeys ([localSource [[5]%Z]], [])
                s (intColumn [1; 4]%Z) Hd)
      as (_ & _ & _ & _ & Hflushed).
    destruct Hflushed as (_ & _ & Hend & _).
    + by exists (Some (createRowVector 1 4)), markedStream, output', s.
    + split; [apply Hend; by rewrite Hrow|].
      vm_compute in Hcopy. injection Hcopy as _ <-.
      eexists. split; [vm_compute; reflexivity|]. by split.
Defined.

(** ** What the entry points leave unchanged *)

Lemma finishSplits_frame cfg m task :
  sameMerging m (finishSplits cfg m task).1.
Proof.
  unfold finishSplits. simpl. by destruct (bool_decide _).
Qed.

Lemma exchangeSplitLoop_frame cfg queue : ∀ m task m' task' reason future,
  exchangeSplitLoop cfg queue m task = Ok (m', task', reason, future) →
  sameMerging m m'.
Proof.
  induction queue as [|[f|split] queue IH]; intros m task m' task' reason future H;
    simpl in H.
  - unfold finishSplits in H. simpl in H. injection H as <- <- <- <-.
    by destruct (bool_decide _).
  - by injection H as <- <- <- <-.
  - destruct (connectorSplit split) as [[taskId|]|]; [|done|].
    + by apply IH in H.
    + unfold finishSplits in H. simpl in H. injection H as <- <- <- <-.
      by destruct (bool_decide _).
Qed.

Lemma addMergeSources_frame cfg m task m' task' reason future :
  addMergeSources cfg m task = Ok (m', task', reason, future) →
  sameMerging m m' ∧
  numStartedSources_ m' = numStartedSources_ m ∧
  sourceBlockingFutures_ m' = sourceBlockingFutures_ m.
Proof.
  unfold addMergeSources. destruct (mergeKind cfg).
  - unfold addLocalMergeSources. intros [= <- <- <- <-].
    by destruct (bool_decide _).
  - unfold addMergeExchangeSources.
    destruct (negb _); [by intros [= <- <- <- <-]|].
    destruct (noMoreSplits_ m); [by intros [= <- <- <- <-]|].
    intros H. split; [by eapply exchangeSplitLoop_frame|].
    revert m H. generalize (splitQueue task) as queue. clear.
    induction queue as [|[f|split] queue IH]; intros m H; simpl in H.
    + unfold finishSplits in H. simpl in H. injection H as <- <- <- <-.
      by destruct (bool_decide _).
    + by injection H as <- <- <- <-.
    + destruct (connectorSplit split) as [[taskId|]|]; [|done|].
      * apply IH in H. done.
      * unfold finishSplits in H. simpl in H. injection H as <- <- <- <-.
        by destruct (bool_decide _).
Qed.

Lemma startSources_frame m m' :
  startSources m = Ok m' →
  sameMerging m m' ∧ sourceBlockingFutures_ m' = sourceBlockingFutures_ m ∧
  length (sources_ m') = length (sources_ m).
Proof.
  unfold startSources. repeat case_match; try done; intros [= <-]; try done.
  simpl. by rewrite length_fmap.
Qed.

Lemma fetchMoreData_bits keys sh s sh' s' b :
  fetchMoreData keys sh s = Ok (sh', s', b) → outputRows_ s' = outputRows_ s.
Proof.
  intros H. pose proof (fetchMoreData_cases keys sh s) as Hc.
  destruct (sh.1 !! source_ s) as [src|]; [|congruence].
  destruct (srcEvents src) as [|[f|d] rest];
    try (destruct Hc as [Hc|(? & ? & Hc & ?)]; rewrite Hc in H; by simplify_eq).
  destruct Hc as (? & ? & Hc & ?). rewrite Hc in H. by simplify_eq.
Qed.

Lemma pollStreams_bits keys cursors : ∀ sh sh' cursors',
  pollStreams keys sh cursors = Ok (sh', cursors') →
  outputRows_ <$> cursors' = outputRows_ <$> cursors.
Proof.
  induction cursors as [|s rest IH]; intros sh sh' cursors' H.
  - by injection H as <- <-.
  - rewrite pollStreams_cons in H.
    destruct (streamIsBlocked keys sh s) as [[[sh1 s1] b]|] eqn:Hs; [|done].
    simpl in H.
    destruct (pollStreams keys sh1 rest) as [[sh2 rest1]|] eqn:Hr; [|done].
    simpl in H. injection H as <- <-. rewrite !fmap_cons.
    rewrite (IH _ _ _ Hr). f_equal.
    unfold streamIsBlocked in Hs. destruct (needData_ s).
    + by eapply fetchMoreData_bits.
    + by injection Hs as <- <- <-.
Qed.

Lemma reportBlocked_frame cfg m m' reason future :
  reportBlocked cfg m = Ok (m', reason, future) →
  outputRows_ <$> streams_ m' = outputRows_ <$> streams_ m ∧
  treeOfLosers_ m' = treeOfLosers_ m ∧ output_ m' = output_ m ∧
  outputSize_ m' = outputSize_ m ∧ finished_ m' = finished_ m.
Proof.
  unfold reportBlocked.
  destruct (bool_decide (sourceBlockingFutures_ m = [])).
  - destruct (pollStreams _ _ _) as [[sh cursors]|] eqn:Hp; [|done]. simpl.
    pose proof (pollStreams_bits _ _ _ _ _ Hp) as Hbits.
    destruct sh as [sources futures]. unfold_with.
    destruct futures; intros [= <- <- <-]; done.
  - simpl. destruct (sourceBlockingFutures_ m); intros [= <- <- <-]; done.
Qed.

Lemma newStreams_bits size (srcs : list MergeSource) :
  outputRows_ <$> imap (λ i _, newSourceStream i size) srcs =
    replicate (length srcs) (newSelectivityVector size).
Proof.
  apply list_eq. intros k. rewrite list_lookup_fmap, list_lookup_imap.
  destruct (srcs !! k) as [src|] eqn:Hk; simpl.
  - symmetry. apply lookup_replicate. split; [done|]. by eapply lookup_lt_Some.
  - symmetry. apply lookup_replicate_None. by apply lookup_ge_None.
Qed.

Lemma isBlocked_frame cfg m task m' task' reason future :
  isBlocked cfg m task = Ok (m', task', reason, future) →
  outputSize_ m' = outputSize_ m ∧ output_ m' = output_ m ∧
  (finished_ m = true → finished_ m' = true) ∧
  ∃ fresh,
    outputRows_ <$> streams_ m' =
      (outputRows_ <$> streams_ m) ++
      replicate fresh (newSelectivityVector (outputBatchSize_ cfg)).
Proof.
  unfold isBlocked.
  destruct (addMergeSources cfg m task) as [[[[m1 task1] r1] f1]|] eqn:Hadd;
    [|done]. simpl.
  destruct (addMergeSources_frame _ _ _ _ _ _ _ Hadd)
    as ((Hs1 & Ht1 & Ho1 & Hz1 & Hf1) & _).
  destruct (decide (r1 ≠ kNotBlocked)).
  { intros [= <- <- <- <-]. rewrite Hs1, Ho1, Hz1, Hf1. split_and!; try done.
    exists 0. by rewrite app_nil_r. }
  destruct (bool_decide (sources_ m1 = [])).
  { intros [= <- <- <- <-]. unfold_with. rewrite Hs1, Ho1, Hz1.
    split_and!; try done. exists 0. by rewrite app_nil_r. }
  destruct (startSources m1) as [m2|] eqn:Hstart; [|done]. simpl.
  destruct (startSources_frame _ _ Hstart) as ((Hs2 & Ht2 & Ho2 & Hz2 & Hf2) & _).
  set (m3 := if _ && _ then initializeTreeOfLosers cfg m2 else m2).
  destruct (reportBlocked cfg m3) as [[[m4 r4] f4]|] eqn:Hrep; [|done]. simpl.
  intros [= <- <- <- <-].
  destruct (reportBlocked_frame _ _ _ _ _ Hrep) as (Hs4 & Ht4 & Ho4 & Hz4 & Hf4).
  assert (output_ m3 = output_ m2 ∧ outputSize_ m3 = outputSize_ m2 ∧
          finished_ m3 = finished_ m2 ∧
          ∃ fresh, outputRows_ <$> streams_ m3 =
            (outputRows_ <$> streams_ m2) ++
            replicate fresh (newSelectivityVector (outputBatchSize_ cfg)))
    as (Ho3 & Hz3 & Hf3 & fresh & Hs3).
  { unfold m3. destruct (_ && _).
    - unfold initializeTreeOfLosers. unfold_with. split_and!; try done.
      exists (length (sources_ m2)). rewrite fmap_app. f_equal.
      apply newStreams_bits.
    - split_and!; try done. exists 0. by rewrite app_nil_r. }
  rewrite Hz4, Hz3, Hz2, Hz1, Ho4, Ho3, Ho2, Ho1, Hf4, Hf3, Hf2, Hf1.
  split_and!; try done. exists fresh. by rewrite Hs4, Hs3, Hs2, Hs1.
Qed.

(** ** The slots that the streams mark *)

Lemma slotsInv_bitsInv cfg m :
  slotsInv cfg m ↔
  bitsInv (outputBatchSize_ cfg) (outputSize_ m) (outputRows_ <$> streams_ m).
Proof.
  unfold slotsInv, bitsInv, slotsDisjoint. split.
  - intros [Hdis Hall]. split.
    + intros i1 i2 b1 b2 j H1 H2.
      apply list_lookup_fmap_Some in H1 as (s1 & -> & H1).
      apply list_lookup_fmap_Some in H2 as (s2 & -> & H2). eauto.
    + intros i b Hi. apply list_lookup_fmap_Some in Hi as (s & -> & Hi). eauto.
  - intros [Hdis Hall]. split.
    + intros i1 i2 s1 s2 j H1 H2.
      apply (Hdis i1 i2); by rewrite list_lookup_fmap, ?H1, ?H2.
    + intros i s Hi. apply (Hall i). by rewrite list_lookup_fmap, Hi.
Qed.

Lemma bitsInv_fresh size n selections fresh :
  bitsInv size n selections →
  bitsInv size n (selections ++ replicate fresh (newSelectivityVector size)).
Proof.
  intros [Hdis Hall].
  assert (∀ i b j,
    (selections ++ replicate fresh (newSelectivityVector size)) !! i = Some b →
    bits_ b !! j = Some true → selections !! i = Some b) as Hold.
  { intros i b j Hi Hb. apply lookup_app_Some in Hi as [Hi|[_ Hi]]; [done|].
    apply lookup_replicate in Hi as [-> _]. simpl in Hb.
    apply lookup_replicate in Hb as [? _]. done. }
  split.
  - intros i1 i2 b1 b2 j H1 H2 Hb1 Hb2. eauto.
  - intros i b Hi. apply lookup_app_Some in Hi as [Hi|[_ Hi]]; [eauto|].
    apply lookup_replicate in Hi as [-> _].
    split_and!; [apply length_replicate| |done].
    intros j Hj. apply lookup_replicate in Hj as [? _]. done.
Qed.

Lemma slotsInv_isBlocked cfg m task m' task' reason future :
  slotsInv cfg m → isBlocked cfg m task = Ok (m', task', reason, future) →
  slotsInv cfg m'.
Proof.
  intros Hinv H. apply isBlocked_frame in H as (Hz & _ & _ & fresh & Hbits).
  apply slotsInv_bitsInv. rewrite Hz, Hbits.
  by apply bitsInv_fresh, slotsInv_bitsInv.
Qed.

Lemma setOutputRow_bits s n s1 last :
  setOutputRow s n = Ok (s1, last) →
  outputRows_ s1 = setValid (outputRows_ s) n true.
Proof.
  unfold setOutputRow. destruct (data_ s); [|done]. by intros [= <- <-].
Qed.

Lemma pop_bits keys sh s sh' s' b :
  pop keys sh s = Ok (sh', s', b) → outputRows_ s' = outputRows_ s.
Proof.
  unfold pop. simpl. destruct (data_ s) as [d|]; [|done].
  destruct (bool_decide _).
  - destruct (hasSelections _); [done|]. intros H.
    by apply fetchMoreData_bits in H.
  - by intros [= <- <- <-].
Qed.

Lemma copyAllToOutput_bits cursors : ∀ output output' cursors',
  copyAllToOutput output cursors = Ok (output', cursors') →
  length cursors' = length cursors ∧
  ∀ i s', cursors' !! i = Some s' →
    ∃ s, cursors !! i = Some s ∧ outputRows_ s' = clearAll (outputRows_ s).
Proof.
  induction cursors as [|s rest IH]; intros output output' cursors' H; simpl in H.
  - injection H as <- <-. split; [done|]. intros i s' Hi. by rewrite lookup_nil in Hi.
  - destruct (copyToOutput output s) as [[o1 s1]|] eqn:Hc; [|done]. simpl in H.
    destruct (copyAllToOutput o1 rest) as [[o2 rest1]|] eqn:Hr; [|done].
    simpl in H. injection H as <- <-.
    destruct (IH _ _ _ Hr) as [Hlen Hall]. split; [simpl; by rewrite Hlen|].
    intros [|i] s' Hi; simpl in Hi; [|by apply Hall].
    injection Hi as <-. exists s. split; [done|]. by eapply copyToOutput_bits.
Qed.

(** The rounds of the loop, read back from their result. *)
Lemma getOutputStep_emit cfg m r tree i :
  getOutputStep cfg m = Ok r → treeOfLosers_ m = Some tree →
  treeNext (sortingKeys_ cfg) tree (streams_ m) = Some i →
  ∃ s s1 last o1 s2 sh s3 b,
    streams_ m !! i = Some s ∧
    setOutputRow s (outputSize_ m) = Ok (s1, last) ∧
    (if last : bool then copyToOutput (output_ m) s1 else Ok (output_ m, s1))
      = Ok (o1, s2) ∧
    pop (sortingKeys_ cfg) (shared m) s2 = Ok (sh, s3, b) ∧
    let m1 :=
      withShared sh
        (withStreams (<[i := s3]> (streams_ m))
           (withOutputSize (S (outputSize_ m)) (withOutput o1 m))) in
    (S (outputSize_ m) = outputBatchSize_ cfg ∧
       ∃ o2 cursors,
         copyAllToOutput o1 (streams_ m1) = Ok (o2, cursors) ∧
         r = Return (withOutput None (withOutputSize 0 (withStreams cursors m1))) o2) ∨
    (S (outputSize_ m) ≠ outputBatchSize_ cfg ∧
       (r = Return m1 None ∨ r = Continue m1)).
Proof.
  intros H Htree Hnext. unfold getOutputStep in H. rewrite Htree, Hnext in H.
  destruct (streams_ m !! i) as [s|] eqn:Hs; [|done].
  destruct (setOutputRow s (outputSize_ m)) as [[s1 last]|] eqn:Hset; [|done].
  simpl in H.
  destruct (if last then copyToOutput (output_ m) s1 else Ok (output_ m, s1))
    as [[o1 s2]|] eqn:Hcopy; [|done].
  simpl in H.
  destruct (pop (sortingKeys_ cfg) (shared m) s2) as [[[sh s3] b]|] eqn:Hpop;
    [|done].
  simpl in H.
  exists s, s1, last, o1, s2, sh, s3, b. split_and!; try done.
  cbv zeta. destruct (decide (S (outputSize_ m) = outputBatchSize_ cfg)) as [Hfull|Hfull].
  - left. split; [done|]. rewrite bool_decide_true in H by done.
    destruct (copyAllToOutput o1 _) as [[o2 cursors]|] eqn:Hall; [|done].
    simpl in H. injection H as <-. eauto.
  - right. split; [done|]. rewrite bool_decide_false in H by done.
    destruct (negb _); injection H as <-; auto.
Qed.

(** The selection of the stream that took the slot, after the round. *)
Lemma emitted_bits s n s1 last o o1 s2 keys sh sh' s3 b :
  setOutputRow s n = Ok (s1, last) →
  (if last : bool then copyToOutput o s1 else Ok (o, s1)) = Ok (o1, s2) →
  pop keys sh s2 = Ok (sh', s3, b) →
  outputRows_ s3 =
    if last then clearAll (outputRows_ s) else setValid (outputRows_ s) n true.
Proof.
  intros Hset Hcopy Hpop. apply setOutputRow_bits in Hset.
  apply pop_bits in Hpop. rewrite Hpop. destruct last.
  - apply copyToOutput_bits in Hcopy. rewrite Hcopy, Hset. unfold clearAll.
    simpl. by rewrite length_insert.
  - injection Hcopy as <- <-. done.
Qed.

Lemma getOutputStep_drained cfg m r tree :
  getOutputStep cfg m = Ok r → treeOfLosers_ m = Some tree →
  treeNext (sortingKeys_ cfg) tree (streams_ m) = None →
  ∃ m' out, r = Return m' out ∧ streams_ m' = streams_ m ∧
    outputSize_ m' = outputSize_ m.
Proof.
  intros H Htree Hnext. unfold getOutputStep in H. rewrite Htree, Hnext in H.
  destruct (bool_decide _); [injection H as <-; by eexists _, _|].
  simpl in H. destruct (output_ m); [|done]. injection H as <-. by eexists _, _.
Qed.

Lemma bitsInv_emit size n (selections : list SelectivityVector) i rows rows3 :
  bitsInv size n selections → selections !! i = Some rows →
  length (bits_ rows3) = size → rangeCleared rows3 →
  (∀ p, bits_ rows3 !! p = Some true → bits_ rows !! p = Some true ∨ p = n) →
  bitsInv size (S n) (<[i := rows3]> selections).
Proof.
  intros [Hdis Hall] Hi Hlen Hrange Hsub.
  assert (∀ k b p, <[i := rows3]> selections !! k = Some b →
    bits_ b !! p = Some true →
    (k = i ∧ (bits_ rows !! p = Some true ∨ p = n)) ∨
    (k ≠ i ∧ selections !! k = Some b)) as Hcases.
  { intros k b p Hk Hb. destruct (decide (k = i)) as [->|Hne].
    - apply list_lookup_insert_Some in Hk as [(_ & <- & _)|(? & _)]; [|done].
      left. split; [done|]. by apply Hsub.
    - right. by rewrite list_lookup_insert_ne in Hk by done. }
  split.
  - intros i1 i2 b1 b2 j H1 H2 Hb1 Hb2.
    destruct (Hcases _ _ _ H1 Hb1) as [[-> Hj1]|[Hne1 H1']],
      (Hcases _ _ _ H2 Hb2) as [[-> Hj2]|[Hne2 H2']]; try done.
    + destruct Hj1 as [Hj1| ->]; [by apply (Hdis i i2 rows b2 j)|].
      destruct (Hall _ _ H2') as (_ & Hlt & _). specialize (Hlt _ Hb2). lia.
    + destruct Hj2 as [Hj2| ->]; [by apply (Hdis i1 i b1 rows j)|].
      destruct (Hall _ _ H1') as (_ & Hlt & _). specialize (Hlt _ Hb1). lia.
    + by apply (Hdis i1 i2 b1 b2 j).
  - intros k b Hk. destruct (decide (k = i)) as [->|Hne].
    + apply list_lookup_insert_Some in Hk as [(_ & <- & _)|(? & _)]; [|done].
      split_and!; [done| |done]. intros j Hj.
      destruct (Hsub j Hj) as [Hb| ->]; [|lia].
      destruct (Hall _ _ Hi) as (_ & Hlt & _). specialize (Hlt _ Hb). lia.
    + rewrite list_lookup_insert_ne in Hk by done.
      destruct (Hall _ _ Hk) as (? & Hlt & ?). split_and!; [done| |done].
      intros j Hj. specialize (Hlt _ Hj). lia.
Qed.

Lemma bitsInv_cleared size n (selections : list SelectivityVector) :
  (∀ i b, selections !! i = Some b →
     length (bits_ b) = size ∧ countSel (bits_ b) = 0 ∧ rangeCleared b) →
  bitsInv size n selections.
Proof.
  intros Hall. split.
  - intros i1 i2 b1 b2 j H1 _ Hb1. destruct (Hall _ _ H1) as (_ & Hc & _).
    by apply countSel_zero in Hb1.
  - intros i b Hi. destruct (Hall _ _ Hi) as (? & Hc & ?).
    split_and!; [done| |done]. intros j Hj. by apply countSel_zero in Hj.
Qed.

Lemma slotsInv_step cfg m r :
  slotsInv cfg m → getOutputStep cfg m = Ok r →
  match r with
  | Continue m' =>
      slotsInv cfg m' ∧ outputSize_ m' = S (outputSize_ m) ∧
      S (outputSize_ m) ≠ outputBatchSize_ cfg
  | Return m' _ =>
      slotsInv cfg m' ∧
      (outputSize_ m < outputBatchSize_ cfg → outputSize_ m' < outputBatchSize_ cfg)
  end.
Proof.
  intros Hinv H.
  destruct (treeOfLosers_ m) as [tree|] eqn:Htree;
    [|unfold getOutputStep in H; by rewrite Htree in H].
  destruct (treeNext (sortingKeys_ cfg) tree (streams_ m)) as [i|] eqn:Hnext.
  - destruct (getOutputStep_emit _ _ _ _ _ H Htree Hnext)
      as (s & s1 & last & o1 & s2 & sh & s3 & b & Hs & Hset & Hcopy & Hpop & Hr).
    pose proof (emitted_bits _ _ _ _ _ _ _ _ _ _ _ _ Hset Hcopy Hpop) as Hbits3.
    pose proof (proj1 (slotsInv_bitsInv _ _) Hinv) as Hb.
    assert (length (bits_ (outputRows_ s)) = outputBatchSize_ cfg ∧
            rangeCleared (outputRows_ s)) as [Hlen Hrange].
    { destruct Hinv as [_ Hall]. by destruct (Hall i s Hs) as (? & _ & ?). }
    assert (bitsInv (outputBatchSize_ cfg) (S (outputSize_ m))
              (outputRows_ <$> <[i := s3]> (streams_ m))) as Hb1.
    { rewrite list_fmap_insert.
      apply (bitsInv_emit _ _ _ _ (outputRows_ s)); [done| | | |].
      - by rewrite list_lookup_fmap, Hs.
      - rewrite Hbits3. destruct last; simpl;
          rewrite ?length_replicate, ?length_insert; done.
      - rewrite Hbits3. by destruct last.
      - intros p Hp. rewrite Hbits3 in Hp. destruct last.
        + by apply clearAll_lookup in Hp.
        + simpl in Hp.
          destruct (decide (p = outputSize_ m)) as [->|Hne]; [by right|].
          left. by rewrite list_lookup_insert_ne in Hp by done. }
    cbv zeta in Hr. clear H Hnext Htree Hset Hcopy Hpop.
    destruct Hr as [(Hfull & o2 & cursors & Hall & ->)|(Hne & [-> | ->])].
    + split; [|simpl; lia]. apply (proj2 (slotsInv_bitsInv _ _)). simpl. simpl in Hall.
      apply copyAllToOutput_bits in Hall as [Hlen' Hall].
      apply bitsInv_cleared. intros k bk Hk.
      apply list_lookup_fmap_Some in Hk as (s' & -> & Hk).
      destruct (Hall k s' Hk) as (s0 & Hk0 & ->).
      split_and!; [|apply countSel_clearAll|done].
      simpl. rewrite length_replicate. destruct Hb1 as [_ Hb1].
      apply (Hb1 k). by rewrite list_lookup_fmap, Hk0.
    + split; [|simpl; lia]. apply (proj2 (slotsInv_bitsInv _ _)). by simpl.
    + split_and!; [|done..]. apply (proj2 (slotsInv_bitsInv _ _)). by simpl.
  - destruct (getOutputStep_drained _ _ _ _ H Htree Hnext)
      as (m' & out & -> & Hstreams & Hsize).
    split; [|lia]. apply (proj2 (slotsInv_bitsInv _ _)). rewrite Hstreams, Hsize.
    by apply (proj1 (slotsInv_bitsInv _ _)).
Qed.

Lemma slotsInv_loop cfg fuel : ∀ m m' out,
  slotsInv cfg m ∧ outputSize_ m < outputBatchSize_ cfg →
  getOutputLoop cfg fuel m = Ok (m', out) →
  slotsInv cfg m' ∧ outputSize_ m' < outputBatchSize_ cfg.
Proof.
  induction fuel as [|fuel IH]; intros m m' out [Hinv Hroom] H; simpl in H;
    [done|].
  destruct (getOutputStep cfg m) as [r|] eqn:Hstep; [|done]. simpl in H.
  pose proof (slotsInv_step _ _ _ Hinv Hstep) as Hr.
  destruct r as [m1|m1 o1].
  - destruct Hr as (Hinv1 & Hsize & Hne). eapply IH; [|done].
    split; [done|]. lia.
  - injection H as <- <-. destruct Hr as [? Hr]. auto.
Qed.

Lemma slotsInv_allocate cfg m :
  slotsInv cfg m ∧ outputSize_ m < outputBatchSize_ cfg →
  slotsInv cfg (allocateOutput cfg m) ∧
  outputSize_ (allocateOutput cfg m) < outputBatchSize_ cfg.
Proof. unfold allocateOutput. by destruct (output_ m). Qed.

Lemma slotsInv_getOutput cfg m m' out :
  slotsInv cfg m ∧ outputSize_ m < outputBatchSize_ cfg →
  getOutput cfg m = Ok (m', out) →
  slotsInv cfg m' ∧ outputSize_ m' < outputBatchSize_ cfg.
Proof.
  intros Hinv. unfold getOutput.
  destruct (finished_ m); [by intros [= <- <-]|].
  destruct (negb _); [done|].
  destruct (bool_decide (length (sources_ m) = 1)).
  - destruct (sources_ m !! 0); [|done].
    destruct (sourceNext _) as [[[src1 reason] data] future].
    destruct (decide _); by intros [= <- <-].
  - unfold mergeBatch. cbv zeta. apply slotsInv_loop. by apply slotsInv_allocate.
Qed.

Lemma slotsInv_calls cfg m :
  0 < outputBatchSize_ cfg → Calls cfg newMerge m →
  slotsInv cfg m ∧ outputSize_ m < outputBatchSize_ cfg.
Proof.
  intros Hsize.
  induction 1 as [|m task m' task' reason future _ IH H|m m' out _ IH H].
  - split; [|done]. split; [|by intros i s Hi]. by intros i1 i2 s1 s2 j H1.
  - destruct IH as [IH Hroom]. split; [by eapply slotsInv_isBlocked|].
    apply isBlocked_frame in H as (-> & _). done.
  - by eapply slotsInv_getOutput.
Qed.

(** ** The finished operator *)

Lemma getOutput_finished cfg m :
  finished_ m = true → getOutput cfg m = Ok (m, None).
Proof. unfold getOutput. by intros ->. Qed.

Lemma Calls_finished cfg m0 m :
  finished_ m0 = true → Calls cfg m0 m → finished_ m = true.
Proof.
  intros H0. induction 1 as [|m task m' task' reason future _ IH H|m m' out _ IH H].
  - done.
  - apply isBlocked_frame in H as (_ & _ & Hfin & _). auto.
  - rewrite getOutput_finished in H by done. by injection H as <- <-.
Qed.

(** C10: once [isFinished] answers true, a call of [getOutput] returns null
    and the state it leaves is the state it found, so the sources, the
    futures, the output batch and the finished flag are as before; the same
    holds for any number of calls in a row. *)
Theorem getOutput_after_finish_is_noop cfg m (n : nat) :
  isFinished m = true →
  getOutput cfg m = Ok (m, None) ∧
  getOutputTimes cfg n m = Ok (m, replicate n None).
Proof.
  unfold isFinished. intros Hfin. split; [by apply getOutput_finished|].
  induction n as [|n IH]; simpl; [done|].
  rewrite getOutput_finished by done. simpl. by rewrite IH.
Qed.

Lemma getOutput_after_finish_is_noop_witness :
  getOutput (exampleConfig LocalMerge 0 4) (withFinished true exampleStarted) =
    Ok (withFinished true exampleStarted, None) ∧
  getOutputTimes (exampleConfig LocalMerge 0 4) 3 (withFinished true exampleStarted) =
    Ok (withFinished true exampleStarted, replicate 3 None).
Proof.
  apply (getOutput_after_finish_is_noop (exampleConfig LocalMerge 0 4)
           (withFinished true exampleStarted) 3).
  reflexivity.
Defined.

(** ** Construction *)

Lemma makeSortingKeys_ok sortingOrders : ∀ sortingKeys i,
  Forall (λ channel, channel ≠ kConstantChannel) sortingKeys →
  i + length sortingKeys ≤ length sortingOrders →
  ∃ keys, makeSortingKeys i sortingKeys sortingOrders = Ok keys.
Proof.
  induction sortingKeys as [|channel rest IH]; intros i Hall Hlen; simpl.
  - by eexists.
  - apply Forall_cons in Hall as [Hne Hall]. simpl in Hlen.
    rewrite decide_False by done.
    destruct (lookup_lt_is_Some_2 sortingOrders i) as [order ->]; [lia|].
    destruct (IH (S i) Hall) as [keys ->]; [lia|]. simpl. by eexists.
Qed.

(** C9: constructing a LocalMerge on a driver other than driver 0 fails,
    and the error is the check of the constructor, "LocalMerge needs to run
    single-threaded", whenever the base constructor succeeds; on driver 0 the
    check passes, so the construction does what the base constructor does,
    and it succeeds for a plan node whose sorting keys are columns that have
    their orders.  A MergeExchange is constructed on any driver, and on a
    driver other than 0 installing its sources changes nothing and answers
    "not blocked". *)
Theorem localMerge_needs_driver_zero ctx node :
  (ctxDriverId ctx ≠ 0 →
     isOk (constructLocalMerge ctx node) = false ∧
     (isOk (constructMerge LocalMerge ctx node) = true →
        constructLocalMerge ctx node =
          Fail (CheckFailed "LocalMerge needs to run single-threaded"))) ∧
  (ctxDriverId ctx = 0 →
     constructLocalMerge ctx node = constructMerge LocalMerge ctx node ∧
     (Forall (λ channel, channel ≠ kConstantChannel) (nodeSortingKeys node) →
      length (nodeSortingKeys node) ≤ length (nodeSortingOrders node) →
      ∃ cfg, constructLocalMerge ctx node = Ok (cfg, newMerge) ∧
        mergeKind cfg = LocalMerge ∧ driverId cfg = 0)) ∧
  (Forall (λ channel, channel ≠ kConstantChannel) (nodeSortingKeys node) →
   length (nodeSortingKeys node) ≤ length (nodeSortingOrders node) →
   ∃ cfg, constructMergeExchange ctx node = Ok (cfg, newMerge) ∧
     mergeKind cfg = MergeExchange ∧ driverId cfg = ctxDriverId ctx) ∧
  ∀ cfg m task, mergeKind cfg = MergeExchange → driverId cfg ≠ 0 →
    addMergeSources cfg m task = Ok (m, task, kNotBlocked, None).
Proof.
  unfold constructLocalMerge, constructMergeExchange, constructMerge.
  split_and!.
  - intros Hne.
    destruct (makeSortingKeys 0 _ _) as [keys|e]; simpl; [|done].
    by rewrite decide_False.
  - intros Hz. split.
    + destruct (makeSortingKeys 0 _ _) as [keys|e]; simpl; [|done].
      by rewrite decide_True.
    + intros Hall Hlen.
      destruct (makeSortingKeys_ok (nodeSortingOrders node)
                  (nodeSortingKeys node) 0) as [keys ->]; [done..|].
      simpl. rewrite decide_True by done. by eexists.
  - intros Hall Hlen.
    destruct (makeSortingKeys_ok (nodeSortingOrders node)
                (nodeSortingKeys node) 0) as [keys ->]; [done..|].
    simpl. by eexists.
  - intros cfg m task Hkind Hne.
    unfold addMergeSources, addMergeExchangeSources. rewrite Hkind.
    by rewrite bool_decide_false.
Qed.

Lemma localMerge_needs_driver_zero_witness :
  constructLocalMerge (exampleCtx 1 4) exampleNode =
    Fail (CheckFailed "LocalMerge needs to run single-threaded") ∧
  (∃ cfg, constructLocalMerge (exampleCtx 0 4) exampleNode = Ok (cfg, newMerge) ∧
     mergeKind cfg = LocalMerge ∧ driverId cfg = 0) ∧
  ∀ m task,
    addMergeSources (exampleConfig MergeExchange 1 4) m task =
      Ok (m, task, kNotBlocked, None).
Proof.
  assert (Forall (λ channel, channel ≠ kConstantChannel)
            (nodeSortingKeys exampleNode)) as Hall.
  { repeat constructor. discriminate. }
  assert (length (nodeSortingKeys exampleNode) ≤
          length (nodeSortingOrders exampleNode)) as Hlen.
  { simpl. lia. }
  split_and!.
  - apply (localMerge_needs_driver_zero (exampleCtx 1 4) exampleNode).
    + simpl. lia.
    + reflexivity.
  - apply (localMerge_needs_driver_zero (exampleCtx 0 4) exampleNode).
    + reflexivity.
    + exact Hall.
    + exact Hlen.
  - intros m task.
    apply (localMerge_needs_driver_zero (exampleCtx 1 4) exampleNode).
    + reflexivity.
    + simpl. lia.
Defined.

(** ** The budget of the exchange sources *)

Lemma toInt64_small z : (0 ≤ z < 2 ^ 63)%Z → toInt64 z = z.
Proof.
  intros Hz. unfold toInt64. rewrite Z.mod_small; lia.
Qed.

Lemma exchangeSplitLoop_done cfg queue : ∀ m task m' task' future,
  exchangeSplitLoop cfg queue m task = Ok (m', task', kNotBlocked, future) →
  ∃ m0 task0, finishSplits cfg m0 task0 = (m', task') ∧
    sources_ m0 = sources_ m.
Proof.
  induction queue as [|[f|split] queue IH]; intros m task m' task' future H;
    simpl in H.
  - destruct (finishSplits cfg m (withSplitQueue [] task)) as [m1 task1] eqn:Hf.
    injection H as <- <- <-. by exists m, (withSplitQueue [] task).
  - done.
  - destruct (connectorSplit split) as [[taskId|]|]; [|done|].
    + apply IH in H as (m0 & task0 & Hf & Hs). by exists m0, task0.
    + destruct (finishSplits cfg m (withSplitQueue queue task)) as [m1 task1] eqn:Hf.
      injection H as <- <- <-. by exists m, (withSplitQueue queue task).
Qed.

(** C6: when a merge exchange on driver 0 has taken its last split and has
    at least one remote task id, it appends one source per remote task id,
    in order, and each of them gets the same budget: the share of the buffer
    size, [maxMergeExchangeBufferSize / numSources], clamped between the
    lower and the upper limit, provided the share fits the signed 64-bit
    integer that the code computes the budget in (it is below 2^63). *)
Theorem exchange_budget_is_clamped cfg m task m' task' future :
  driverId cfg = 0 → noMoreSplits_ m = false →
  addMergeExchangeSources cfg m task = Ok (m', task', kNotBlocked, future) →
  1 ≤ length (remoteSourceTaskIds_ m') →
  (0 ≤ perSourceShare cfg m' < 2 ^ 63)%Z →
  ∃ created,
    sources_ m' = sources_ m ++ created ∧
    length created = length (remoteSourceTaskIds_ m') ∧
    ∀ i src, created !! i = Some src →
      ∃ taskId, remoteSourceTaskIds_ m' !! i = Some taskId ∧
        srcExchange src =
          Some (mkExchangeParams taskId (destination cfg)
                  (clamp (perSourceShare cfg m') (kMaxQueuedBytesLowerLimit cfg)
                     (kMaxQueuedBytesUpperLimit cfg))
                  i).
Proof.
  intros Hdriver Hsplits H Hn Hshare. unfold addMergeExchangeSources in H.
  rewrite bool_decide_true, Hsplits in H by done. simpl in H.
  apply exchangeSplitLoop_done in H as (m0 & task0 & Hf & <-).
  unfold finishSplits in Hf. cbv zeta in Hf. injection Hf as <- _.
  assert (∀ b : bool, remoteSourceTaskIds_
            (if b then withNoMoreSplits true m0
             else withSources (sources_ (withNoMoreSplits true m0) ++
                    imap (λ remoteSourceIndex taskId,
                       mkMergeSource (remoteEvents task0 taskId) false false
                         (Some (mkExchangeParams taskId (destination cfg)
                            (maxQueuedBytesPerSource cfg
                               (length (remoteSourceTaskIds_ m0)))
                            remoteSourceIndex)))
                      (remoteSourceTaskIds_ m0))
                    (withNoMoreSplits true m0)) =
          remoteSourceTaskIds_ m0) as Hids by (by intros []).
  unfold perSourceShare in *. rewrite Hids in Hn, Hshare |- *.
  rewrite bool_decide_false
    by (intros Hnil; rewrite Hnil in Hn; simpl in Hn; lia).
  simpl. eexists. split; [done|]. split; [by rewrite length_imap|].
  intros i src Hi. apply list_lookup_imap_Some in Hi as (taskId & Hid & ->).
  exists taskId. split; [done|]. simpl. unfold maxQueuedBytesPerSource, clamp.
  by rewrite toInt64_small.
Qed.

Lemma exchange_budget_is_clamped_witness :
  ∃ m' created,
    addMergeExchangeSources (exampleConfig MergeExchange 0 4) newMerge exchangeTask =
      Ok (m', mkTask [] [] (λ _, []) [0; 1] 2, kNotBlocked, None) ∧
    sources_ m' = sources_ newMerge ++ created ∧
    length created = 2 ∧
    ∀ i src, created !! i = Some src →
      ∃ taskId, remoteSourceTaskIds_ m' !! i = Some taskId ∧
        srcExchange src = Some (mkExchangeParams taskId 0 33554432 i).
Proof.
  eexists _.
  edestruct (exchange_budget_is_clamped (exampleConfig MergeExchange 0 4)
               newMerge exchangeTask) as (created & Hs & Hl & Hall).
  - reflexivity.
  - reflexivity.
  - vm_compute. reflexivity.
  - simpl. lia.
  - vm_compute. split; [discriminate|reflexivity].
  - exists created. split; [vm_compute; reflexivity|]. split; [exact Hs|].
    split; [exact Hl|]. exact Hall.
Defined.

(** The budget without the bound on the share: with a buffer size of 2^63
    and one remote task the share does not fit the signed 64-bit integer
    that [std::max<int64_t>] takes it as, and the source gets the lower
    limit where the clamp of the share is the upper limit. *)
Lemma exchange_budget_is_clamped_counterexample :
  ∃ m' task' src,
    addMergeExchangeSources hugeBufferConfig newMerge oneRemoteTask =
      Ok (m', task', kNotBlocked, None) ∧
    length (remoteSourceTaskIds_ m') = 1 ∧
    sources_ m' = [src] ∧
    srcExchange src = Some (mkExchangeParams "t0" 0 1048576 0) ∧
    clamp (perSourceShare hugeBufferConfig m')
      (kMaxQueuedBytesLowerLimit hugeBufferConfig)
      (kMaxQueuedBytesUpperLimit hugeBufferConfig) = 33554432%Z ∧
    ¬ ∃ created,
        sources_ m' = sources_ newMerge ++ created ∧
        length created = length (remoteSourceTaskIds_ m') ∧
        ∀ i src, created !! i = Some src →
          ∃ taskId, remoteSourceTaskIds_ m' !! i = Some taskId ∧
            srcExchange src =
              Some (mkExchangeParams taskId (destination hugeBufferConfig)
                      (clamp (perSourceShare hugeBufferConfig m')
                         (kMaxQueuedBytesLowerLimit hugeBufferConfig)
                         (kMaxQueuedBytesUpperLimit hugeBufferConfig))
                      i).
Proof.
  eexists _, _, _. split; [vm_compute; reflexivity|].
  split; [reflexivity|]. split; [reflexivity|]. split; [reflexivity|].
  split; [vm_compute; reflexivity|].
  intros (created & Hs & _ & Hall). simpl in Hs. subst created.
  destruct (Hall 0 _ eq_refl) as (taskId & _ & Hsrc).
  vm_compute in Hsrc. discriminate Hsrc.
Qed.

(** ** No sources *)

(** C8: when no source is there once the sources are installed, [isBlocked]
    sets the finished flag and answers "not blocked"; from then on, whatever
    the driver calls, the operator stays finished and [getOutput] returns
    null without changing the state, and a run of the driver ends at once
    with no batch. *)
Theorem no_sources_finishes_with_no_output cfg m task m1 task1 future :
  addMergeSources cfg m task = Ok (m1, task1, kNotBlocked, future) →
  sources_ m1 = [] →
  isBlocked cfg m task = Ok (withFinished true m1, task1, kNotBlocked, None) ∧
  isFinished (withFinished true m1) = true ∧
  (∀ m', Calls cfg (withFinished true m1) m' →
     isFinished m' = true ∧ getOutput cfg m' = Ok (m', None)) ∧
  ∀ fuel, drive cfg (S fuel) m task = Ok ([], withFinished true m1, task1).
Proof.
  intros Hadd Hnone.
  assert (isBlocked cfg m task =
            Ok (withFinished true m1, task1, kNotBlocked, None)) as Hblocked.
  { unfold isBlocked. rewrite Hadd. simpl. by rewrite bool_decide_true. }
  split_and!; [done|done| |].
  - intros m' Hcalls. apply Calls_finished in Hcalls; [|done].
    split; [done|]. by apply getOutput_finished.
  - intros fuel. unfold drive. rewrite driveOperator_S.
    change (opIsBlocked (mergeOperator cfg)) with (isBlocked cfg).
    rewrite Hblocked. unfold driveAfter.
    change (opGetOutput (mergeOperator cfg)) with (getOutput cfg).
    cbn [mbind Result_bind]. rewrite decide_False by (intros Hx; by apply Hx).
    rewrite getOutput_finished by done. done.
Qed.

Lemma no_sources_finishes_with_no_output_witness :
  isBlocked (exampleConfig LocalMerge 0 4) newMerge (exampleTask []) =
    Ok (withFinished true newMerge, exampleTask [], kNotBlocked, None) ∧
  drive (exampleConfig LocalMerge 0 4) 1 newMerge (exampleTask []) =
    Ok ([], withFinished true newMerge, exampleTask []).
Proof.
  destruct (no_sources_finishes_with_no_output (exampleConfig LocalMerge 0 4)
              newMerge (exampleTask []) newMerge (exampleTask []) None)
    as (Hblocked & _ & _ & Hdrive).
  - reflexivity.
  - reflexivity.
  - split; [exact Hblocked|exact (Hdrive 0)].
Defined.

(** ** A single source *)

Lemma isBlocked_passthrough_idle cfg m task src :
  mergeKind cfg = LocalMerge → passthroughState m src →
  sourceBlockingFutures_ m = [] →
  ∃ m', isBlocked cfg m task = Ok (m', task, kNotBlocked, None) ∧
    passthroughState m' src ∧ sourceBlockingFutures_ m' = [].
Proof.
  intros Hkind (Hs & Hn & Hstreams & Htree & Hout & Hfin) Hfut.
  destruct m as [srcs n streams tree out size futs fin nms ids]; simpl in *; subst.
  unfold isBlocked, addMergeSources, addLocalMergeSources. rewrite Hkind.
  simpl. by eexists.
Qed.

Lemma isBlocked_passthrough_blocked cfg m task src f rest :
  mergeKind cfg = LocalMerge → passthroughState m src →
  sourceBlockingFutures_ m = f :: rest →
  isBlocked cfg m task = Ok (withFutures rest m, task, kWaitForProducer, Some f).
Proof.
  intros Hkind (Hs & Hn & Hstreams & Htree & Hout & Hfin) Hfut.
  destruct m as [srcs n streams tree out size futs fin nms ids]; simpl in *; subst.
  unfold isBlocked, addMergeSources, addLocalMergeSources. by rewrite Hkind.
Qed.

Lemma isBlocked_passthrough_install cfg task src :
  mergeKind cfg = LocalMerge → localMergeSources task = [src] →
  ∃ m', isBlocked cfg newMerge task = Ok (m', task, kNotBlocked, None) ∧
    passthroughState m' (sourceStart src) ∧ sourceBlockingFutures_ m' = [].
Proof.
  intros Hkind Hsrc.
  unfold isBlocked, addMergeSources, addLocalMergeSources. rewrite Hkind, Hsrc.
  simpl. by eexists.
Qed.

(** What one call of [getOutput] does with a single source: it hands on what
    the source answers. *)
Lemma getOutput_passthrough cfg m src :
  passthroughState m src → sourceBlockingFutures_ m = [] →
  match srcEvents src with
  | [] =>
      ∃ m', getOutput cfg m = Ok (m', None) ∧ finished_ m' = true ∧
        streams_ m' = [] ∧ treeOfLosers_ m' = None ∧ output_ m' = None
  | Blocked f :: rest =>
      ∃ m' src', getOutput cfg m = Ok (m', None) ∧ passthroughState m' src' ∧
        srcEvents src' = rest ∧ sourceBlockingFutures_ m' = [f]
  | Ready d :: rest =>
      ∃ m' src', getOutput cfg m = Ok (m', Some d) ∧ passthroughState m' src' ∧
        srcEvents src' = rest ∧ sourceBlockingFutures_ m' = []
  end.
Proof.
  intros (Hs & Hn & Hstreams & Htree & Hout & Hfin) Hfut.
  destruct m as [srcs n streams tree out size futs fin nms ids]; simpl in *; subst.
  destruct src as [[|[f|d] rest] started closed exchange]; simpl.
  - by eexists.
  - by eexists _, _.
  - by eexists _, _.
Qed.

Lemma passthroughState_futures m src rest :
  passthroughState m src → passthroughState (withFutures rest m) src.
Proof. by intros (? & ? & ? & ? & ? & ?). Qed.

Section passthrough.
Variables (cfg : MergeConfig) (task : Task).
Hypothesis Hkind : mergeKind cfg = LocalMerge.

Lemma passthrough_drive (n : nat) : ∀ m src batches,
passthroughState m src →
2 * length (srcEvents src) + length (sourceBlockingFutures_ m) < n →
∃ fuel m',
  driveOperator (mergeOperator cfg) fuel m task batches =
    Ok (batches ++ sourceBatches src, m', task) ∧
  finished_ m' = true ∧ streams_ m' = [] ∧ treeOfLosers_ m' = None ∧
  output_ m' = None.
Proof.
induction n as [|n IH]; intros m src batches Hst Hw; [lia|].
assert (∀ m src batches, passthroughState m src →
          sourceBlockingFutures_ m = [] →
          2 * length (srcEvents src) < S n →
          ∃ fuel m',
            driveAfter (mergeOperator cfg) fuel m task batches =
              Ok (batches ++ sourceBatches src, m', task) ∧
            finished_ m' = true ∧ streams_ m' = [] ∧
            treeOfLosers_ m' = None ∧ output_ m' = None) as Hafter.
{ clear m src batches Hst Hw. intros m src batches Hst Hfut Hw.
  pose proof (getOutput_passthrough cfg m src Hst Hfut) as Hget.
  unfold driveAfter, sourceBatches.
  change (opGetOutput (mergeOperator cfg)) with (getOutput cfg).
  change (opIsFinished (mergeOperator cfg)) with finished_.
  destruct (srcEvents src) as [|[f|d] rest] eqn:Hev.
  - destruct Hget as (m' & -> & Hfin & ? & ? & ?).
    exists 0, m'. cbn [mbind Result_bind]. rewrite Hfin. simpl.
    by rewrite app_nil_r.
  - destruct Hget as (m' & src' & -> & Hst' & Hrest & Hfut').
    destruct (IH m' src' batches Hst') as (fuel & m'' & Hrun & ?).
    { rewrite Hrest, Hfut'. simpl in *. lia. }
    exists fuel, m''. cbn [mbind Result_bind]. simpl option_list.
    rewrite app_nil_r. destruct Hst' as (_ & _ & _ & _ & _ & ->).
    split; [|done]. rewrite Hrun. unfold sourceBatches. by rewrite Hrest.
  - destruct Hget as (m' & src' & -> & Hst' & Hrest & Hfut').
    destruct (IH m' src' (batches ++ [d]) Hst') as (fuel & m'' & Hrun & ?).
    { rewrite Hrest, Hfut'. simpl in *. lia. }
    exists fuel, m''. cbn [mbind Result_bind]. simpl option_list.
    destruct Hst' as (_ & _ & _ & _ & _ & ->).
    split; [|done]. rewrite Hrun. unfold sourceBatches.
    rewrite Hrest, <- app_assoc. done. }
destruct (sourceBlockingFutures_ m) as [|f rest] eqn:Hfut.
- destruct (isBlocked_passthrough_idle cfg m task src Hkind Hst Hfut)
    as (m1 & Hblocked & Hst1 & Hfut1).
  destruct (Hafter m1 src batches Hst1 Hfut1) as (fuel & m' & Hrun & ?).
  { simpl in Hw. lia. }
  exists (S fuel), m'. split; [|done]. rewrite driveOperator_S.
  change (opIsBlocked (mergeOperator cfg)) with (isBlocked cfg).
  rewrite Hblocked. cbn [mbind Result_bind].
  by rewrite decide_False by (intros Hx; by apply Hx).
- destruct (IH (withFutures rest m) src batches) as (fuel & m' & Hrun & ?).
  { by apply passthroughState_futures. }
  { simpl in *. lia. }
  exists (S fuel), m'. split; [|done]. rewrite driveOperator_S.
  change (opIsBlocked (mergeOperator cfg)) with (isBlocked cfg).
  rewrite (isBlocked_passthrough_blocked cfg m task src f rest) by done.
  cbn [mbind Result_bind]. by rewrite decide_True by done.
Qed.

Lemma passthrough_after (m : Merge) src batches :
passthroughState m src → sourceBlockingFutures_ m = [] →
∃ fuel m',
  driveAfter (mergeOperator cfg) fuel m task batches =
    Ok (batches ++ sourceBatches src, m', task) ∧
  finished_ m' = true ∧ streams_ m' = [] ∧ treeOfLosers_ m' = None ∧
  output_ m' = None.
Proof.
intros Hst Hfut.
pose proof (getOutput_passthrough cfg m src Hst Hfut) as Hget.
unfold driveAfter, sourceBatches.
change (opGetOutput (mergeOperator cfg)) with (getOutput cfg).
change (opIsFinished (mergeOperator cfg)) with finished_.
destruct (srcEvents src) as [|[f|d] rest] eqn:Hev.
- destruct Hget as (m' & -> & Hfin & ? & ? & ?).
  exists 0, m'. cbn [mbind Result_bind]. rewrite Hfin. simpl.
  by rewrite app_nil_r.
- destruct Hget as (m' & src' & -> & Hst' & Hrest & Hfut').
  destruct (passthrough_drive (S (2 * length rest + 1)) m' src' batches Hst')
    as (fuel & m'' & Hrun & ?).
  { rewrite Hrest, Hfut'. simpl. lia. }
  exists fuel, m''. cbn [mbind Result_bind]. simpl option_list.
  rewrite app_nil_r. destruct Hst' as (_ & _ & _ & _ & _ & ->).
  split; [|done]. rewrite Hrun. unfold sourceBatches. by rewrite Hrest.
- destruct Hget as (m' & src' & -> & Hst' & Hrest & Hfut').
  destruct (passthrough_drive (S (2 * length rest)) m' src' (batches ++ [d]) Hst')
    as (fuel & m'' & Hrun & ?).
  { rewrite Hrest, Hfut'. simpl. lia. }
  exists fuel, m''. cbn [mbind Result_bind]. simpl option_list.
  destruct Hst' as (_ & _ & _ & _ & _ & ->).
  split; [|done]. rewrite Hrun. unfold sourceBatches.
  rewrite Hrest, <- app_assoc. done.
Qed.

End passthrough.

Lemma sourceRows_batches src :
  sourceRows src = concat (rowsOf <$> sourceBatches src).
Proof.
  unfold sourceRows, sourceBatches.
  induction (srcEvents src) as [|[f|d] rest IH]; [done| |].
  - by rewrite fmap_cons.
  - rewrite fmap_cons. simpl. f_equal. exact IH.
Qed.

(** C3: with a single source, the run of the driver returns the batches of
    the source as they are, one per call, in order; it ends when the source
    answers with no batch, and at the end no tournament has been built, no
    stream has been made and no output batch allocated.  The rows that the
    general path returns for the same source, merging with a tournament over
    the one stream, are the rows of these batches in the same order. *)
Theorem single_source_is_passthrough cfg task src :
  mergeKind cfg = LocalMerge → localMergeSources task = [src] →
  keysInRange cfg → 0 < outputBatchSize_ cfg → wfSource (numColumns cfg) src →
  ∃ fuel m',
    drive cfg fuel newMerge task = Ok (sourceBatches src, m', task) ∧
    isFinished m' = true ∧ treeOfLosers_ m' = None ∧ streams_ m' = [] ∧
    output_ m' = None ∧
    ∃ fuelGeneral batchesGeneral mGeneral,
      driveGeneral cfg fuelGeneral newMerge task =
        Ok (batchesGeneral, mGeneral, task) ∧
      isFinished mGeneral = true ∧
      concat (rowsOf <$> batchesGeneral) = concat (rowsOf <$> sourceBatches src).
Proof.
  intros Hkind Hsrc Hkeys Hsize Hwf.
  destruct (isBlocked_passthrough_install cfg task src Hkind Hsrc)
    as (m1 & Hblocked & Hst & Hfut).
  destruct (passthrough_after cfg task Hkind m1 (sourceStart src) [] Hst Hfut)
    as (fuel & m' & Hrun & Hfin & Hstreams & Htree & Hout).
  exists (S fuel), m'. split_and!; try done.
  - unfold drive. rewrite driveOperator_S.
    change (opIsBlocked (mergeOperator cfg)) with (isBlocked cfg).
    rewrite Hblocked. cbn [mbind Result_bind].
    by rewrite decide_False by (intros Hx; by apply Hx).
  - destruct (general_run cfg task) as (fuelG & batchesG & mG & HrunG & HfinG & Hrows & _);
      try done.
    + by rewrite Hsrc.
    + rewrite Hsrc. by constructor.
    + exists fuelG, batchesG, mG. split_and!; try done.
      rewrite Hrows, Hsrc. simpl. rewrite kWayMerge_singleton.
      apply sourceRows_batches.
Qed.

Lemma single_source_is_passthrough_witness :
  ∃ fuel m',
    drive (exampleConfig LocalMerge 0 4) fuel newMerge
      (exampleTask [localSource [[10; 20]%Z; [30]%Z]]) =
      Ok ([intColumn [10; 20]%Z; intColumn [30]%Z], m',
          exampleTask [localSource [[10; 20]%Z; [30]%Z]]) ∧
    treeOfLosers_ m' = None.
Proof.
  destruct (single_source_is_passthrough (exampleConfig LocalMerge 0 4)
              (exampleTask [localSource [[10; 20]%Z; [30]%Z]])
              (localSource [[10; 20]%Z; [30]%Z]))
    as (fuel & m' & Hrun & _ & Htree & _).
  - reflexivity.
  - reflexivity.
  - repeat constructor.
  - simpl. lia.
  - repeat constructor; simpl; discriminate.
  - exists fuel, m'. split; [exact Hrun|exact Htree].
Defined.

(** ** The merge *)

Lemma rvSize_rows (batches : list RowVector) :
  sum_list (rvSize <$> batches) = length (concat (rowsOf <$> batches)).
Proof.
  induction batches as [|o rest IH]; simpl; [done|].
  rewrite length_app, rowsOf_length. f_equal. exact IH.
Qed.

(** C1: a LocalMerge over two or more sources that deliver [R] rows in
    all, each in non-decreasing order of the sort keys, in batches that are
    not empty and have the columns of the output type, with a batch size [B]
    of at least one: the run of the driver ends with the operator finished;
    the batches it returned hold [R] rows, which are the rows of the sources
    (as a multiset) in non-decreasing order of the sort keys, and are the
    merge of the row sequences; no batch is empty or larger than [B], and
    all but the last have [B] rows. *)
Theorem merge_emits_all_rows_in_order ctx node cfg m0 task :
  constructLocalMerge ctx node = Ok (cfg, m0) →
  keysInRange cfg → 0 < outputBatchSize_ cfg →
  2 ≤ length (localMergeSources task) →
  Forall (wfSource (numColumns cfg)) (localMergeSources task) →
  Forall (λ src, Sorted (rowLe (sortingKeys_ cfg)) (sourceRows src))
    (localMergeSources task) →
  ∃ fuel batches m',
    drive cfg fuel m0 task = Ok (batches, m', task) ∧
    isFinished m' = true ∧
    sum_list (rvSize <$> batches) =
      sum_list ((λ src, length (sourceRows src)) <$> localMergeSources task) ∧
    concat (rowsOf <$> batches) ≡ₚ
      concat (sourceRows <$> localMergeSources task) ∧
    StronglySorted (rowLe (sortingKeys_ cfg)) (concat (rowsOf <$> batches)) ∧
    concat (rowsOf <$> batches) =
      kWayMerge (sortingKeys_ cfg) (sourceRows <$> localMergeSources task) ∧
    Forall (λ o, rvSize o ≤ outputBatchSize_ cfg) batches ∧
    batchesOk (outputBatchSize_ cfg) batches.
Proof.
  intros Hctor Hkeys Hsize Hn Hwf Hsorted.
  assert (mergeKind cfg = LocalMerge ∧ m0 = newMerge) as [Hkind ->].
  { unfold constructLocalMerge, constructMerge in Hctor.
    destruct (makeSortingKeys _ _ _); [|done]. simpl in Hctor.
    destruct (decide _); [|done]. by injection Hctor as <- <-. }
  destruct (merge_run cfg task) as (fuel & batches & m' & Hrun & Hfin & Hrows & Hok);
    [done|done|done|lia|done|].
  exists fuel, batches, m'. split_and!; try done.
  - rewrite rvSize_rows, Hrows, kWayMerge_length.
    clear. induction (localMergeSources task) as [|src rest IH]; simpl; [done|].
    rewrite length_app. f_equal. exact IH.
  - rewrite Hrows. apply kWayMerge_perm.
  - rewrite Hrows. apply kWayMerge_sorted.
    apply Forall_fmap. eapply Forall_impl; [exact Hsorted|].
    intros src Hs. simpl. apply Sorted_StronglySorted; [|done].
    intros a b c. apply rowLe_trans.
  - destruct Hok as [Hall _]. eapply Forall_impl; [exact Hall|].
    simpl. intros o ?. lia.
Qed.

Lemma merge_emits_all_rows_in_order_witness :
  ∃ fuel batches m',
    drive (exampleConfig LocalMerge 0 4) fuel newMerge (exampleTask threeSources) =
      Ok (batches, m', exampleTask threeSources) ∧
    sum_list (rvSize <$> batches) = 9 ∧
    StronglySorted (rowLe exampleKeys) (concat (rowsOf <$> batches)) ∧
    Forall (λ o, rvSize o ≤ 4) batches.
Proof.
  destruct (merge_emits_all_rows_in_order (exampleCtx 0 4) exampleNode
              (exampleConfig LocalMerge 0 4) newMerge (exampleTask threeSources))
    as (fuel & batches & m' & Hrun & _ & Hcount & _ & Hsorted & _ & Hsize & _).
  - reflexivity.
  - repeat constructor.
  - simpl. lia.
  - simpl. lia.
  - repeat constructor; simpl; discriminate.
  - repeat constructor.
  - exists fuel, batches, m'.
    split; [exact Hrun|]. split; [exact Hcount|]. split; [exact Hsorted|exact Hsize].
Defined.

(** * Further properties of the code *)

(** ** The constructor *)

Lemma makeSortingKeys_constant sortingOrders : ∀ sortingKeys i,
  i + length sortingKeys ≤ length sortingOrders →
  Exists (λ channel, channel = kConstantChannel) sortingKeys →
  makeSortingKeys i sortingKeys sortingOrders =
    Fail (CheckFailed "Merge doesn't allow constant grouping keys").
Proof.
  induction sortingKeys as [|channel rest IH]; intros i Hlen Hex; simpl.
  - by apply Exists_nil in Hex.
  - simpl in Hlen. destruct (decide (channel = kConstantChannel)) as [|Hne]; [done|].
    destruct (lookup_lt_is_Some_2 sortingOrders i) as [order ->]; [lia|].
    apply Exists_cons in Hex as [?|Hex]; [done|].
    rewrite (IH (S i)); [done|lia|done].
Qed.

Lemma makeSortingKeys_lookup sortingOrders : ∀ sortingKeys i keys,
  makeSortingKeys i sortingKeys sortingOrders = Ok keys →
  length keys = length sortingKeys ∧
  ∀ j channel, sortingKeys !! j = Some channel →
    channel ≠ kConstantChannel ∧
    ∃ order, sortingOrders !! (i + j) = Some order ∧
      keys !! j = Some (N.to_nat channel, orderFlags order).
Proof.
  induction sortingKeys as [|channel rest IH]; intros i keys H; simpl in H.
  - injection H as <-. split; [done|]. intros j channel Hj.
    by rewrite lookup_nil in Hj.
  - destruct (decide (channel = kConstantChannel)) as [|Hne]; [done|].
    destruct (sortingOrders !! i) as [order|] eqn:Horder; [|done].
    destruct (makeSortingKeys (S i) rest sortingOrders) as [keys'|] eqn:Hrest;
      [|done].
    simpl in H. injection H as <-.
    destruct (IH _ _ Hrest) as [Hlen Hall]. split; [simpl; by rewrite Hlen|].
    intros [|j] c Hj; simpl in Hj.
    + injection Hj as <-. split; [done|]. exists order.
      by rewrite Nat.add_0_r.
    + destruct (Hall j c Hj) as (? & o & Ho & Hk). split; [done|].
      exists o. by replace (i + S j) with (S i + j) by lia.
Qed.

(** X1: the constructor of the operator, for a plan node that has an order
    for every sorting key.  A sorting key that resolves to the constant
    channel makes it fail with the check "Merge doesn't allow constant
    grouping keys".  When it succeeds, the operator starts from the initial
    state with the batch size of the driver context and one sort key per
    sorting key of the node, in order: the channel of the key with the
    nulls-first and ascending flags of its order. *)
Theorem constructor_builds_the_sort_keys kind ctx node :
  length (nodeSortingKeys node) ≤ length (nodeSortingOrders node) →
  (Exists (λ channel, channel = kConstantChannel) (nodeSortingKeys node) →
     constructMerge kind ctx node =
       Fail (CheckFailed "Merge doesn't allow constant grouping keys")) ∧
  ∀ cfg m, constructMerge kind ctx node = Ok (cfg, m) →
    m = newMerge ∧ mergeKind cfg = kind ∧ driverId cfg = ctxDriverId ctx ∧
    outputBatchSize_ cfg = ctxOutputBatchRows ctx ∧
    length (sortingKeys_ cfg) = length (nodeSortingKeys node) ∧
    ∀ i channel, nodeSortingKeys node !! i = Some channel →
      channel ≠ kConstantChannel ∧
      ∃ order, nodeSortingOrders node !! i = Some order ∧
        sortingKeys_ cfg !! i = Some (N.to_nat channel, orderFlags order).
Proof.
  intros Hlen. unfold constructMerge. split.
  - intros Hex. rewrite makeSortingKeys_constant; [done|simpl; lia|done].
  - intros cfg m H.
    destruct (makeSortingKeys 0 _ _) as [keys|] eqn:Hkeys; [|done].
    simpl in H. injection H as <- <-. simpl.
    destruct (makeSortingKeys_lookup _ _ _ _ Hkeys) as [Hl Hall].
    split_and!; try done.
Qed.

Lemma constructor_builds_the_sort_keys_witness :
  constructMerge LocalMerge (exampleCtx 0 4) constantKeyNode =
    Fail (CheckFailed "Merge doesn't allow constant grouping keys").
Proof.
  apply (constructor_builds_the_sort_keys LocalMerge (exampleCtx 0 4)
           constantKeyNode).
  - simpl. lia.
  - apply Exists_cons_tl, Exists_cons_hd. reflexivity.
Defined.

(** ** Starting the sources *)

(** X2: when [startSources] succeeds, every source is counted as started and
    no source is added, dropped or advanced.  It starts the sources only from
    a state in which none is started, no stream exists and no future is
    pending, and then it starts every one of them; otherwise it changes
    nothing.  A second call changes nothing: the sources are started once. *)
Theorem startSources_starts_once m m' :
  startSources m = Ok m' →
  numStartedSources_ m' = length (sources_ m') ∧
  srcEvents <$> sources_ m' = srcEvents <$> sources_ m ∧
  (numStartedSources_ m < length (sources_ m) →
     numStartedSources_ m = 0 ∧ streams_ m = [] ∧
     sourceBlockingFutures_ m = [] ∧
     Forall (λ src, srcStarted src = true) (sources_ m')) ∧
  (length (sources_ m) ≤ numStartedSources_ m → m' = m) ∧
  startSources m' = Ok m'.
Proof.
  unfold startSources. intros H.
  destruct (bool_decide (numStartedSources_ m ≤ length (sources_ m))) eqn:Hle;
    [|done].
  apply bool_decide_eq_true in Hle. simpl in H.
  destruct (bool_decide (length (sources_ m) ≤ numStartedSources_ m)) eqn:Hge.
  - apply bool_decide_eq_true in Hge. injection H as <-.
    split_and!; try done.
    + lia.
    + intros ?. lia.
    + rewrite bool_decide_true by done. simpl. by rewrite bool_decide_true.
  - apply bool_decide_eq_false in Hge.
    destruct (bool_decide (numStartedSources_ m = 0)) eqn:Hz; [|done].
    apply bool_decide_eq_true in Hz. simpl in H.
    destruct (bool_decide (streams_ m = [])) eqn:Hs; [|done].
    apply bool_decide_eq_true in Hs. simpl in H.
    destruct (bool_decide (sourceBlockingFutures_ m = [])) eqn:Hf; [|done].
    apply bool_decide_eq_true in Hf. simpl in H. injection H as <-. simpl.
    rewrite length_fmap. split_and!; try done.
    + rewrite <- list_fmap_compose. by apply list_fmap_ext.
    + intros _. split_and!; try done. apply Forall_fmap. by apply Forall_true.
    + by rewrite bool_decide_true by done.
Qed.

Lemma startSources_starts_once_witness :
  Forall (λ src, srcStarted src = true)
    (sources_ (withNumStarted 3 (withSources (sourceStart <$> threeSources)
                                   (withSources threeSources newMerge)))).
Proof.
  apply (startSources_starts_once (withSources threeSources newMerge)).
  - reflexivity.
  - simpl. lia.
Defined.

(** ** The budget of an exchange source *)

(** X3: the budget of an exchange source lies between the lower and the
    upper limit whatever the buffer size and the number of sources, also
    when the share of the buffer does not fit the signed 64-bit integer it is
    converted to; and for a buffer size below 2^63 the budget does not grow
    when the number of sources grows. *)
Theorem exchange_budget_within_limits cfg (n1 n2 : nat) :
  (kMaxQueuedBytesLowerLimit cfg ≤ kMaxQueuedBytesUpperLimit cfg)%Z →
  (kMaxQueuedBytesLowerLimit cfg ≤ maxQueuedBytesPerSource cfg n1
     ≤ kMaxQueuedBytesUpperLimit cfg)%Z ∧
  ((0 ≤ maxMergeExchangeBufferSize cfg < 2 ^ 63)%Z → 1 ≤ n1 ≤ n2 →
   (maxQueuedBytesPerSource cfg n2 ≤ maxQueuedBytesPerSource cfg n1)%Z).
Proof.
  intros Hlim. unfold maxQueuedBytesPerSource. split; [lia|].
  intros Hbuf Hn.
  assert (∀ n, 1 ≤ n →
            (0 ≤ maxMergeExchangeBufferSize cfg `div` Z.of_nat n < 2 ^ 63)%Z)
    as Hshare.
  { intros n Hn1. split; [apply Z.div_pos; lia|].
    apply Z.div_lt_upper_bound; [lia|]. nia. }
  rewrite !toInt64_small by (apply Hshare; lia).
  assert (maxMergeExchangeBufferSize cfg `div` Z.of_nat n2 ≤
          maxMergeExchangeBufferSize cfg `div` Z.of_nat n1)%Z.
  { apply Z.div_le_compat_l; lia. }
  lia.
Qed.

Lemma exchange_budget_within_limits_witness :
  (1048576 ≤ maxQueuedBytesPerSource (exampleConfig MergeExchange 0 4) 2
     ≤ 33554432)%Z ∧
  (maxQueuedBytesPerSource (exampleConfig MergeExchange 0 4) 8 ≤
   maxQueuedBytesPerSource (exampleConfig MergeExchange 0 4) 2)%Z.
Proof.
  destruct (exchange_budget_within_limits (exampleConfig MergeExchange 0 4) 2 8)
    as [Hin Hmono].
  - simpl. lia.
  - split; [exact Hin|]. apply Hmono; simpl; lia.
Defined.

(** ** The splits of a merge exchange *)

Lemma exchangeSplitLoop_remote cfg task ids1 : ∀ queue m,
  exchangeSplitLoop cfg ((remoteSplit <$> ids1) ++ queue) m task =
    exchangeSplitLoop cfg queue
      (withRemoteTaskIds (remoteSourceTaskIds_ m ++ ids1) m) task.
Proof.
  induction ids1 as [|taskId ids1 IH]; intros queue m.
  - destruct m. simpl. by rewrite app_nil_r.
  - rewrite fmap_cons. simpl. rewrite IH. destruct m. simpl.
    by rewrite <- app_assoc.
Qed.

Lemma exchangeSplitLoop_queue cfg pending queue : ∀ m task,
  exchangeSplitLoop cfg queue m (withSplitQueue pending task) =
    exchangeSplitLoop cfg queue m task.
Proof.
  induction queue as [|[f|split] queue IH]; intros m task; simpl; [done..|].
  destruct (connectorSplit split) as [[taskId|]|]; [|done..]. apply IH.
Qed.

(** X4: a merge exchange that runs out of splits while collecting them
    answers "wait for split" with the future of the task and keeps the remote
    task ids collected so far, installing no source; the call that resumes
    ends as one call over the same splits without the wait would have. *)
Theorem exchange_split_wait_resumes cfg m task ids1 f queue :
  driverId cfg = 0 → noMoreSplits_ m = false →
  splitQueue task = (remoteSplit <$> ids1) ++ SplitBlocked f :: queue →
  ∃ m1,
    addMergeExchangeSources cfg m task =
      Ok (m1, withSplitQueue queue task, kWaitForSplit, Some f) ∧
    remoteSourceTaskIds_ m1 = remoteSourceTaskIds_ m ++ ids1 ∧
    sources_ m1 = sources_ m ∧ noMoreSplits_ m1 = false ∧
    addMergeExchangeSources cfg m1 (withSplitQueue queue task) =
      addMergeExchangeSources cfg m
        (withSplitQueue ((remoteSplit <$> ids1) ++ queue) task).
Proof.
  intros Hdriver Hsplits Hqueue.
  exists (withRemoteTaskIds (remoteSourceTaskIds_ m ++ ids1) m).
  unfold addMergeExchangeSources.
  rewrite bool_decide_true by done. simpl. rewrite Hsplits, Hqueue.
  rewrite exchangeSplitLoop_remote. simpl. split_and!; try done.
  by rewrite exchangeSplitLoop_remote, !exchangeSplitLoop_queue.
Qed.

Lemma exchange_split_wait_resumes_witness :
  ∃ m1,
    addMergeExchangeSources (exampleConfig MergeExchange 0 4) newMerge
      (withSplitQueue [remoteSplit "t0"; SplitBlocked 7; remoteSplit "t1";
                       SplitReady (mkSplit None)] exchangeTask) =
      Ok (m1, withSplitQueue [remoteSplit "t1"; SplitReady (mkSplit None)]
                (withSplitQueue [remoteSplit "t0"; SplitBlocked 7;
                                 remoteSplit "t1"; SplitReady (mkSplit None)]
                   exchangeTask),
          kWaitForSplit, Some 7) ∧
    remoteSourceTaskIds_ m1 = ["t0"].
Proof.
  destruct (exchange_split_wait_resumes (exampleConfig MergeExchange 0 4) newMerge
              (withSplitQueue [remoteSplit "t0"; SplitBlocked 7; remoteSplit "t1";
                               SplitReady (mkSplit None)] exchangeTask)
              ["t0"] 7 [remoteSplit "t1"; SplitReady (mkSplit None)])
    as (m1 & Hcall & Hids & _).
  - reflexivity.
  - reflexivity.
  - reflexivity.
  - exists m1. split; [exact Hcall|exact Hids].
Defined.

Lemma exchangeSplitLoop_closed cfg queue : ∀ m task m' task' future,
  exchangeSplitLoop cfg queue m task = Ok (m', task', kNotBlocked, future) →
  noMoreSplits_ m' = true ∧ future = None.
Proof.
  induction queue as [|[f|split] queue IH]; intros m task m' task' future H;
    simpl in H.
  - unfold finishSplits in H. simpl in H. injection H as <- <- <-.
    split; [by destruct (bool_decide _)|done].
  - done.
  - destruct (connectorSplit split) as [[taskId|]|]; [|done|].
    + by eapply IH.
    + unfold finishSplits in H. simpl in H. injection H as <- <- <-.
      split; [by destruct (bool_decide _)|done].
Qed.

(** X5: once a merge exchange on driver 0 has answered "not blocked", it
    has seen the last split, and every later call leaves the operator and
    the task as they are, whatever splits the task may still hold: the
    sources are installed at most once. *)
Theorem exchange_sources_installed_once cfg m task m' task' future :
  driverId cfg = 0 →
  addMergeExchangeSources cfg m task = Ok (m', task', kNotBlocked, future) →
  noMoreSplits_ m' = true ∧ future = None ∧
  ∀ later, addMergeExchangeSources cfg m' later = Ok (m', later, kNotBlocked, None).
Proof.
  intros Hdriver H.
  assert (noMoreSplits_ m' = true ∧ future = None) as [Hdone ->].
  { unfold addMergeExchangeSources in H.
    rewrite bool_decide_true in H by done. simpl in H.
    destruct (noMoreSplits_ m) eqn:Hs; [by injection H as <- <- <-|].
    by eapply exchangeSplitLoop_closed. }
  split_and!; try done. intros later. unfold addMergeExchangeSources.
  rewrite bool_decide_true by done. simpl. by rewrite Hdone.
Qed.

Lemma exchange_sources_installed_once_witness :
  ∃ m',
    addMergeExchangeSources (exampleConfig MergeExchange 0 4) newMerge exchangeTask =
      Ok (m', mkTask [] [] (λ _, []) [0; 1] 2, kNotBlocked, None) ∧
    addMergeExchangeSources (exampleConfig MergeExchange 0 4) m' exchangeTask =
      Ok (m', exchangeTask, kNotBlocked, None).
Proof.
  eexists. split; [vm_compute; reflexivity|].
  eapply (exchange_sources_installed_once (exampleConfig MergeExchange 0 4)
            newMerge exchangeTask).
  - reflexivity.
  - vm_compute. reflexivity.
Defined.

(** X6: a merge exchange on driver 0 that reaches the split without a
    connector split has collected the remote task ids in the order of their
    splits, after those of earlier calls; it creates one source per id in
    that order, each reading the exchange of its task, adds one pool per
    source, numbered from 0, and reports as many splits finished; the splits
    behind the last one stay in the queue.  A split of another connector
    aborts the call with the check "Wrong type of split". *)
Theorem exchange_collects_the_splits cfg m task ids1 queue :
  driverId cfg = 0 → noMoreSplits_ m = false →
  (splitQueue task =
     (remoteSplit <$> ids1) ++ SplitReady (mkSplit None) :: queue →
   ∃ m' task',
     addMergeExchangeSources cfg m task = Ok (m', task', kNotBlocked, None) ∧
     remoteSourceTaskIds_ m' = remoteSourceTaskIds_ m ++ ids1 ∧
     (λ src, exTaskId <$> srcExchange src) <$>
         drop (length (sources_ m)) (sources_ m') =
       Some <$> (remoteSourceTaskIds_ m ++ ids1) ∧
     srcEvents <$> drop (length (sources_ m)) (sources_ m') =
       remoteEvents task <$> (remoteSourceTaskIds_ m ++ ids1) ∧
     take (length (sources_ m)) (sources_ m') = sources_ m ∧
     splitQueue task' = queue ∧
     mergeSourcePools task' =
       mergeSourcePools task ++ seq 0 (length (remoteSourceTaskIds_ m ++ ids1)) ∧
     splitsFinished task' =
       splitsFinished task + length (remoteSourceTaskIds_ m ++ ids1)) ∧
  (splitQueue task =
     (remoteSplit <$> ids1) ++
       SplitReady (mkSplit (Some OtherConnectorSplit)) :: queue →
   addMergeExchangeSources cfg m task = Fail (CheckFailed "Wrong type of split")).
Proof.
  intros Hdriver Hsplits. unfold addMergeExchangeSources.
  rewrite bool_decide_true by done. simpl. rewrite Hsplits. split.
  - intros ->. rewrite exchangeSplitLoop_remote. simpl.
    set (ids := remoteSourceTaskIds_ m ++ ids1).
    unfold finishSplits. simpl. fold ids.
    eexists _, _. split; [done|]. simpl.
    destruct (bool_decide (ids = [])) eqn:Hids.
    + apply bool_decide_eq_true in Hids. rewrite Hids. simpl.
      rewrite drop_all, take_ge by done. by rewrite app_nil_r.
    + simpl. rewrite drop_app_length, take_app_length. split_and!; try done.
      * apply list_eq. intros k. rewrite !list_lookup_fmap, list_lookup_imap.
        by destruct (ids !! k).
      * apply list_eq. intros k. rewrite !list_lookup_fmap, list_lookup_imap.
        by destruct (ids !! k).
  - intros ->. by rewrite exchangeSplitLoop_remote.
Qed.

Lemma exchange_collects_the_splits_witness :
  ∃ m' task',
    addMergeExchangeSources (exampleConfig MergeExchange 0 4) newMerge exchangeTask =
      Ok (m', task', kNotBlocked, None) ∧
    remoteSourceTaskIds_ m' = ["t0"; "t1"] ∧
    mergeSourcePools task' = [0; 1] ∧ splitsFinished task' = 2.
Proof.
  destruct (exchange_collects_the_splits (exampleConfig MergeExchange 0 4)
              newMerge exchangeTask ["t0"; "t1"] [])
    as [Hlast _].
  - reflexivity.
  - reflexivity.
  - destruct Hlast as (m' & task' & Hcall & Hids & _ & _ & _ & _ & Hpools & Hcount).
    + reflexivity.
    + exists m', task'. split; [exact Hcall|]. split; [exact Hids|].
      split; [exact Hpools|exact Hcount].
Defined.

(** ** The order of the streams *)

Lemma rowLess_irrefl keys a : rowLess keys a a = false.
Proof. unfold rowLess. by rewrite rowCompare_refl. Qed.

Lemma rowLess_asym keys a b :
  rowLess keys a b = true → rowLess keys b a = false.
Proof.
  unfold rowLess. rewrite (rowCompare_antisym keys a b).
  intros H%Z.ltb_lt. apply Z.ltb_ge. lia.
Qed.

Lemma rowLess_incomparable_trans keys a b c :
  rowLess keys a b = false → rowLess keys b c = false →
  rowLess keys a c = false.
Proof.
  unfold rowLess. intros H1%Z.ltb_ge H2%Z.ltb_ge. apply Z.ltb_ge.
  pose proof (rowCompare_trans keys c b a) as Ht.
  rewrite (rowCompare_antisym keys b c), (rowCompare_antisym keys a b),
    (rowCompare_antisym keys a c) in Ht. lia.
Qed.

Lemma rowLess_trans keys a b c :
  rowLess keys a b = true → rowLess keys b c = true → rowLess keys a c = true.
Proof.
  intros Hab Hbc. destruct (rowLess keys a c) eqn:Hac; [done|].
  pose proof (rowLess_asym _ _ _ Hab) as Hba.
  pose proof (rowLess_incomparable_trans keys b a c Hba Hac) as Hcontra.
  congruence.
Qed.

(** X7: on streams whose current rows are loaded, [operator<] is a strict
    weak order, as a tournament needs: no stream is less than itself, two
    streams are never less than each other, "less" is transitive, and so is
    "neither is less"; the column comparison being the three-way comparison
    of the values with the flags of the key.  With an empty list of sort keys
    no stream is less than another. *)
Theorem less_is_a_strict_weak_order keys a b c :
  streamLoaded keys a → streamLoaded keys b → streamLoaded keys c →
  less keys a a = false ∧
  (less keys a b = true → less keys b a = false) ∧
  (less keys a b = true → less keys b c = true → less keys a c = true) ∧
  (less keys a b = false → less keys b c = false → less keys a c = false) ∧
  less [] a b = false.
Proof.
  intros (da & Hda & Hka) (db & Hdb & Hkb) (dc & Hdc & Hkc).
  rewrite (less_rowLess keys a a da da), (less_rowLess keys a b da db),
    (less_rowLess keys b a db da), (less_rowLess keys b c db dc),
    (less_rowLess keys a c da dc) by done.
  split_and!.
  - apply rowLess_irrefl.
  - apply rowLess_asym.
  - apply rowLess_trans.
  - apply rowLess_incomparable_trans.
  - done.
Qed.

Lemma less_is_a_strict_weak_order_witness :
  less exampleKeys (exampleStream [1; 4]%Z 0) (exampleStream [5; 9]%Z 1) = true.
Proof.
  destruct (less_is_a_strict_weak_order exampleKeys (exampleStream [1; 4]%Z 0)
              (exampleStream [2; 4]%Z 0) (exampleStream [5; 9]%Z 1))
    as (_ & _ & Htrans & _).
  - exists (intColumn [1; 4]%Z). split; reflexivity.
  - exists (intColumn [2; 4]%Z). split; reflexivity.
  - exists (intColumn [5; 9]%Z). split; reflexivity.
  - apply Htrans; reflexivity.
Defined.

(** ** Copying the selected rows *)

(** X8: [copyToOutput], for a stream on a batch of the width of the output
    and a selection over the slots of the output batch.  It succeeds; the
    [k]-th selected slot of the output, in increasing order of the slots,
    takes the row [firstSourceRow_ + k] of the batch of the stream, and every
    other slot keeps its row; the selection is cleared and the batch and the
    current row of the stream are as before; [firstSourceRow_] moves on by
    the number of rows copied, and back to 0 when that reaches the end of the
    batch.  A second call right after changes nothing. *)
Theorem copyToOutput_moves_the_selected_rows cfg out s d :
  outputOk cfg out → data_ s = Some d →
  length (rvChildren d) = numColumns cfg →
  length (bits_ (outputRows_ s)) = outputBatchSize_ cfg →
  length (sourceRows_ s) = outputBatchSize_ cfg →
  ∃ out' s',
    copyToOutput (Some out) s = Ok (Some out', s') ∧
    outputOk cfg out' ∧
    (∀ p, rowAt out' p =
       if decide (bits_ (outputRows_ s) !! p = Some true)
       then rowAt d (firstSourceRow_ s + rank (bits_ (outputRows_ s)) p)
       else rowAt out p) ∧
    outputRows_ s' = clearAll (outputRows_ s) ∧
    countSel (bits_ (outputRows_ s')) = 0 ∧
    hasSelections (outputRows_ s') = false ∧
    length (bits_ (outputRows_ s')) = outputBatchSize_ cfg ∧
    data_ s' = data_ s ∧ currentSourceRow_ s' = currentSourceRow_ s ∧
    keyColumns_ s' = keyColumns_ s ∧
    firstSourceRow_ s' =
      (if decide (countSel (bits_ (outputRows_ s)) = 0) then firstSourceRow_ s
       else if bool_decide
                 (firstSourceRow_ s + countSel (bits_ (outputRows_ s)) = rvSize d)
            then 0
            else firstSourceRow_ s + countSel (bits_ (outputRows_ s))) ∧
    copyToOutput (Some out') s' = Ok (Some out', s').
Proof.
  intros Hout Hd Hwidth Hbits Hrows.
  destruct (decide (countSel (bits_ (outputRows_ s)) = 0)) as [Hnone|Hsome].
  - eexists out, _. split; [by apply copyToOutput_unselected|]. simpl.
    split_and!; try done.
    + intros p. rewrite decide_False; [done|]. by apply countSel_zero.
    + apply countSel_replicate.
    + by rewrite length_replicate.
    + apply copyToOutput_nosel; [done|]. apply countSel_clearAll.
  - destruct (copyToOutput_sel cfg out s d) as (out' & sr & Hcopy & Hsr & Hout' & Hrow);
      try done.
    eexists out', _. split; [exact Hcopy|]. simpl.
    split_and!; try done.
    + apply countSel_replicate.
    + by rewrite length_replicate.
    + apply copyToOutput_nosel; [done|]. apply countSel_clearAll.
Qed.

Lemma copyToOutput_moves_the_selected_rows_witness :
  ∃ out' s',
    copyToOutput
      (Some (createRowVector 1 4))
      (mkSourceStream 0 false false (Some (intColumn [1; 4]%Z)) 1 0
         [[Some 1%Z; Some 4%Z]]
         (mkSelectivityVector [false; true; true; false] 0 0) (replicate 4 0)) =
      Ok (Some out', s') ∧
    rowAt out' 1 = [Some 1%Z] ∧ rowAt out' 2 = [Some 4%Z] ∧
    firstSourceRow_ s' = 0.
Proof.
  destruct (copyToOutput_moves_the_selected_rows (exampleConfig LocalMerge 0 4)
              (createRowVector 1 4)
              (mkSourceStream 0 false false (Some (intColumn [1; 4]%Z)) 1 0
                 [[Some 1%Z; Some 4%Z]]
                 (mkSelectivityVector [false; true; true; false] 0 0)
                 (replicate 4 0))
              (intColumn [1; 4]%Z))
    as (out' & s' & Hcopy & _ & Hrow & _ & _ & _ & _ & _ & _ & _ & Hfirst & _).
  - repeat split. repeat constructor.
  - reflexivity.
  - reflexivity.
  - reflexivity.
  - reflexivity.
  - exists out', s'. split; [exact Hcopy|].
    split; [exact (Hrow 1)|]. split; [exact (Hrow 2)|exact Hfirst].
Defined.

(** ** Fetching the next batch *)

(** X9: a call of [fetchMoreData] that returns takes the next answer of the
    source of the stream and of no other source, and leaves the selection,
    [firstSourceRow_] and the source of the stream as they are.  Its result
    is the new value of [needData_]: true when the source blocked, and then
    the future of the source is pushed and the current row stays; false
    otherwise, and then no future is pushed, the current row is 0 and the
    stream is either at its end, on a null or an empty batch, or on a batch
    that is not empty, with the key columns of that batch. *)
Theorem fetchMoreData_takes_one_answer keys sources futures s sources' futures' s' b :
  fetchMoreData keys (sources, futures) s = Ok (sources', futures', s', b) →
  ∃ src src',
    sources !! source_ s = Some src ∧
    sources' = <[source_ s := src']> sources ∧
    srcEvents src' = tail (srcEvents src) ∧
    source_ s' = source_ s ∧ outputRows_ s' = outputRows_ s ∧
    firstSourceRow_ s' = firstSourceRow_ s ∧ needData_ s' = b ∧
    (b = true →
       ∃ f, head (srcEvents src) = Some (Blocked f) ∧ futures' = f :: futures ∧
         currentSourceRow_ s' = currentSourceRow_ s ∧ atEnd_ s' = atEnd_ s) ∧
    (b = false →
       futures' = futures ∧ currentSourceRow_ s' = 0 ∧
       (atEnd_ s' = true ∧
          (data_ s' = None ∧ srcEvents src = [] ∨
           ∃ d, data_ s' = Some d ∧ head (srcEvents src) = Some (Ready d) ∧
             rvSize d = 0)
        ∨ atEnd_ s' = false ∧
          ∃ d, data_ s' = Some d ∧ head (srcEvents src) = Some (Ready d) ∧
            rvSize d ≠ 0 ∧ loadKeyColumns keys d = Ok (keyColumns_ s'))).
Proof.
  unfold fetchMoreData. intros H.
  destruct (sources !! source_ s) as [src|] eqn:Hsrc; [|done].
  exists src. unfold sourceNext in H.
  destruct (srcEvents src) as [|[f|d] rest] eqn:Hev; simpl in H.
  - injection H as <- <- <- <-. exists src. rewrite Hev. simpl.
    split_and!; try done. intros _. split_and!; try done. left. auto.
  - injection H as <- <- <- <-. eexists. simpl. split_and!; try done.
    intros _. by exists f.
  - destruct (bool_decide (rvSize d = 0)) eqn:Hsize; simpl in H.
    + apply bool_decide_eq_true in Hsize. injection H as <- <- <- <-.
      eexists. simpl. split_and!; try done. intros _. split_and!; try done.
      left. split; [done|]. right. by exists d.
    + apply bool_decide_eq_false in Hsize.
      destruct (loadKeyColumns keys d) as [keyColumns|] eqn:Hkeys; [|done].
      simpl in H. injection H as <- <- <- <-.
      eexists. simpl. split_and!; try done. intros _. split_and!; try done.
      right. split; [done|]. by exists d.
Qed.

Lemma fetchMoreData_takes_one_answer_witness :
  ∃ src src',
    [localSource [[5]%Z]] !! 0 = Some src ∧
    [localSource []] = <[0 := src']> [localSource [[5]%Z]] ∧
    srcEvents src' = tail (srcEvents src).
Proof.
  destruct (fetchMoreData_takes_one_answer exampleKeys [localSource [[5]%Z]] []
              (newSourceStream 0 4) [localSource []] []
              (mkSourceStream 0 false false (Some (intColumn [5]%Z)) 0 0
                 [[Some 5%Z]] (newSelectivityVector 4) (replicate 4 0)) false)
    as (src & src' & Hsrc & Hsources & Hevents & _).
  - reflexivity.
  - exists src, src'. split; [exact Hsrc|]. split; [exact Hsources|exact Hevents].
Defined.

(** ** What a call of [getOutput] returns *)

Lemma copyToOutput_size out s output' s' :
  copyToOutput (Some out) s = Ok (output', s') →
  ∃ out', output' = Some out' ∧ rvSize out' = rvSize out.
Proof.
  unfold copyToOutput.
  destruct (hasSelections (updateBounds (outputRows_ s))); simpl.
  - destruct (applyToSelected _ _ _) as [sr n].
    destruct (data_ s) as [d|]; [|done].
    destruct (copyChildren _ _ _ _); [|done]. simpl. intros [= <- <-].
    by eexists.
  - intros [= <- <-]. by eexists.
Qed.

Lemma copyAllToOutput_size cursors : ∀ out output' cursors',
  copyAllToOutput (Some out) cursors = Ok (output', cursors') →
  ∃ out', output' = Some out' ∧ rvSize out' = rvSize out.
Proof.
  induction cursors as [|s rest IH]; intros out output' cursors' H; simpl in H.
  - injection H as <- <-. by eexists.
  - destruct (copyToOutput (Some out) s) as [[o1 s1]|] eqn:Hc; [|done].
    simpl in H.
    destruct (copyToOutput_size _ _ _ _ Hc) as (out1 & -> & Hs1).
    destruct (copyAllToOutput (Some out1) rest) as [[o2 rest1]|] eqn:Hr; [|done].
    simpl in H. injection H as <- <-.
    destruct (IH _ _ _ Hr) as (out2 & -> & Hs2). exists out2.
    split; [done|]. congruence.
Qed.

Lemma getOutputStep_outcomes cfg (Q : nat → Prop) m r :
  outputReady Q m → getOutputStep cfg m = Ok r →
  match r with
  | Continue m' =>
      outputReady Q m' ∧ outputSize_ m' = S (outputSize_ m) ∧
      S (outputSize_ m) ≠ outputBatchSize_ cfg ∧ finished_ m' = finished_ m
  | Return m' None =>
      finished_ m' = true ∧ outputReady Q m' ∧ outputSize_ m' = outputSize_ m
      ∨ outputReady Q m' ∧ sourceBlockingFutures_ m' ≠ [] ∧
        outputSize_ m' = S (outputSize_ m) ∧
        S (outputSize_ m) ≠ outputBatchSize_ cfg ∧ finished_ m' = finished_ m
  | Return m' (Some o) =>
      output_ m' = None ∧
      (Q (rvSize o) ∧ S (outputSize_ m) = outputBatchSize_ cfg ∧
         outputSize_ m' = 0 ∧ finished_ m' = finished_ m
       ∨ finished_ m' = true ∧ rvSize o = outputSize_ m ∧
         outputSize_ m' = outputSize_ m ∧ outputSize_ m ≠ 0)
  end.
Proof.
  intros (out & Hout & HQ) H. unfold getOutputStep in H.
  destruct (treeOfLosers_ m) as [tree|]; [|done].
  destruct (treeNext _ _ _) as [i|].
  - destruct (streams_ m !! i) as [s|]; [|done].
    destruct (setOutputRow s (outputSize_ m)) as [[s1 last]|]; [|done].
    simpl in H. rewrite Hout in H.
    destruct (if last then copyToOutput (Some out) s1 else Ok (Some out, s1))
      as [[o1 s2]|] eqn:Hcopy; [|done].
    simpl in H.
    assert (∃ out1, o1 = Some out1 ∧ rvSize out1 = rvSize out) as (out1 & -> & Hs1).
    { destruct last; [by eapply copyToOutput_size|].
      injection Hcopy as <- <-. by eexists. }
    destruct (pop _ _ s2) as [[[sh s3] b]|]; [|done]. simpl in H.
    destruct (bool_decide (S (outputSize_ m) = outputBatchSize_ cfg)) eqn:Hfull.
    + apply bool_decide_eq_true in Hfull.
      destruct (copyAllToOutput (Some out1) _) as [[o2 cursors]|] eqn:Hall;
        [|done].
      simpl in H. injection H as <-.
      destruct (copyAllToOutput_size _ _ _ _ Hall) as (out2 & -> & Hs2).
      simpl. split; [done|]. left. split_and!; try done. congruence.
    + apply bool_decide_eq_false in Hfull.
      destruct (bool_decide (sh.2 = [])) eqn:Hfut;
        simpl in H; injection H as <-.
      * simpl. split_and!; try done. exists out1. split; [done|]. congruence.
      * apply bool_decide_eq_false in Hfut. right. simpl.
        split_and!; try done. exists out1. split; [done|]. congruence.
  - destruct (bool_decide (outputSize_ (withFinished true m) = 0)) eqn:Hz.
    + injection H as <-. left. simpl. split_and!; try done. by exists out.
    + apply bool_decide_eq_false in Hz. simpl in Hz, H. rewrite Hout in H.
      injection H as <-. simpl. split; [done|]. right. done.
Qed.

Lemma getOutputLoop_outcomes cfg (Q : nat → Prop) fuel : ∀ m m' out,
  outputReady Q m → outputSize_ m < outputBatchSize_ cfg →
  getOutputLoop cfg fuel m = Ok (m', out) →
  (∀ o, output_ m' = Some o → Q (rvSize o)) ∧
  outputSize_ m' < outputBatchSize_ cfg ∧
  match out with
  | None => finished_ m' = true ∨ sourceBlockingFutures_ m' ≠ []
  | Some o =>
      output_ m' = None ∧
      (Q (rvSize o) ∧ outputSize_ m' = 0 ∧ finished_ m' = finished_ m
       ∨ finished_ m' = true ∧ rvSize o = outputSize_ m' ∧
         0 < rvSize o < outputBatchSize_ cfg)
  end.
Proof.
  induction fuel as [|fuel IH]; intros m m' out Hready Hroom H; simpl in H;
    [done|].
  destruct (getOutputStep cfg m) as [r|] eqn:Hstep; [|done]. simpl in H.
  pose proof (getOutputStep_outcomes cfg Q m r Hready Hstep) as Hr.
  destruct r as [m1|m1 [o|]].
  - destruct Hr as (Hready1 & Hsize & Hne & Hfin).
    assert (outputSize_ m1 < outputBatchSize_ cfg) as Hroom1 by lia.
    destruct (IH _ _ _ Hready1 Hroom1 H) as (Hs & Hr' & Hout).
    split_and!; try done. destruct out as [o|]; [|done]. by rewrite <- Hfin.
  - injection H as <- <-. destruct Hr as (Hnone & Hcases).
    split; [|split].
    + intros o'. by rewrite Hnone.
    + destruct Hcases as [(_ & _ & -> & _)|(_ & _ & -> & _)]; lia.
    + split; [done|]. destruct Hcases as [(? & ? & ? & ?)|(? & ? & ? & ?)].
      * by left.
      * right. split_and!; [done|congruence|lia|lia].
  - injection H as <- <-.
    destruct Hr as [(Hfin & (o & Ho & HQ) & Hsize)|((o & Ho & HQ) & Hfut & Hsize & Hne & _)].
    + split; [|split]; [|lia|by left]. intros o'. rewrite Ho. by intros [= <-].
    + split; [|split]; [|lia|by right]. intros o'. rewrite Ho. by intros [= <-].
Qed.

Lemma allocateOutput_ready cfg (Q : nat → Prop) m :
  Q (outputBatchSize_ cfg) → (∀ o, output_ m = Some o → Q (rvSize o)) →
  outputReady Q (allocateOutput cfg m).
Proof.
  intros HQ Hm. unfold allocateOutput.
  destruct (output_ m) as [o|] eqn:Ho.
  - exists o. split; [done|]. by apply Hm.
  - by eexists.
Qed.

Lemma mergeBatch_outcomes cfg (Q : nat → Prop) m m' out :
  Q (outputBatchSize_ cfg) → (∀ o, output_ m = Some o → Q (rvSize o)) →
  mergeBatch cfg m = Ok (m', out) →
  (∀ o, output_ m' = Some o → Q (rvSize o)) ∧
  outputSize_ m' < outputBatchSize_ cfg ∧
  match out with
  | None => finished_ m' = true ∨ sourceBlockingFutures_ m' ≠ []
  | Some o =>
      output_ m' = None ∧
      (Q (rvSize o) ∧ outputSize_ m' = 0 ∧ finished_ m' = finished_ m
       ∨ finished_ m' = true ∧ rvSize o = outputSize_ m' ∧
         0 < rvSize o < outputBatchSize_ cfg)
  end.
Proof.
  intros HQ Hm H. unfold mergeBatch in H. cbv zeta in H.
  assert (outputSize_ (allocateOutput cfg m) < outputBatchSize_ cfg) as Hroom.
  { destruct (outputBatchSize_ cfg - outputSize_ (allocateOutput cfg m)) eqn:Hf;
      [done|lia]. }
  pose proof (getOutputLoop_outcomes cfg Q _ _ _ _
                (allocateOutput_ready cfg Q m HQ Hm) Hroom H) as Hres.
  assert (finished_ (allocateOutput cfg m) = finished_ m) as Hfin.
  { unfold allocateOutput. by destruct (output_ m). }
  by rewrite Hfin in Hres.
Qed.

Lemma sourceNext_blocked src src' reason data future :
  sourceNext src = (src', reason, data, future) → reason ≠ kNotBlocked →
  ∃ f, future = Some f.
Proof.
  unfold sourceNext. destruct (srcEvents src) as [|[f|d] rest];
    intros [= <- <- <- <-] Hne; by eauto.
Qed.

(** X10: a call of [getOutput] that returns no batch leaves the operator
    finished or with a future pending, which the next [isBlocked] hands to
    the driver: the operator never returns empty-handed while it could go
    on.  This holds in any state, with one source and with several. *)
Theorem getOutput_null_is_finished_or_blocked cfg m m' :
  getOutput cfg m = Ok (m', None) →
  isFinished m' = true ∨ sourceBlockingFutures_ m' ≠ [].
Proof.
  unfold getOutput, isFinished.
  destruct (finished_ m) eqn:Hfin; [intros [= <-]; by left|].
  destruct (negb _); [done|].
  destruct (bool_decide (length (sources_ m) = 1)).
  - destruct (sources_ m !! 0) as [src|]; [|done].
    destruct (sourceNext src) as [[[src1 reason] data] future] eqn:Hnext.
    destruct (decide (reason ≠ kNotBlocked)) as [Hne|_].
    + destruct (sourceNext_blocked _ _ _ _ _ Hnext Hne) as [f ->].
      intros [= <-]. by right.
    + intros [= <- ->]. by left.
  - intros H.
    by destruct (mergeBatch_outcomes cfg (λ _, True) m m' None I (λ _ _, I) H)
      as (_ & _ & ?).
Qed.

Lemma getOutput_null_is_finished_or_blocked_witness :
  ∃ m',
    getOutput (exampleConfig LocalMerge 0 4) singleBlocking = Ok (m', None) ∧
    (isFinished m' = true ∨ sourceBlockingFutures_ m' ≠ []).
Proof.
  eexists. split; [vm_compute; reflexivity|].
  eapply (getOutput_null_is_finished_or_blocked (exampleConfig LocalMerge 0 4)
            singleBlocking).
  vm_compute. reflexivity.
Defined.

(** ** What a call of [isBlocked] answers *)

Lemma fetchMoreData_sources keys sh s sh' s' b :
  fetchMoreData keys sh s = Ok (sh', s', b) → length sh'.1 = length sh.1.
Proof.
  destruct sh as [sources futures]. unfold fetchMoreData.
  destruct (sources !! source_ s) as [src|]; [|done].
  destruct (sourceNext src) as [[[src1 reason] data] future].
  destruct (decide _).
  - intros [= <- <- <-]. simpl. by rewrite length_insert.
  - destruct data as [d|]; simpl.
    + destruct (bool_decide _); simpl.
      * intros [= <- <- <-]. simpl. by rewrite length_insert.
      * destruct (loadKeyColumns keys d); simpl; [|done].
        intros [= <- <- <-]. simpl. by rewrite length_insert.
    + intros [= <- <- <-]. simpl. by rewrite length_insert.
Qed.

Lemma pollStreams_sources keys cursors : ∀ sh sh' cursors',
  pollStreams keys sh cursors = Ok (sh', cursors') →
  length sh'.1 = length sh.1 ∧ length cursors' = length cursors.
Proof.
  induction cursors as [|s rest IH]; intros sh sh' cursors' H.
  - by injection H as <- <-.
  - rewrite pollStreams_cons in H.
    destruct (streamIsBlocked keys sh s) as [[[sh1 s1] b]|] eqn:Hs; [|done].
    simpl in H.
    destruct (pollStreams keys sh1 rest) as [[sh2 rest1]|] eqn:Hr; [|done].
    simpl in H. injection H as <- <-.
    destruct (IH _ _ _ Hr) as [Hl1 Hl2]. simpl. rewrite Hl1, Hl2.
    split; [|done]. unfold streamIsBlocked in Hs. destruct (needData_ s).
    + by eapply fetchMoreData_sources.
    + by injection Hs as <- <- <-.
Qed.

Lemma reportBlocked_answer cfg m m' reason future :
  reportBlocked cfg m = Ok (m', reason, future) →
  length (sources_ m') = length (sources_ m) ∧
  length (streams_ m') = length (streams_ m) ∧
  numStartedSources_ m' = numStartedSources_ m ∧
  (reason = kNotBlocked ∧ future = None ∧ sourceBlockingFutures_ m' = []
   ∨ reason = kWaitForProducer ∧ ∃ f, future = Some f) ∧
  ∀ f rest, sourceBlockingFutures_ m = f :: rest →
    reason = kWaitForProducer ∧ future = Some f ∧
    sourceBlockingFutures_ m' = rest ∧ streams_ m' = streams_ m ∧
    sources_ m' = sources_ m.
Proof.
  unfold reportBlocked.
  destruct (sourceBlockingFutures_ m) as [|f0 rest0] eqn:Hfut.
  - rewrite bool_decide_true by done.
    destruct (pollStreams _ _ _) as [[sh cursors]|] eqn:Hp; [|done]. simpl.
    destruct (pollStreams_sources _ _ _ _ _ Hp) as [Hl1 Hl2].
    destruct sh as [sources futures]. simpl in Hl1.
    destruct futures as [|f fs]; intros [= <- <- <-]; simpl;
      split_and!; try done; eauto.
  - rewrite bool_decide_false by done. simpl. rewrite Hfut.
    intros [= <- <- <-]. simpl. split_and!; try done; [eauto|].
    by intros f rest [= <- <-].
Qed.

Lemma exchangeSplitLoop_answer cfg queue : ∀ m task m' task' reason future,
  exchangeSplitLoop cfg queue m task = Ok (m', task', reason, future) →
  reason = kNotBlocked ∧ future = None ∨
  reason = kWaitForSplit ∧ ∃ f, future = Some f.
Proof.
  induction queue as [|[f|split] queue IH]; intros m task m' task' reason future H;
    simpl in H.
  - unfold finishSplits in H. simpl in H. injection H as <- <- <- <-. by left.
  - injection H as <- <- <- <-. right. eauto.
  - destruct (connectorSplit split) as [[taskId|]|]; [|done|].
    + by eapply IH.
    + unfold finishSplits in H. simpl in H. injection H as <- <- <- <-. by left.
Qed.

Lemma addMergeSources_answer cfg m task m' task' reason future :
  addMergeSources cfg m task = Ok (m', task', reason, future) →
  reason = kNotBlocked ∧ future = None ∨
  reason = kWaitForSplit ∧ ∃ f, future = Some f.
Proof.
  unfold addMergeSources. destruct (mergeKind cfg).
  - unfold addLocalMergeSources. intros [= <- <- <- <-]. by left.
  - unfold addMergeExchangeSources.
    destruct (negb _); [intros [= <- <- <- <-]; by left|].
    destruct (noMoreSplits_ m); [intros [= <- <- <- <-]; by left|].
    apply exchangeSplitLoop_answer.
Qed.

Lemma startSources_counts m m' :
  startSources m = Ok m' → numStartedSources_ m' = length (sources_ m').
Proof.
  unfold startSources.
  destruct (bool_decide (numStartedSources_ m ≤ length (sources_ m))) eqn:Hle;
    [|done].
  apply bool_decide_eq_true in Hle. simpl.
  destruct (bool_decide (length (sources_ m) ≤ numStartedSources_ m)) eqn:Hge.
  - apply bool_decide_eq_true in Hge. intros [= <-]. lia.
  - destruct (bool_decide (numStartedSources_ m = 0)); [|done]. simpl.
    destruct (bool_decide (streams_ m = [])); [|done]. simpl.
    destruct (bool_decide (sourceBlockingFutures_ m = [])); [|done]. simpl.
    intros [= <-]. simpl. by rewrite length_fmap.
Qed.

(** X11: what [isBlocked] answers.  "Not blocked" comes with no future,
    and then either the operator has no source and is finished, or no future
    is pending and every source is counted as started, which is what
    [getOutput] checks first.  "Wait for split" comes with the future of the
    task and with the streams, the tournament, the output batch and the
    pending futures as they were.  "Wait for producer" comes with a future;
    when futures were pending at the call, it is the one recorded last, it is
    taken off and the streams, when there are any, are left as they are: one
    future per call, last in, first out. *)
Theorem isBlocked_answers cfg m task m' task' reason future :
  isBlocked cfg m task = Ok (m', task', reason, future) →
  reason = kNotBlocked ∧ future = None ∧
    (isFinished m' = true ∧ sources_ m' = []
     ∨ sourceBlockingFutures_ m' = [] ∧ sources_ m' ≠ [] ∧
       numStartedSources_ m' = length (sources_ m'))
  ∨ reason = kWaitForSplit ∧ (∃ f, future = Some f) ∧ sameMerging m m' ∧
    sourceBlockingFutures_ m' = sourceBlockingFutures_ m
  ∨ reason = kWaitForProducer ∧ (∃ f, future = Some f) ∧
    ∀ f rest, sourceBlockingFutures_ m = f :: rest →
      future = Some f ∧ sourceBlockingFutures_ m' = rest ∧
      (streams_ m ≠ [] → streams_ m' = streams_ m).
Proof.
  unfold isBlocked.
  destruct (addMergeSources cfg m task) as [[[[m1 task1] r1] f1]|] eqn:Hadd;
    [|done]. simpl.
  destruct (addMergeSources_frame _ _ _ _ _ _ _ Hadd) as (Hsame1 & Hn1 & Hf1).
  destruct (addMergeSources_answer _ _ _ _ _ _ _ Hadd)
    as [[-> ->]|[-> Hfuture]].
  2:{ rewrite decide_True by done. intros [= <- <- <- <-]. right. left. done. }
  rewrite decide_False by (intros Hx; by apply Hx).
  destruct (bool_decide (sources_ m1 = [])) eqn:Hnil.
  { apply bool_decide_eq_true in Hnil. intros [= <- <- <- <-]. left.
    split_and!; try done. by left. }
  apply bool_decide_eq_false in Hnil.
  destruct (startSources m1) as [m2|] eqn:Hstart; [|done]. simpl.
  destruct (startSources_frame _ _ Hstart) as (Hsame2 & Hf2 & Hl2).
  set (m3 := if _ && _ then initializeTreeOfLosers cfg m2 else m2).
  destruct (reportBlocked cfg m3) as [[[m4 r4] f4]|] eqn:Hrep; [|done]. simpl.
  intros [= <- <- <- <-].
  destruct (reportBlocked_answer _ _ _ _ _ Hrep)
    as (Hl4 & Hs4 & Hn4 & Hcases & Hlifo).
  assert (sources_ m3 = sources_ m2 ∧
          numStartedSources_ m3 = numStartedSources_ m2 ∧
          sourceBlockingFutures_ m3 = sourceBlockingFutures_ m2 ∧
          (streams_ m2 ≠ [] → streams_ m3 = streams_ m2)) as (Hs3 & Hn3 & Hf3 & Hst3).
  { unfold m3. destruct (bool_decide (streams_ m2 = [])) eqn:He; simpl.
    - apply bool_decide_eq_true in He. by destruct (bool_decide _).
    - done. }
  pose proof (startSources_counts _ _ Hstart) as Hstarted.
  destruct Hcases as [(-> & -> & Hnone)|(-> & Hsome)].
  - left. split_and!; try done. right. split_and!; [done| |].
    + intros Hx. apply Hnil. apply length_zero_iff_nil.
      rewrite <- Hl2, <- Hs3, <- Hl4, Hx. done.
    + by rewrite Hn4, Hn3, Hl4, Hs3.
  - right. right. split_and!; try done.
    intros f rest Hfut.
    destruct (Hlifo f rest) as (_ & -> & -> & Hst & _).
    { by rewrite Hf3, Hf2, Hf1. }
    split_and!; try done. intros Hlen. rewrite Hst.
    destruct Hsame1 as (Hs1 & _). destruct Hsame2 as (Hs2 & _).
    rewrite Hst3; [by rewrite Hs2, Hs1|]. by rewrite Hs2, Hs1.
Qed.

Lemma isBlocked_answers_witness :
  sourceBlockingFutures_ exampleStarted = [] ∧
  numStartedSources_ exampleStarted = length (sources_ exampleStarted).
Proof.
  destruct (isBlocked_answers (exampleConfig LocalMerge 0 4) newMerge
              (exampleTask threeSources) exampleStarted (exampleTask threeSources)
              kNotBlocked None)
    as [(_ & _ & [[Hfin _]|(Hnone & _ & Hstarted)])|[(Hr & _)|(Hr & _)]].
  - vm_compute. reflexivity.
  - vm_compute in Hfin. discriminate Hfin.
  - split; [exact Hnone|exact Hstarted].
  - discriminate Hr.
  - discriminate Hr.
Defined.

(** ** What a call of [isBlocked] leaves alone *)

Lemma isBlocked_tree cfg m task m' task' reason future :
  isBlocked cfg m task = Ok (m', task', reason, future) → streams_ m ≠ [] →
  treeOfLosers_ m' = treeOfLosers_ m ∧ length (streams_ m') = length (streams_ m).
Proof.
  unfold isBlocked. intros H Hne.
  destruct (addMergeSources cfg m task) as [[[[m1 task1] r1] f1]|] eqn:Hadd;
    [|done]. simpl in H.
  destruct (addMergeSources_frame _ _ _ _ _ _ _ Hadd) as ((Hs1 & Ht1 & _) & _).
  destruct (decide (r1 ≠ kNotBlocked)).
  { injection H as <- <- <- <-. by rewrite Hs1, Ht1. }
  destruct (bool_decide (sources_ m1 = [])).
  { injection H as <- <- <- <-. simpl. by rewrite Hs1, Ht1. }
  destruct (startSources m1) as [m2|] eqn:Hstart; [|done]. simpl in H.
  destruct (startSources_frame _ _ Hstart) as ((Hs2 & Ht2 & _) & _).
  rewrite (bool_decide_false (streams_ m2 = [])) in H by (by rewrite Hs2, Hs1).
  simpl in H.
  destruct (reportBlocked cfg m2) as [[[m4 r4] f4]|] eqn:Hrep; [|done].
  simpl in H. injection H as <- <- <- <-.
  destruct (reportBlocked_frame _ _ _ _ _ Hrep) as (_ & Ht4 & _).
  destruct (reportBlocked_answer _ _ _ _ _ Hrep) as (_ & Hl4 & _).
  by rewrite Ht4, Hl4, Ht2, Hs2, Ht1, Hs1.
Qed.

(** X12: a call of [isBlocked] never touches the output batch or the slot
    counter, never takes back the finished flag and never changes the
    selection of a stream; once the operator has streams, it keeps their
    number and the tournament as they are: the tournament is built at most
    once. *)
Theorem isBlocked_keeps_output_and_tournament cfg m task m' task' reason future :
  isBlocked cfg m task = Ok (m', task', reason, future) →
  output_ m' = output_ m ∧ outputSize_ m' = outputSize_ m ∧
  (isFinished m = true → isFinished m' = true) ∧
  outputRows_ <$> take (length (streams_ m)) (streams_ m') =
    outputRows_ <$> streams_ m ∧
  (streams_ m ≠ [] →
     treeOfLosers_ m' = treeOfLosers_ m ∧
     length (streams_ m') = length (streams_ m)).
Proof.
  intros H.
  destruct (isBlocked_frame _ _ _ _ _ _ _ H) as (Hsize & Hout & Hfin & fresh & Hbits).
  split_and!; try done.
  - rewrite fmap_take, Hbits.
    replace (length (streams_ m)) with (length (outputRows_ <$> streams_ m))
      by apply length_fmap.
    by rewrite take_app_length.
  - intros Hne. by eapply isBlocked_tree.
Qed.

Lemma isBlocked_keeps_output_and_tournament_witness :
  ∃ m' task' reason future,
    isBlocked (exampleConfig LocalMerge 0 4) exampleStarted
      (exampleTask threeSources) = Ok (m', task', reason, future) ∧
    treeOfLosers_ m' = treeOfLosers_ exampleStarted ∧
    length (streams_ m') = 3.
Proof.
  eexists _, _, _, _. split; [vm_compute; reflexivity|].
  eapply (isBlocked_keeps_output_and_tournament (exampleConfig LocalMerge 0 4)
            exampleStarted (exampleTask threeSources)).
  - vm_compute. reflexivity.
  - vm_compute. discriminate.
Defined.

(** ** The state between two calls *)

Lemma getOutput_sized cfg m m' out :
  outputSized (outputBatchSize_ cfg) m → getOutput cfg m = Ok (m', out) →
  outputSized (outputBatchSize_ cfg) m'.
Proof.
  intros Hsized. unfold getOutput.
  destruct (finished_ m); [by intros [= <- <-]|].
  destruct (negb _); [done|].
  destruct (bool_decide (length (sources_ m) = 1)).
  - destruct (sources_ m !! 0); [|done].
    destruct (sourceNext _) as [[[src1 reason] data] future].
    destruct (decide _); by intros [= <- <-].
  - intros H.
    by destruct (mergeBatch_outcomes cfg (λ n, n = outputBatchSize_ cfg)
                   m m' out eq_refl Hsized H) as (? & _).
Qed.

Lemma outputSized_calls cfg m :
  Calls cfg newMerge m → outputSized (outputBatchSize_ cfg) m.
Proof.
  induction 1 as [|m task m' task' reason future _ IH H|m m' out _ IH H].
  - by intros out.
  - apply isBlocked_frame in H as (_ & Hout & _). intros out.
    rewrite Hout. apply IH.
  - by eapply getOutput_sized.
Qed.

(** X13: in every state that calls of [isBlocked] and [getOutput] reach
    from the constructed operator, a batch that [getOutput] returns while
    merging (the number of sources is not one) is either a full batch of
    [outputBatchSize_] rows, and then the slot counter is back at 0 and the
    operator goes on, or the last batch, not empty and not full, of as many
    rows as slots were filled, and then the operator is finished; either way
    the operator gives the batch away and holds no output batch. *)
Theorem merged_batch_is_full_or_last cfg m m' o :
  Calls cfg newMerge m → length (sources_ m) ≠ 1 →
  getOutput cfg m = Ok (m', Some o) →
  output_ m' = None ∧
  (rvSize o = outputBatchSize_ cfg ∧ outputSize_ m' = 0 ∧ isFinished m' = false
   ∨ isFinished m' = true ∧ rvSize o = outputSize_ m' ∧
     0 < rvSize o < outputBatchSize_ cfg).
Proof.
  intros Hcalls Hlen H. pose proof (outputSized_calls cfg m Hcalls) as Hsized.
  unfold getOutput in H.
  destruct (finished_ m) eqn:Hfin; [done|].
  destruct (negb _); [done|].
  rewrite bool_decide_false in H by done.
  destruct (mergeBatch_outcomes cfg (λ n, n = outputBatchSize_ cfg)
              m m' (Some o) eq_refl Hsized H) as (_ & _ & Hnone & Hcases).
  split; [done|]. unfold isFinished.
  destruct Hcases as [(? & ? & ->)|?]; [by left|by right].
Qed.

Lemma merged_batch_is_full_or_last_witness :
  ∃ m' o,
    getOutput (exampleConfig LocalMerge 0 4) exampleStarted = Ok (m', Some o) ∧
    rvSize o = 4 ∧ output_ m' = None.
Proof.
  eexists _, _. split; [vm_compute; reflexivity|].
  edestruct (merged_batch_is_full_or_last (exampleConfig LocalMerge 0 4)
               exampleStarted) as (Hnone & [(Hfull & _)|(Hfin & _)]).
  - eapply (calls_isBlocked _ _ newMerge (exampleTask threeSources)).
    + apply calls_none.
    + vm_compute. reflexivity.
  - vm_compute. discriminate.
  - vm_compute. reflexivity.
  - split; [exact Hfull|exact Hnone].
  - vm_compute in Hfin. discriminate Hfin.
Defined.

(** X14: invariants of the state between two calls, for a batch size of at
    least one, in every state that calls of [isBlocked] and [getOutput] reach
    from the constructed operator: the slot counter is below the batch size;
    the output batch, when the operator holds one, has the batch size; the
    selection of every stream has one bit per slot of the batch and marks
    only slots below the slot counter, none at all when the counter is 0,
    and its cached range is empty, so that [hasSelections] is false; and no
    slot is marked by two streams. *)
Theorem state_between_calls cfg m :
  0 < outputBatchSize_ cfg → Calls cfg newMerge m →
  outputSize_ m < outputBatchSize_ cfg ∧
  outputSized (outputBatchSize_ cfg) m ∧
  slotsDisjoint (streams_ m) ∧
  ∀ i s, streams_ m !! i = Some s →
    length (bits_ (outputRows_ s)) = outputBatchSize_ cfg ∧
    (∀ j, bits_ (outputRows_ s) !! j = Some true → j < outputSize_ m) ∧
    (outputSize_ m = 0 → countSel (bits_ (outputRows_ s)) = 0) ∧
    hasSelections (outputRows_ s) = false.
Proof.
  intros Hsize Hcalls.
  destruct (slotsInv_calls cfg m Hsize Hcalls) as [[Hdis Hall] Hroom].
  split_and!; try done; [by apply outputSized_calls|].
  intros i s Hi. destruct (Hall i s Hi) as (Hlen & Hbelow & Hrange).
  split_and!; try done; [|by apply rangeCleared_hasSelections].
  intros Hzero. apply countSel_zero. intros j Hj.
  specialize (Hbelow j Hj). lia.
Qed.

Lemma state_between_calls_witness :
  outputSize_ exampleStarted < 4 ∧
  outputSized 4 exampleStarted ∧ slotsDisjoint (streams_ exampleStarted).
Proof.
  destruct (state_between_calls (exampleConfig LocalMerge 0 4) exampleStarted)
    as (Hroom & Hsized & Hdis & _).
  - simpl. lia.
  - eapply (calls_isBlocked _ _ newMerge (exampleTask threeSources)).
    + apply calls_none.
    + vm_compute. reflexivity.
  - split; [exact Hroom|]. split; [exact Hsized|exact Hdis].
Defined.

(** ** A single source, whatever it delivers *)

(** X15: with a single local source, the passthrough needs nothing of the
    batches or of the batch size: whatever the source delivers, also empty
    batches (which the merging path would take for the end of a stream) and
    batches larger than [outputBatchSize_], and whatever the batch size, also
    0, the run of the driver returns the batches of the source as they are
    and in order, and ends finished when the source returns a null batch,
    with no stream, no tournament and no output batch. *)
Theorem passthrough_forwards_any_batch cfg task src :
  mergeKind cfg = LocalMerge → localMergeSources task = [src] →
  ∃ fuel m',
    drive cfg fuel newMerge task = Ok (sourceBatches src, m', task) ∧
    isFinished m' = true ∧ streams_ m' = [] ∧ treeOfLosers_ m' = None ∧
    output_ m' = None.
Proof.
  intros Hkind Hsrc.
  destruct (isBlocked_passthrough_install cfg task src Hkind Hsrc)
    as (m1 & Hblocked & Hst & Hfut).
  destruct (passthrough_after cfg task Hkind m1 (sourceStart src) [] Hst Hfut)
    as (fuel & m' & Hrun & Hfin & Hstreams & Htree & Hout).
  exists (S fuel), m'. split_and!; try done.
  unfold drive. rewrite driveOperator_S.
  change (opIsBlocked (mergeOperator cfg)) with (isBlocked cfg).
  rewrite Hblocked. cbn [mbind Result_bind].
  by rewrite decide_False by (intros Hx; by apply Hx).
Qed.

Lemma passthrough_forwards_any_batch_witness :
  ∃ fuel m',
    drive (exampleConfig LocalMerge 0 2) fuel newMerge
      (exampleTask [localSource [[]; [1; 2; 3]%Z]]) =
      Ok ([intColumn []; intColumn [1; 2; 3]%Z], m',
          exampleTask [localSource [[]; [1; 2; 3]%Z]]) ∧
    isFinished m' = true.
Proof.
  destruct (passthrough_forwards_any_batch (exampleConfig LocalMerge 0 2)
              (exampleTask [localSource [[]; [1; 2; 3]%Z]])
              (localSource [[]; [1; 2; 3]%Z]))
    as (fuel & m' & Hrun & Hfin & _).
  - reflexivity.
  - reflexivity.
  - exists fuel, m'. split; [exact Hrun|exact Hfin].
Defined.

(** ** The run of a merge exchange *)

Lemma isBlocked_exchange_install cfg task ids0 idsLast rest :
  mergeKind cfg = MergeExchange → driverId cfg = 0 →
  splitQueue task =
    (remoteSplit <$> idsLast) ++ SplitReady (mkSplit None) :: rest →
  1 < length (ids0 ++ idsLast) →
  isBlocked cfg (collecting ids0) task =
    ('(m4, reason, future) ←
       reportBlocked cfg (exchangeStarted cfg task (ids0 ++ idsLast));
     Ok (m4, taskAfterSplits task rest (length (ids0 ++ idsLast)), reason,
         future)).
Proof.
  intros Hkind Hdriver Hqueue Hlen.
  unfold isBlocked, addMergeSources, addMergeExchangeSources.
  rewrite Hkind, bool_decide_true by done. simpl. rewrite Hqueue.
  rewrite exchangeSplitLoop_remote. simpl.
  set (ids := ids0 ++ idsLast) in *.
  unfold finishSplits. simpl. fold ids.
  assert (ids ≠ []) as Hne by (intros Hx; rewrite Hx in Hlen; simpl in Hlen; lia).
  rewrite !(bool_decide_false (ids = [])) by done. simpl.
  fold (exchangeSources cfg task ids).
  assert (length (exchangeSources cfg task ids) = length ids) as Hl
    by apply length_imap.
  rewrite bool_decide_false
    by (intros Hx; apply (f_equal length) in Hx; simpl in Hx; lia).
  unfold startSources. simpl.
  rewrite (bool_decide_false (_ ≤ 0)) by lia. simpl.
  rewrite length_fmap, (bool_decide_true (1 < _)) by lia. simpl.
  reflexivity.
Qed.

Lemma isBlocked_exchange_wait cfg task ids0 ids1 f queue :
  mergeKind cfg = MergeExchange → driverId cfg = 0 →
  splitQueue task = (remoteSplit <$> ids1) ++ SplitBlocked f :: queue →
  isBlocked cfg (collecting ids0) task =
    Ok (collecting (ids0 ++ ids1), withSplitQueue queue task, kWaitForSplit,
        Some f).
Proof.
  intros Hkind Hdriver Hqueue.
  unfold isBlocked, addMergeSources, addMergeExchangeSources.
  rewrite Hkind, bool_decide_true by done. simpl. rewrite Hqueue.
  by rewrite exchangeSplitLoop_remote.
Qed.

Lemma exchangeSources_length cfg task ids :
  length (exchangeSources cfg task ids) = length ids.
Proof. apply length_imap. Qed.

Lemma exchangeSources_rows cfg task ids :
  sourceRows <$> exchangeSources cfg task ids = remoteRows task <$> ids.
Proof.
  apply list_eq. intros i. unfold exchangeSources.
  rewrite !list_lookup_fmap, list_lookup_imap. by destruct (ids !! i).
Qed.

Lemma exchangeSources_wf cfg task ids :
  Forall (λ taskId, Forall (wfEvent (numColumns cfg)) (remoteEvents task taskId))
    ids →
  Forall (wfSource (numColumns cfg)) (exchangeSources cfg task ids).
Proof.
  intros Hwf. apply Forall_lookup. intros i src Hi. unfold exchangeSources in Hi.
  rewrite list_lookup_imap in Hi.
  destruct (ids !! i) as [taskId|] eqn:Hid; [|done]. injection Hi as <-.
  unfold wfSource. simpl. by eapply (proj1 (Forall_lookup _ _) Hwf).
Qed.

Lemma exchangeStarted_streams cfg task ids i :
  streams_ (exchangeStarted cfg task ids) !! i =
    (λ _, newSourceStream i (outputBatchSize_ cfg)) <$>
      (exchangeSources cfg task ids !! i).
Proof.
  unfold exchangeStarted, initializeTreeOfLosers. simpl.
  rewrite list_lookup_imap, list_lookup_fmap.
  by destruct (exchangeSources cfg task ids !! i).
Qed.

Lemma exchangeStarted_length cfg task ids :
  length (streams_ (exchangeStarted cfg task ids)) = length ids.
Proof.
  unfold exchangeStarted, initializeTreeOfLosers. simpl.
  by rewrite length_imap, length_fmap, exchangeSources_length.
Qed.

Lemma exchangeStarted_sources cfg task ids :
  length (sources_ (exchangeStarted cfg task ids)) = length ids.
Proof. simpl. by rewrite length_fmap, exchangeSources_length. Qed.

Lemma exchangeStarted_inv cfg task ids :
  mergeKind cfg = MergeExchange → ids ≠ [] →
  Forall (λ taskId, Forall (wfEvent (numColumns cfg)) (remoteEvents task taskId))
    ids →
  MergeInv cfg (exchangeStarted cfg task ids) [].
Proof.
  intros Hkind Hne Hwf.
  assert (∀ i s, streams_ (exchangeStarted cfg task ids) !! i = Some s →
    s = newSourceStream i (outputBatchSize_ cfg) ∧ i < length ids) as Hs.
  { intros i s. rewrite exchangeStarted_streams.
    destruct (exchangeSources cfg task ids !! i) eqn:Hi; [|done]. intros [= <-].
    split; [done|]. rewrite <- (exchangeSources_length cfg task).
    by eapply lookup_lt_Some. }
  assert (exchangeSources cfg task ids ≠ []) as Hne'.
  { intros Hx. apply (f_equal length) in Hx.
    rewrite exchangeSources_length in Hx. by destruct ids. }
  split.
  - unfold installed. rewrite Hkind. by right.
  - rewrite exchangeStarted_length. unfold exchangeStarted, initializeTreeOfLosers.
    simpl. by rewrite length_imap, length_fmap, exchangeSources_length.
  - by rewrite exchangeStarted_length, exchangeStarted_sources.
  - simpl. by destruct (exchangeSources cfg task ids).
  - simpl. by rewrite length_fmap.
  - done.
  - done.
  - simpl. lia.
  - intros i s Hi. destruct (Hs i s Hi) as [-> Hlt].
    unfold newSourceStream. split_and!; simpl; try done.
    + by rewrite length_replicate.
    + by rewrite length_replicate.
    + intros j Hj. apply lookup_replicate in Hj as [? _]. done.
    + split; [apply countSel_replicate|done].
  - simpl. apply Forall_fmap.
    eapply Forall_impl; [by apply exchangeSources_wf|]. done.
  - intros i1 i2 s1 s2 j H1 _ Hb1. destruct (Hs i1 s1 H1) as [-> _].
    simpl in Hb1. apply lookup_replicate in Hb1 as [? _]. done.
  - intros j r Hj. by rewrite lookup_nil in Hj.
  - done.
Qed.

Lemma exchangeStarted_remainders cfg task ids :
  remainders (exchangeStarted cfg task ids) = remoteRows task <$> ids.
Proof.
  rewrite <- (exchangeSources_rows cfg).
  apply list_eq. intros i. unfold remainders.
  rewrite !list_lookup_fmap, exchangeStarted_streams.
  destruct (exchangeSources cfg task ids !! i) as [src|] eqn:Hi; simpl; [|done].
  unfold remaining. simpl. by rewrite list_lookup_fmap, Hi.
Qed.

(** The run of the driver from the call that has built the tournament. *)
Lemma run_from_started cfg task st :
  keysInRange cfg → 0 < outputBatchSize_ cfg →
  MergeInv cfg st [] → length (sources_ st) ≠ 1 →
  ∃ fuel batches m' m1 reason future,
    reportBlocked cfg st = Ok (m1, reason, future) ∧
    (if decide (reason ≠ kNotBlocked)
     then driveOperator (mergeOperator cfg) fuel m1 task []
     else driveAfter (mergeOperator cfg) fuel m1 task []) =
      Ok (batches, m', task) ∧
    finished_ m' = true ∧
    concat (rowsOf <$> batches) = kWayMerge (sortingKeys_ cfg) (remainders st) ∧
    batchesOk (outputBatchSize_ cfg) batches.
Proof.
  intros Hkeys Hsize Hinv Hcount.
  destruct (reportBlocked_spec cfg _ [] Hkeys Hinv)
    as (m1 & reason & future & Hreport & Hinv1 & Hrems & Hcount1 & Hcases).
  assert (∀ m P, MergeInv cfg m P → length (sources_ m) = length (sources_ st) →
            opIsBlocked (mergeOperator cfg) m task =
              ('(m4, reason, future) ← reportBlocked cfg m;
               Ok (m4, task, reason, future))) as HisB.
  { intros m P Hm _. by eapply isBlocked_steady. }
  assert (∀ m P, MergeInv cfg m P → length (sources_ m) = length (sources_ st) →
            opGetOutput (mergeOperator cfg) m = mergeBatch cfg m) as Hget.
  { intros m P Hm Hc. eapply getOutput_merging; [done|lia]. }
  destruct (drive_steps cfg (mergeOperator cfg) task (length (sources_ st))
              Hkeys Hsize HisB Hget (λ m, eq_refl)
              (S (measure m1)) m1 [] [] ltac:(lia) Hinv1 Hcount1 Hsize)
    as [(fuel & more & m' & Hrun & Hgood) Hafter].
  destruct Hcases as [(-> & Hfetched & _)|(Hblocked & _)].
  - destruct (Hafter Hfetched) as (fuel' & more' & m'' & Hrun' & Hfin' & Hcat & Hbs).
    exists fuel', more', m'', m1, kNotBlocked, future.
    rewrite decide_False by (intros Hx; by apply Hx).
    simpl in *. rewrite Hrems in Hcat. done.
  - destruct Hgood as (Hfin' & Hcat & Hbs).
    exists fuel, more, m', m1, reason, future.
    rewrite decide_True by done. simpl in *. rewrite Hrems in Hcat. done.
Qed.

Section exchange.
Variables (cfg : MergeConfig) (idsLast : list string) (rest : list SplitEvent).
Hypothesis Hkind : mergeKind cfg = MergeExchange.
Hypothesis Hdriver : driverId cfg = 0.
Hypothesis Hkeys : keysInRange cfg.
Hypothesis Hsize : 0 < outputBatchSize_ cfg.

Lemma exchange_drive segments : ∀ ids0 task,
splitQueue task =
  waitingSplits segments ++
    (remoteSplit <$> idsLast) ++ SplitReady (mkSplit None) :: rest →
1 < length (ids0 ++ concat (fst <$> segments) ++ idsLast) →
Forall (λ taskId, Forall (wfEvent (numColumns cfg)) (remoteEvents task taskId))
  (ids0 ++ concat (fst <$> segments) ++ idsLast) →
∃ fuel batches m',
  driveOperator (mergeOperator cfg) fuel (collecting ids0) task [] =
    Ok (batches, m',
        taskAfterSplits task rest
          (length (ids0 ++ concat (fst <$> segments) ++ idsLast))) ∧
  finished_ m' = true ∧
  concat (rowsOf <$> batches) =
    kWayMerge (sortingKeys_ cfg)
      (remoteRows task <$> (ids0 ++ concat (fst <$> segments) ++ idsLast)) ∧
  batchesOk (outputBatchSize_ cfg) batches.
Proof.
induction segments as [|[ids1 f] segments IH]; intros ids0 task Hqueue Hlen Hwf.
- simpl in *.
  assert (ids0 ++ idsLast ≠ []) as Hne.
  { intros Hx. rewrite Hx in Hlen. simpl in Hlen. lia. }
  pose proof (exchangeStarted_inv cfg task _ Hkind Hne Hwf) as Hinv.
  destruct (run_from_started cfg
              (taskAfterSplits task rest (length (ids0 ++ idsLast)))
              (exchangeStarted cfg task (ids0 ++ idsLast)) Hkeys Hsize Hinv)
    as (fuel & batches & m' & m1 & reason & future & Hreport & Hrun & Hfin &
        Hrows & Hok).
  { rewrite exchangeStarted_sources. lia. }
  exists (S fuel), batches, m'. split_and!; try done.
  + rewrite driveOperator_S.
    change (opIsBlocked (mergeOperator cfg)) with (isBlocked cfg).
    rewrite (isBlocked_exchange_install cfg task ids0 idsLast rest) by done.
    rewrite Hreport. cbn [mbind Result_bind]. exact Hrun.
  + by rewrite Hrows, exchangeStarted_remainders.
- rewrite fmap_cons in *. simpl in Hlen, Hwf, Hqueue |- *.
  unfold waitingSplits in Hqueue. rewrite fmap_cons in Hqueue.
  simpl in Hqueue. rewrite <- !app_assoc in Hqueue. simpl in Hqueue.
  fold (waitingSplits segments) in Hqueue.
  assert ((ids0 ++ ids1) ++ concat (fst <$> segments) ++ idsLast =
          ids0 ++ (ids1 ++ concat (fst <$> segments)) ++ idsLast) as Hids
    by (by rewrite <- !app_assoc).
  destruct (IH (ids0 ++ ids1)
              (withSplitQueue
                 (waitingSplits segments ++
                  (remoteSplit <$> idsLast) ++
                  SplitReady (mkSplit None) :: rest) task))
    as (fuel & batches & m' & Hrun & Hfin & Hrows & Hok).
  { done. }
  { by rewrite Hids. }
  { rewrite Hids. exact Hwf. }
  rewrite Hids in Hrun, Hrows.
  exists (S fuel), batches, m'. split_and!; try done.
  rewrite driveOperator_S.
  change (opIsBlocked (mergeOperator cfg)) with (isBlocked cfg).
  rewrite (isBlocked_exchange_wait cfg task ids0 ids1 f _ Hkind Hdriver Hqueue).
  cbn [mbind Result_bind]. rewrite decide_True by done. exact Hrun.
Qed.

End exchange.

(** X16: the run of a merge exchange on driver 0.  The task hands out
    the splits of two or more remote tasks, with any number of waits for
    more splits in between, and then the split without a connector split;
    the exchanges deliver batches that are not empty and have the columns of
    the output type, each exchange in non-decreasing order of the sort keys,
    and the batch size is at least one.  Then the driver, calling [isBlocked]
    and [getOutput] until the operator is finished, comes to an end; the
    batches it returned hold the rows of all the exchanges, in non-decreasing
    order of the sort keys: they are the merge of the row sequences in the
    order of the splits; no batch is empty or larger than the batch size and
    all but the last are full; and the splits behind the last one are still
    in the queue of the task. *)
Theorem exchange_merges_the_remote_sources cfg task segments idsLast rest :
  mergeKind cfg = MergeExchange → driverId cfg = 0 →
  keysInRange cfg → 0 < outputBatchSize_ cfg →
  splitQueue task =
    waitingSplits segments ++
      (remoteSplit <$> idsLast) ++ SplitReady (mkSplit None) :: rest →
  2 ≤ length (concat (fst <$> segments) ++ idsLast) →
  Forall (λ taskId, Forall (wfEvent (numColumns cfg)) (remoteEvents task taskId))
    (concat (fst <$> segments) ++ idsLast) →
  Forall (λ taskId, Sorted (rowLe (sortingKeys_ cfg)) (remoteRows task taskId))
    (concat (fst <$> segments) ++ idsLast) →
  ∃ fuel batches m' task',
    drive cfg fuel newMerge task = Ok (batches, m', task') ∧
    isFinished m' = true ∧ splitQueue task' = rest ∧
    concat (rowsOf <$> batches) ≡ₚ
      concat (remoteRows task <$> (concat (fst <$> segments) ++ idsLast)) ∧
    StronglySorted (rowLe (sortingKeys_ cfg)) (concat (rowsOf <$> batches)) ∧
    concat (rowsOf <$> batches) =
      kWayMerge (sortingKeys_ cfg)
        (remoteRows task <$> (concat (fst <$> segments) ++ idsLast)) ∧
    batchesOk (outputBatchSize_ cfg) batches.
Proof.
  intros Hkind Hdriver Hkeys Hsize Hqueue Hlen Hwf Hsorted.
  destruct (exchange_drive cfg idsLast rest Hkind Hdriver Hkeys Hsize segments
              [] task Hqueue)
    as (fuel & batches & m' & Hrun & Hfin & Hrows & Hok).
  { simpl. lia. }
  { exact Hwf. }
  simpl in Hrun, Hrows. eexists fuel, batches, m', _.
  split; [exact Hrun|]. split_and!; try done.
  - rewrite Hrows. apply kWayMerge_perm.
  - rewrite Hrows. apply kWayMerge_sorted.
    apply Forall_fmap. eapply Forall_impl; [exact Hsorted|].
    intros taskId Hs. simpl. apply Sorted_StronglySorted; [|done].
    intros a b c. apply rowLe_trans.
Qed.

Lemma exchange_merges_the_remote_sources_witness :
  ∃ fuel batches m' task',
    drive (exampleConfig MergeExchange 0 4) fuel newMerge mergingTask =
      Ok (batches, m', task') ∧
    isFinished m' = true ∧
    concat (rowsOf <$> batches) =
      kWayMerge exampleKeys (remoteRows mergingTask <$> ["t0"; "t1"]).
Proof.
  destruct (exchange_merges_the_remote_sources (exampleConfig MergeExchange 0 4)
              mergingTask [(["t0"], 7)] ["t1"] [])
    as (fuel & batches & m' & task' & Hrun & Hfin & _ & _ & _ & Hrows & _).
  - reflexivity.
  - reflexivity.
  - repeat constructor.
  - simpl. lia.
  - reflexivity.
  - simpl. lia.
  - repeat constructor; simpl; discriminate.
  - repeat constructor.
  - exists fuel, batches, m', task'.
    split; [exact Hrun|]. split; [exact Hfin|exact Hrows].
Defined.

(** ** The first call of [isBlocked] *)

(** X17: the first call of [isBlocked] of a LocalMerge whose task has two
    or more sources, delivering batches that are not empty and have the
    columns of the output type.  It installs the sources of the task, counts
    every one as started and builds the tournament over one stream per
    source, in the order of the sources: stream [i] reads source [i] and has
    an empty selection of one bit per slot of the output batch.  When it
    answers "not blocked", no future is pending and every stream has asked
    its source and is on a batch or at its end; otherwise it answers "wait
    for producer". *)
Theorem first_isBlocked_builds_the_streams cfg task :
  keysInRange cfg → mergeKind cfg = LocalMerge →
  1 < length (localMergeSources task) →
  Forall (wfSource (numColumns cfg)) (localMergeSources task) →
  ∃ m' reason future,
    isBlocked cfg newMerge task = Ok (m', task, reason, future) ∧
    length (sources_ m') = length (localMergeSources task) ∧
    numStartedSources_ m' = length (localMergeSources task) ∧
    length (streams_ m') = length (localMergeSources task) ∧
    treeOfLosers_ m' =
      Some (mkTreeOfLosers (seq 0 (length (localMergeSources task)))) ∧
    (∀ i s, streams_ m' !! i = Some s →
       source_ s = i ∧ length (bits_ (outputRows_ s)) = outputBatchSize_ cfg ∧
       countSel (bits_ (outputRows_ s)) = 0 ∧
       hasSelections (outputRows_ s) = false) ∧
    (reason = kNotBlocked ∧ sourceBlockingFutures_ m' = [] ∧
       (∀ i s, streams_ m' !! i = Some s → needData_ s = false)
     ∨ reason = kWaitForProducer ∧ ∃ f, future = Some f).
Proof.
  intros Hkeys Hkind Hlen Hwf.
  assert (localMergeSources task ≠ []) as Hne.
  { intros Hx. rewrite Hx in Hlen. simpl in Hlen. lia. }
  pose proof (startedMerge_inv cfg _ Hkind Hne Hwf) as Hinv.
  destruct (reportBlocked_spec cfg _ [] Hkeys Hinv)
    as (m1 & reason & future & Hreport & Hinv1 & _ & Hcount & Hcases).
  rewrite startedMerge_sources in Hcount.
  exists m1, reason, future.
  rewrite isBlocked_install, Hreport by done.
  split; [done|].
  pose proof (inv_streams _ _ _ Hinv1) as Hstreams.
  split_and!.
  - done.
  - by rewrite (inv_started _ _ _ Hinv1).
  - by rewrite Hstreams.
  - by rewrite (inv_tree _ _ _ Hinv1), Hstreams, Hcount.
  - intros i s Hi.
    destruct (inv_stream _ _ _ Hinv1 i s Hi)
      as (Hsrc & Hbits & _ & Hbelow & Hrange & _).
    split_and!; try done; [|by apply rangeCleared_hasSelections].
    apply countSel_zero.
    intros j Hj. specialize (Hbelow j Hj). simpl in Hbelow. lia.
  - destruct (reportBlocked_answer _ _ _ _ _ Hreport)
      as (_ & _ & _ & [(-> & -> & Hnone)|(-> & Hsome)] & _).
    + left. split_and!; try done.
      destruct Hcases as [(_ & (_ & Hfetched) & _)|(Hx & _)]; [done|].
      by destruct Hx.
    + by right.
Qed.

Lemma first_isBlocked_builds_the_streams_witness :
  ∃ m' reason future,
    isBlocked (exampleConfig LocalMerge 0 4) newMerge (exampleTask threeSources) =
      Ok (m', exampleTask threeSources, reason, future) ∧
    length (streams_ m') = 3 ∧
    ∀ i s, streams_ m' !! i = Some s → source_ s = i.
Proof.
  destruct (first_isBlocked_builds_the_streams (exampleConfig LocalMerge 0 4)
              (exampleTask threeSources))
    as (m' & reason & future & Hcall & _ & _ & Hlen & _ & Hstreams & _).
  - repeat constructor.
  - reflexivity.
  - simpl. lia.
  - repeat constructor; simpl; discriminate.
  - exists m', reason, future. split; [exact Hcall|]. split; [exact Hlen|].
    intros i s Hi. by destruct (Hstreams i s Hi).
Defined.

(** ** One stream per slot *)


Section driven.
Context (cfg : MergeConfig) (task : Task).
Hypothesis Hkeys : keysInRange cfg.
Hypothesis Hkind : mergeKind cfg = LocalMerge.
Hypothesis Hmany : 1 < length (localMergeSources task).
Hypothesis Hwf : Forall (wfSource (numColumns cfg)) (localMergeSources task).
Hypothesis Hsize : 0 < outputBatchSize_ cfg.




End driven.



